(** * Requiem: the request lifecycle of [tmont/requiem], embedded in Rocq

    The library is a thin promise-based layer over Node's [http.request]:
    it builds a request from an options object, wires the [error],
    [timeout] and [abort] events to the promise, follows redirects up to a
    bound, validates the final status code and can buffer the body.

    The repository holds the resolver [followRedirects] in two editions:
    the TypeScript source [index.ts] and the compiled [index.js], whose head
    differs (the compiled one tests [followRedirects === false] and
    [typeof followRedirects !== 'undefined']).  Both are embedded, as
    [followRedirects] and [followRedirects_js]; every other function is the
    same text in the two editions and is embedded once, over the resolver.

    Conventions of the embedding:
    - an options object is a JavaScript object, a finite map from property
      names to values; objects live in a heap and are passed by reference,
      so that in-place assignments are visible to every holder;
    - JavaScript numbers are restricted to integers ([Z]);
    - a promise is its state, pending, fulfilled or rejected, and settles
      at most once;
    - what the network does to a request is a script of events, one
      [exchange] per request issued, consumed in the order of issue.

    [reverseProxy], which the compiled edition attaches to a response,
    is embedded on its own, over a record of what is done to the outgoing
    response.

    Left out: numbers that are not integers; the errors of the stream of
    a response that is not the final one (the stream of the final
    response is read by [requestBody]); the interleaving of the events of
    a request with those of the requests that follow it. *)

From Stdlib Require Import ZArith String Ascii List Bool Lia DecimalString.
From stdpp Require Import base option gmap strings list.

Open Scope string_scope.

(** ** JavaScript values and objects *)

#[warnings="-register-all"]
Inductive value : Type :=
| VUndefined
| VNull
| VBool (b : bool)
| VNum (n : Z)
| VStr (s : string)
| VObj (fields : list (string * value)).

Abbreviation obj := (gmap string value).

(** ToBoolean. *)
Definition truthy (v : value) : bool :=
  match v with
  | VUndefined | VNull => false
  | VBool b => b
  | VNum n => negb (n =? 0)%Z
  | VStr s => negb (s =? EmptyString)%string
  | VObj _ => true
  end.

(** [a || b] *)
Definition js_or (a b : value) : value := if truthy a then a else b.

Inductive js_type := TUndefined | TObject | TBoolean | TNumber | TString.

Definition typeof (v : value) : js_type :=
  match v with
  | VUndefined => TUndefined
  | VNull | VObj _ => TObject
  | VBool _ => TBoolean
  | VNum _ => TNumber
  | VStr _ => TString
  end.

Definition Z_to_string (n : Z) : string := NilZero.string_of_int (Z.to_int n).

(** ToString, as a template literal applies it. *)
Definition to_str (v : value) : string :=
  match v with
  | VUndefined => "undefined"
  | VNull => "null"
  | VBool true => "true"
  | VBool false => "false"
  | VNum n => Z_to_string n
  | VStr s => s
  | VObj _ => "[object Object]"
  end.

(** ToNumber; [None] is NaN.  The conversion of strings and objects is
    outside the integer model and taken as NaN: the interface declares the
    fields compared below as numbers. *)
Definition to_number (v : value) : option Z :=
  match v with
  | VNum n => Some n
  | VBool b => Some (if b then 1 else 0)%Z
  | VNull => Some 0%Z
  | VUndefined | VStr _ | VObj _ => None
  end.

(** [a > b] between numbers; every comparison with NaN is false. *)
Definition js_gt (a b : value) : bool :=
  match to_number a, to_number b with
  | Some x, Some y => (y <? x)%Z
  | _, _ => false
  end.

(** [a < b] *)
Definition js_lt (a b : value) : bool :=
  match to_number a, to_number b with
  | Some x, Some y => (x <? y)%Z
  | _, _ => false
  end.

(** [a >= b] *)
Definition js_ge (a b : value) : bool :=
  match to_number a, to_number b with
  | Some x, Some y => (y <=? x)%Z
  | _, _ => false
  end.

(** [a === b] on primitive values; two object values are two objects. *)
Definition strict_eq (a b : value) : bool :=
  match a, b with
  | VUndefined, VUndefined | VNull, VNull => true
  | VBool x, VBool y => Bool.eqb x y
  | VNum x, VNum y => (x =? y)%Z
  | VStr x, VStr y => (x =? y)%string
  | _, _ => false
  end.

(** A field typed [number | undefined] or [string | undefined]. *)
Definition of_number (n : option Z) : value :=
  match n with Some n => VNum n | None => VUndefined end.

Definition of_string (s : option string) : value :=
  match s with Some s => VStr s | None => VUndefined end.

(** [o.k]: an absent property reads as [undefined]. *)
Definition get (o : obj) (k : string) : value := default VUndefined (o !! k).

(** ['k' in o] *)
Definition has (o : obj) (k : string) : bool :=
  match o !! k with Some _ => true | None => false end.

(** ** Responses, errors, promises *)

Inductive RequiemErrorCode :=
| Timeout | RequestAbort | TooManyRedirects | InvalidUrl
| InvalidStatusCode | InvalidJsonBody | InvalidRedirectUrl.

(** Events of a response stream; a stream error is an error of the
    transport, kept as its message. *)
Inductive stream_event :=
| Data (chunk : string)
| EndOfStream
| StreamError (message : string).

Record IncomingMessage := {
  statusCode : option Z;
  headers : gmap string string;
  stream : list stream_event }.

(** [Object.assign(res, { requestedUrl })] *)
Record RequiemResponse := {
  incoming : IncomingMessage;
  requestedUrl : string }.

(** An error value: a [RequiemError] with its code, message, request
    (a reference into the request store) and response, or an error raised
    by the platform (the transport, [JSON.stringify], [write]). *)
Inductive error :=
| RequiemError (code : RequiemErrorCode) (message : string)
               (req : option nat) (res : option RequiemResponse)
| NativeError (message : string).

(** The state of a promise. *)
Inductive promise (A : Type) :=
| Pending
| Fulfilled (a : A)
| Rejected (e : error).
Arguments Pending {A}.
Arguments Fulfilled {A} a.
Arguments Rejected {A} e.

(** [resolve] and [reject] act on a pending promise only. *)
Definition settle {A} (p q : promise A) : promise A :=
  match p with
  | Pending => q
  | _ => p
  end.

(** A synchronous call returns or throws. *)
Inductive result (A : Type) :=
| Returned (a : A)
| Thrown (e : error).
Arguments Returned {A} a.
Arguments Thrown {A} e.

(** ** The platform

    The URL class, [JSON.stringify] and the modules [http] and [https]
    are Node's, not the library's.  A URL object is represented by its
    [href]; [None] stands for a thrown exception.  [JSON.stringify]
    returns a string, or [undefined] (for a function, say), or throws (on
    a cyclic value).  [http.request] and [https.request] check their
    arguments before they make a request, and throw when the protocol of
    the URL is not the module's, when the agent given is of the other
    protocol, when the path has characters to escape, when the method or
    a header is no token: [request_throws] is the exception, if any. *)

Inductive lib := http | https.

Class Runtime := {
  (** [new URL(input, base).href] *)
  new_URL : string → option string → option string;
  (** [url.port = v] *)
  URL_set_port : string → value → string;
  (** [url.pathname = v] *)
  URL_set_pathname : string → value → string;
  JSON_stringify : value → result value;
  (** what [lib.request(url, options)] throws *)
  request_throws : lib → string → obj → option error }.

(** ** The store: option objects and requests

    [http.request] and [https.request] create a [ClientRequest]; the
    record keeps the arguments it was created with and what was done to
    it afterwards. *)

Record ClientRequest := {
  transport : lib;
  target : string;
  httpOptions : obj;
  req_requestedUrl : string;
  sent_headers : list (string * string);
  written : list string;
  ended : bool;
  aborted : bool }.

Record world := {
  heap : list obj;
  requests : list ClientRequest }.

Definition M (A : Type) : Type := world → A * world.

Definition ret {A} (a : A) : M A := fun w => (a, w).

Definition bind {A B} (c : M A) (k : A → M B) : M B :=
  fun w => let (a, w') := c w in k a w'.

Declare Scope js_scope.
Delimit Scope js_scope with js.
Notation "'let*' x ':=' c 'in' k" := (bind c (fun x => k))
  (at level 10, x pattern, c at level 100, k at level 200) : js_scope.
Notation "c ';;' k" := (bind c (fun _ => k))
  (at level 100, k at level 200, right associativity) : js_scope.
Open Scope js_scope.

(** A new object; the reference is its index in the heap. *)
Definition alloc (o : obj) : M nat :=
  fun w => (length (heap w), {| heap := heap w ++ [o]; requests := requests w |}).

Definition load (l : nat) : M obj :=
  fun w => (default ∅ (heap w !! l), w).

Definition store (l : nat) (o : obj) : M unit :=
  fun w => (tt, {| heap := <[l := o]> (heap w); requests := requests w |}).

(** [o.k = v] *)
Definition set_prop (l : nat) (k : string) (v : value) : M unit :=
  let* o := load l in store l (<[k := v]> o).

(** [delete o.k] *)
Definition delete_prop (l : nat) (k : string) : M unit :=
  let* o := load l in store l (delete k o).

Definition update_request (r : nat) (f : ClientRequest → ClientRequest) : M unit :=
  fun w => (tt, {| heap := heap w;
                   requests := match requests w !! r with
                               | Some c => <[r := f c]> (requests w)
                               | None => requests w
                               end |}).

(** [lib.request(url, httpOptions)], then
    [Object.assign(req, { requestedUrl })]; when [lib.request] throws
    there is no request. *)
Definition lib_request {platform : Runtime} (l : lib) (url : string) (options : obj)
  : M (result nat) :=
  match request_throws l url options with
  | Some e => ret (Thrown e)
  | None =>
      fun w => (Returned (length (requests w)),
                {| heap := heap w;
                   requests := requests w ++
                     [{| transport := l; target := url; httpOptions := options;
                         req_requestedUrl := url; sent_headers := [];
                         written := []; ended := false; aborted := false |}] |})
  end.

Definition setHeader (r : nat) (name v : string) : M unit :=
  update_request r (fun c =>
    {| transport := transport c; target := target c;
       httpOptions := httpOptions c; req_requestedUrl := req_requestedUrl c;
       sent_headers := sent_headers c ++ [(name, v)];
       written := written c; ended := ended c; aborted := aborted c |}).

(** [req.write(chunk)]: a chunk is a string or a buffer, both kept as
    strings; any other value makes [write] throw. *)
Definition write (r : nat) (chunk : value) : M (result unit) :=
  match chunk with
  | VStr text =>
      update_request r (fun c =>
        {| transport := transport c; target := target c;
           httpOptions := httpOptions c; req_requestedUrl := req_requestedUrl c;
           sent_headers := sent_headers c;
           written := written c ++ [text]; ended := ended c;
           aborted := aborted c |});;
      ret (Returned tt)
  | _ => ret (Thrown (NativeError "ERR_INVALID_ARG_TYPE"))
  end.

Definition end_ (r : nat) : M unit :=
  update_request r (fun c =>
    {| transport := transport c; target := target c;
       httpOptions := httpOptions c; req_requestedUrl := req_requestedUrl c;
       sent_headers := sent_headers c;
       written := written c; ended := true; aborted := aborted c |}).

(** [req.aborted] *)
Definition is_aborted (r : nat) : M bool :=
  fun w => (match requests w !! r with Some c => aborted c | None => false end, w).

(** [req.abort()]: marks the request aborted; the transport emits [abort]
    for the first call only.  The result tells whether it does. *)
Definition abort (r : nat) : M bool :=
  let* a := is_aborted r in
  update_request r (fun c =>
    {| transport := transport c; target := target c;
       httpOptions := httpOptions c; req_requestedUrl := req_requestedUrl c;
       sent_headers := sent_headers c;
       written := written c; ended := ended c; aborted := true |});;
  ret (negb a).

(** ** Building a request: [formatUrl], [createRequest] *)

Section Requiem.
Context {platform : Runtime}.

(** [formatUrl]; [None] when it throws. *)
Definition formatUrl (args : obj) : option string :=
  if negb (truthy (get args "host")) then None
  else
    match new_URL (to_str (js_or (get args "protocol") (VStr "http:")) +:+ "//" +:+
                   to_str (js_or (get args "host") (VStr "example.com"))) None with
    | None => None
    | Some url =>
        let url :=
          if truthy (get args "port") then URL_set_port url (get args "port")
          else url in
        let url :=
          if truthy (js_or (get args "path") (get args "pathname"))
          then URL_set_pathname url (js_or (get args "path") (get args "pathname"))
          else url in
        Some url
    end.

Definition defaultFollowRedirects : Z := 5.

(** The argument of the public functions: a URL string or an options
    object, held by reference. *)
Inductive RequiemOptions :=
| OptionsString (url : string)
| OptionsObject (ref : nat).

Definition isUrlOptions (options : obj) : bool :=
  match typeof (get options "url") with TString => true | _ => false end.

Definition isUrlBodyOptions (options : obj) : bool := has options "body".
Definition isUrlBodyJsonOptions (options : obj) : bool := has options "bodyJson".
Definition isHostBodyOptions (options : obj) : bool := has options "body".
Definition isHostBodyJsonOptions (options : obj) : bool := has options "bodyJson".

(** A string is wrapped in a new object; an object is returned as it is,
    the same reference. *)
Definition getObjectionsObject (options : RequiemOptions) : M nat :=
  match options with
  | OptionsString s => alloc {[ "url" := VStr s ]}
  | OptionsObject l => ret l
  end.

(** [createRequest]: the exceptions of the URL are caught and replaced
    by [InvalidUrl]; [lib.request] is called after the [try], so that
    what it throws leaves [createRequest] as it is. *)
Definition createRequest (options : RequiemOptions) : M (result nat) :=
  let* optionsObj := getObjectionsObject options in
  let* o := load optionsObj in
  set_prop optionsObj "method" (js_or (get o "method") (VStr "GET"));;
  let* o := load optionsObj in
  let* reqOptions := alloc (delete "throwOnErrorResponse" (delete "followRedirects" o)) in
  delete_prop reqOptions "body";;
  delete_prop reqOptions "bodyJson";;
  let* httpOptions := load reqOptions in
  let* o := load optionsObj in
  match (if isUrlOptions o then new_URL (to_str (get o "url")) None
         else formatUrl o) with
  | None =>
      ret (Thrown (RequiemError InvalidUrl "URL could not be formatted properly"
                                None None))
  | Some urlStr =>
      let lib := if String.prefix "https:" urlStr then https else http in
      lib_request lib urlStr httpOptions
  end.

(** ** Event wiring: [wireRequestEvents]

    The two variables of the closure are the state of the listeners.  A
    listener that calls [reject] reports the call; the promise takes the
    first settlement it is given. *)

Record listeners := {
  timedOut : bool;
  rejected : bool }.

(** [wireRequestEvents(req, options, reject)]: [let timedOut = false;
    let rejected = false;] and three listeners, below. *)
Definition wireRequestEvents : listeners :=
  {| timedOut := false; rejected := false |}.

Inductive listener := OnError | OnAbort.

(** A call of [reject], with the listener that made it. *)
Definition rejection : Type := listener * error.

(** What happens to a request: the transport emits [error], [timeout] or
    [abort], or the holder of the request calls [req.abort()]. *)
Inductive signal :=
| EmitError (e : error)
| EmitTimeout
| EmitAbort
| CallAbort.

(** The message of the [Timeout] error. *)
Definition timeout_message (o : obj) : string :=
  "Reached timeout limit (" +:+
  (if has o "timeout" then to_str (get o "timeout") +:+ "ms" else "node default") +:+
  "), request aborted".

(** [req.on('abort', ...)] *)
Definition on_abort (req options : nat) (s : listeners) : M (listeners * list rejection) :=
  if rejected s then ret (s, [])
  else
    let s := {| timedOut := timedOut s; rejected := true |} in
    if timedOut s then
      let* o := load options in
      ret (s, [(OnAbort, RequiemError Timeout (timeout_message o) (Some req) None)])
    else
      ret (s, [(OnAbort, RequiemError RequestAbort "Request was aborted" (Some req) None)]).

(** [req.on('timeout', ...)]; the [abort] event that [req.abort()] makes
    the transport emit is delivered next. *)
Definition on_timeout (req options : nat) (s : listeners) : M (listeners * list rejection) :=
  let s := {| timedOut := true; rejected := rejected s |} in
  let* a := is_aborted req in
  if negb a then
    let* emitted := abort req in
    if emitted then on_abort req options s else ret (s, [])
  else ret (s, []).

(** [req.on('error', reject)] *)
Definition on_error (e : error) (s : listeners) : M (listeners * list rejection) :=
  ret (s, [(OnError, e)]).

Definition deliver (req options : nat) (s : listeners) (sig : signal)
  : M (listeners * list rejection) :=
  match sig with
  | EmitError e => on_error e s
  | EmitTimeout => on_timeout req options s
  | EmitAbort => on_abort req options s
  | CallAbort =>
      let* emitted := abort req in
      if emitted then on_abort req options s else ret (s, [])
  end.

Fixpoint deliver_all (req options : nat) (s : listeners) (sigs : list signal)
  : M (listeners * list rejection) :=
  match sigs with
  | [] => ret (s, [])
  | sig :: sigs =>
      let* (s, calls) := deliver req options s sig in
      let* (s, calls') := deliver_all req options s sigs in
      ret (s, (calls ++ calls')%list)
  end.

(** The promise after a series of calls of its [reject]. *)
Definition reject_all {A} (p : promise A) (calls : list rejection) : promise A :=
  fold_left (fun p c => settle p (Rejected (snd c))) calls p.

(** ** One request on the wire

    The events of one request: signals before the response, the response
    if one arrives, and signals after the chain started by the response
    has run.  The [response] listener runs whatever the state of the
    promise. *)

Record exchange := {
  early : list signal;
  response : option IncomingMessage;
  late : list signal }.

Definition silence : exchange :=
  {| early := []; response := None; late := [] |}.

Definition run_exchange (req options : nat) (x : exchange)
    (on_response : IncomingMessage → M (promise RequiemResponse))
    (p : promise RequiemResponse) : M (promise RequiemResponse) :=
  let* (s, calls) := deliver_all req options wireRequestEvents (early x) in
  let p := reject_all p calls in
  let* p := match response x with
            | Some res =>
                let* q := on_response res in
                ret (settle p q)
            | None => ret p
            end in
  let* (s, calls) := deliver_all req options s (late x) in
  ret (reject_all p calls).

(** ** The redirect resolver: [followRedirects] *)

Definition quote : string := String (ascii_of_nat 34) EmptyString.

Definition too_many_message (urls : list string) (maxDepth : value) : string :=
  quote +:+ to_str (of_string (urls !! 0%nat)) +:+ quote +:+
  " redirected too many times (max redirects: " +:+ to_str maxDepth +:+ ")".

(** [!statusCode || statusCode < 300 || statusCode >= 400 || !location] *)
Definition final (statusCode location : value) : bool :=
  negb (truthy statusCode) || js_lt statusCode (VNum 300) ||
  js_ge statusCode (VNum 400) || negb (truthy location).

(** The promise that issues the request of a hop: the options are copied,
    the host form is deleted from the copy, [url] and [method] are set in
    a second copy, and the request is created from it, wired and ended.
    [createRequest] is called in the executor of the promise: what it
    throws rejects the promise. *)
Definition hop (options : nat) (newUrl : string) (x : exchange)
    (recurse : RequiemResponse → M (promise RequiemResponse))
  : M (promise RequiemResponse) :=
  let* o := load options in
  let* urlOptions := alloc o in
  delete_prop urlOptions "host";;
  delete_prop urlOptions "path";;
  delete_prop urlOptions "port";;
  delete_prop urlOptions "protocol";;
  let* u := load urlOptions in
  let* newOptions := alloc (<[ "method" := VStr "GET" ]> (<[ "url" := VStr newUrl ]> u)) in
  let* created := createRequest (OptionsObject newOptions) in
  match created with
  | Thrown e => ret (Rejected e)
  | Returned req =>
      end_ req;;
      run_exchange req newOptions x
        (fun res => recurse {| incoming := res; requestedUrl := newUrl |})
        Pending
  end.

(** [followRedirects] of [index.ts].  [hops] scripts the requests the
    resolver will issue, the next one first. *)
Fixpoint followRedirects (urls : list string) (res : RequiemResponse)
    (options : nat) (depth : nat) (hops : list exchange)
  : M (promise RequiemResponse) :=
  let statusCode := of_number (statusCode (incoming res)) in
  let* o := load options in
  let maxDepth := js_or (get o "followRedirects") (VNum defaultFollowRedirects) in
  if js_gt (VNum (Z.of_nat depth)) maxDepth then
    ret (Rejected (RequiemError TooManyRedirects (too_many_message urls maxDepth)
                                None (Some res)))
  else
    let location := of_string (headers (incoming res) !! "location") in
    if final statusCode location then ret (Fulfilled res)
    else
      match new_URL (to_str location) (last urls) with
      | None =>
          ret (Rejected (RequiemError InvalidRedirectUrl
                                      ("Invalid redirect URL: " +:+ to_str location)
                                      None (Some res)))
      | Some newUrl =>
          match hops with
          | [] => hop options newUrl silence (fun _ => ret Pending)
          | x :: hops =>
              hop options newUrl x (fun reqRes =>
                followRedirects (urls ++ [newUrl]) reqRes options (S depth) hops)
          end
      end.

(** [followRedirects] of the compiled [index.js]: [false] returns the
    response at once, and only an absent value takes the default. *)
Fixpoint followRedirects_js (urls : list string) (res : RequiemResponse)
    (options : nat) (depth : nat) (hops : list exchange)
  : M (promise RequiemResponse) :=
  let statusCode := of_number (statusCode (incoming res)) in
  let* o := load options in
  if strict_eq (get o "followRedirects") (VBool false) then ret (Fulfilled res)
  else
    let maxDepth :=
      match typeof (get o "followRedirects") with
      | TUndefined => VNum defaultFollowRedirects
      | _ => get o "followRedirects"
      end in
    if js_gt (VNum (Z.of_nat depth)) maxDepth then
      ret (Rejected (RequiemError TooManyRedirects (too_many_message urls maxDepth)
                                  None (Some res)))
    else
      let location := of_string (headers (incoming res) !! "location") in
      if final statusCode location then ret (Fulfilled res)
      else
        match new_URL (to_str location) (last urls) with
        | None =>
            ret (Rejected (RequiemError InvalidRedirectUrl
                                        ("Invalid redirect URL: " +:+ to_str location)
                                        None (Some res)))
        | Some newUrl =>
            match hops with
            | [] => hop options newUrl silence (fun _ => ret Pending)
            | x :: hops =>
                hop options newUrl x (fun reqRes =>
                  followRedirects_js (urls ++ [newUrl]) reqRes options (S depth) hops)
            end
        end.

(** ** The rest of the pipeline, over either resolver *)

Definition resolver : Type :=
  list string → RequiemResponse → nat → nat → list exchange →
  M (promise RequiemResponse).

(** [req.requestedUrl]; a reference returned by [createRequest] is in the
    store. *)
Definition requestedUrl_of (req : nat) : M string :=
  fun w => (match requests w !! req with
            | Some c => req_requestedUrl c
            | None => "undefined"
            end, w).

Definition invalid_status_message (result : RequiemResponse) : string :=
  "Received invalid status code from " +:+ quote +:+ requestedUrl result +:+ quote +:+
  ": " +:+ to_str (of_number (statusCode (incoming result))).

Record RequiemResponseWithBody := {
  response_of : RequiemResponse;
  body : string }.

Section Pipeline.
Variable follow : resolver.

Definition responseHandler (req : nat) (res : IncomingMessage) (options : nat)
    (hops : list exchange) : M (promise RequiemResponse) :=
  let* url := requestedUrl_of req in
  let reqRes := {| incoming := res; requestedUrl := url |} in
  let* settled := follow [url] reqRes options 0%nat hops in
  match settled with
  | Pending => ret Pending
  | Rejected e => ret (Rejected e)
  | Fulfilled result =>
      let* o := load options in
      let policy := get o "throwOnErrorResponse" in
      let status := of_number (statusCode (incoming result)) in
      if has o "throwOnErrorResponse" then
        match typeof policy with
        | TNumber =>
            if negb (strict_eq status policy) then
              ret (Rejected (RequiemError InvalidStatusCode
                     (invalid_status_message result +:+ " " +:+
                      "(expected " +:+ to_str policy +:+ ")")
                     (Some req) (Some result)))
            else ret (Fulfilled result)
        | _ =>
            if truthy policy && truthy status && js_ge status (VNum 400) then
              ret (Rejected (RequiemError InvalidStatusCode
                     (invalid_status_message result)
                     (Some req) (Some result)))
            else ret (Fulfilled result)
        end
      else ret (Fulfilled result)
  end.

(** The body of the promise of [sendRequest] up to [req.end()]: the
    result is the error that ends it early, by [reject(e); return] or by
    an exception of [write]. *)
Definition send_body (req : nat) (o : obj) : M (result unit) :=
  if isHostBodyJsonOptions o || isUrlBodyJsonOptions o then
    setHeader req "Content-Type" "application/json";;
    match JSON_stringify (get o "bodyJson") with
    | Returned text => write req text
    | Thrown e => ret (Thrown e)
    end
  else if isHostBodyOptions o || isUrlBodyOptions o then
    write req (get o "body")
  else ret (Returned tt).

Definition sendRequest (req : nat) (options : RequiemOptions)
    (x : exchange) (hops : list exchange) : M (promise RequiemResponse) :=
  let* optionsObj := getObjectionsObject options in
  let* o := load optionsObj in
  let* sent := send_body req o in
  let* p := match sent with
            | Returned _ => end_ req;; ret Pending
            | Thrown e => ret (Rejected e)
            end in
  run_exchange req optionsObj x
    (fun res => responseHandler req res optionsObj hops) p.

(** [request] is not an [async] function: what [createRequest] throws,
    [InvalidUrl] or the exception of the transport, is thrown, not a
    rejected promise. *)
Definition request (options : RequiemOptions) (x : exchange) (hops : list exchange)
  : M (result (promise RequiemResponse)) :=
  let* optionsObj := getObjectionsObject options in
  let* created := createRequest (OptionsObject optionsObj) in
  match created with
  | Thrown e => ret (Thrown e)
  | Returned req =>
      let* p := sendRequest req (OptionsObject optionsObj) x hops in
      ret (Returned p)
  end.

(** The listeners of [requestBody] on the stream of the response, and
    [res.on('error', reject)] of [sendRequest], whose [reject] belongs to
    the promise of [request]: the state of both promises after the
    events. *)
Fixpoint consume (res : RequiemResponse) (events : list stream_event)
    (buffers : list string) (upstream : promise RequiemResponse)
    (p : promise RequiemResponseWithBody)
  : promise RequiemResponseWithBody * promise RequiemResponse :=
  match events with
  | [] => (p, upstream)
  | Data chunk :: events => consume res events (buffers ++ [chunk]) upstream p
  | EndOfStream :: events =>
      consume res events buffers upstream
        (settle p (Fulfilled {| response_of := res;
                                body := String.concat EmptyString buffers |}))
  | StreamError e :: events =>
      consume res events buffers (settle upstream (Rejected (NativeError e))) p
  end.

(** [requestBody]: its promise, and what became of the promise of
    [request] that it awaited. *)
Definition requestBody (options : RequiemOptions) (x : exchange) (hops : list exchange)
  : M (promise RequiemResponseWithBody * result (promise RequiemResponse)) :=
  let* sent := request options x hops in
  match sent with
  | Thrown e => ret (Rejected e, Thrown e)
  | Returned Pending => ret (Pending, Returned Pending)
  | Returned (Rejected e) => ret (Rejected e, Returned (Rejected e))
  | Returned (Fulfilled res) =>
      let (p, upstream) :=
        consume res (stream (incoming res)) [] (Fulfilled res) Pending in
      ret (p, Returned upstream)
  end.

End Pipeline.

End Requiem.

(** ** Parsing the body: [requestJson]

    [JSON.parse] is the platform's; it returns a value or throws. *)

Class Parser := {
  JSON_parse : string → result value }.

(** [e.message] *)
Definition message_of (e : error) : string :=
  match e with
  | RequiemError _ message _ _ => message
  | NativeError message => message
  end.

(** [Object.assign(res, { body: json })] *)
Record RequiemResponseWithJson := {
  json_response_of : RequiemResponse;
  json_body : value }.

Section Json.
Context {platform : Runtime} {parser : Parser}.
Variable follow : resolver.

(** [requestJson]; the buffer is read as text, which a chunk is already. *)
Definition requestJson (options : RequiemOptions) (x : exchange) (hops : list exchange)
  : M (promise RequiemResponseWithJson) :=
  let* (settled, _) := requestBody follow options x hops in
  match settled with
  | Pending => ret Pending
  | Rejected e => ret (Rejected e)
  | Fulfilled res =>
      let bodyStr := body res in
      match JSON_parse bodyStr with
      | Returned json =>
          ret (Fulfilled {| json_response_of := response_of res; json_body := json |})
      | Thrown e =>
          ret (Rejected (RequiemError InvalidJsonBody
                 ("Failed to parse body as JSON: " +:+ message_of e)
                 None (Some (response_of res))))
      end
  end.

End Json.

(** ** [reverseProxy] of the compiled edition

    [createResponse] of [index.js] attaches [reverseProxy] to a response:
    it sets every header of the response on an outgoing response, copies
    the status code and pipes the body.  The outgoing response is a
    [ServerResponse] of the platform, kept as what was done to it;
    [pipe] is the platform's: each chunk is written, the end of the
    source ends the destination, an error of the source leaves it open.
    A header of the model always has a value, so the test
    [typeof value !== 'undefined'] always passes. *)

Record ServerResponse := {
  out_headers : gmap string string;
  out_statusCode : Z;
  out_written : list string;
  out_ended : bool }.

Definition out_setHeader (name v : string) (out : ServerResponse) : ServerResponse :=
  {| out_headers := <[ name := v ]> (out_headers out);
     out_statusCode := out_statusCode out;
     out_written := out_written out; out_ended := out_ended out |}.

Definition out_setStatus (c : Z) (out : ServerResponse) : ServerResponse :=
  {| out_headers := out_headers out; out_statusCode := c;
     out_written := out_written out; out_ended := out_ended out |}.

Fixpoint pipe (events : list stream_event) (out : ServerResponse) : ServerResponse :=
  match events with
  | [] => out
  | Data chunk :: events =>
      pipe events {| out_headers := out_headers out;
                     out_statusCode := out_statusCode out;
                     out_written := out_written out ++ [chunk];
                     out_ended := out_ended out |}
  | EndOfStream :: _ =>
      {| out_headers := out_headers out; out_statusCode := out_statusCode out;
         out_written := out_written out; out_ended := true |}
  | StreamError _ :: _ => out
  end.

Definition reverseProxy (incoming : IncomingMessage) (outgoing : ServerResponse)
  : ServerResponse :=
  let outgoing :=
    map_fold (fun name v out => out_setHeader name v out) outgoing (headers incoming) in
  let outgoing :=
    match statusCode incoming with
    | Some c => out_setStatus c outgoing
    | None => outgoing
    end in
  pipe (stream incoming) outgoing.

(** ** A runtime for the examples

    URLs in normal form with scheme [http], [https] or [ftp], and
    absolute paths resolved against the origin of the base;
    [JSON.stringify] on numbers, booleans, [null], strings without
    characters to escape, and objects of these. *)

Fixpoint until_slash (s : string) : string :=
  match s with
  | EmptyString => EmptyString
  | String c rest =>
      if Ascii.eqb c "/"%char then EmptyString else String c (until_slash rest)
  end.

Definition drop_string (n : nat) (s : string) : string :=
  String.substring n (String.length s - n) s.

Definition origin (url : string) : option string :=
  if String.prefix "http://" url
  then Some ("http://" +:+ until_slash (drop_string 7 url))
  else if String.prefix "https://" url
  then Some ("https://" +:+ until_slash (drop_string 8 url))
  else None.

Fixpoint until_colon (s : string) : string :=
  match s with
  | EmptyString => EmptyString
  | String c rest =>
      if Ascii.eqb c ":"%char then EmptyString else String c (until_colon rest)
  end.

(** [http://host:port/path] as scheme, host, port (with its colon) and
    path. *)
Definition split_URL (url : string) : string * string * string * string :=
  let scheme := if String.prefix "https://" url then "https://" else "http://" in
  let rest := drop_string (String.length scheme) url in
  let authority := until_slash rest in
  let host := until_colon authority in
  (scheme, host, drop_string (String.length host) authority,
   drop_string (String.length authority) rest).

Definition sample_set_port (url : string) (port : value) : string :=
  let '(scheme, host, _, path) := split_URL url in
  scheme +:+ host +:+ ":" +:+ to_str port +:+ path.

Definition sample_set_pathname (url : string) (pathname : value) : string :=
  let '(scheme, host, port, _) := split_URL url in
  let p := to_str pathname in
  scheme +:+ host +:+ port +:+ (if String.prefix "/" p then p else "/" +:+ p).

Definition sample_URL (input : string) (base : option string) : option string :=
  if String.prefix "http://" input || String.prefix "https://" input
     || String.prefix "ftp://" input then Some input
  else if String.prefix "/" input then
    match base with
    | Some b => match origin b with
                | Some o => Some (o +:+ input)
                | None => None
                end
    | None => None
    end
  else None.

Fixpoint sample_stringify (v : value) : option string :=
  match v with
  | VUndefined => None
  | VNull => Some "null"
  | VBool true => Some "true"
  | VBool false => Some "false"
  | VNum n => Some (Z_to_string n)
  | VStr s => Some (quote +:+ s +:+ quote)
  | VObj fields =>
      let members :=
        (fix go (fs : list (string * value)) : list string :=
           match fs with
           | [] => []
           | (k, v) :: fs =>
               match sample_stringify v with
               | Some text => (quote +:+ k +:+ quote +:+ ":" +:+ text) :: go fs
               | None => go fs
               end
           end) fields in
      Some ("{" +:+ String.concat "," members +:+ "}")
  end.

Fixpoint has_space (s : string) : bool :=
  match s with
  | EmptyString => false
  | String c rest => Ascii.eqb c " "%char || has_space rest
  end.

(** What [http.request] and [https.request] throw in the examples: the
    protocol of the URL is not the module's, or the [path] option has a
    space. *)
Definition sample_request_throws (l : lib) (url : string) (options : obj)
  : option error :=
  if negb (String.prefix (match l with http => "http:" | https => "https:" end) url)
  then Some (NativeError "ERR_INVALID_PROTOCOL")
  else
    match options !! "path" with
    | Some (VStr path) =>
        if has_space path then Some (NativeError "ERR_UNESCAPED_CHARACTERS")
        else None
    | _ => None
    end.

Definition sample_runtime : Runtime :=
  {| new_URL := sample_URL;
     URL_set_port := sample_set_port;
     URL_set_pathname := sample_set_pathname;
     JSON_stringify := fun v =>
       match sample_stringify v with
       | Some text => Returned (VStr text)
       | None => Returned VUndefined
       end;
     request_throws := sample_request_throws |}.

(** A parser for the examples: the literals and the natural numbers. *)
Definition sample_parse (text : string) : result value :=
  if (text =? "null")%string then Returned VNull
  else if (text =? "true")%string then Returned (VBool true)
  else if (text =? "false")%string then Returned (VBool false)
  else match NilEmpty.uint_of_string text with
       | Some n => Returned (VNum (Z.of_uint n))
       | None => Thrown (NativeError "Unexpected token in JSON at position 0")
       end.

Definition sample_parser : Parser := {| JSON_parse := sample_parse |}.

(** ** Sample data *)

(** A world whose heap holds one options object, at reference 0. *)
Definition world_of (o : obj) : world := {| heap := [o]; requests := [] |}.

(** A [302] to [location], and a [200] with a body in two chunks. *)
Definition found (location : string) : IncomingMessage :=
  {| statusCode := Some 302%Z;
     headers := {[ "location" := location ]};
     stream := [] |}.

Definition ok : IncomingMessage :=
  {| statusCode := Some 200%Z;
     headers := ∅;
     stream := [Data "he"; Data "llo"; EndOfStream] |}.

(** The response arrives and nothing else happens. *)
Definition answer (res : IncomingMessage) : exchange :=
  {| early := []; response := Some res; late := [] |}.

Definition at_url (res : IncomingMessage) (url : string) : RequiemResponse :=
  {| incoming := res; requestedUrl := url |}.

(** The chunks among the events of a stream, in order. *)
Fixpoint chunks (events : list stream_event) : list string :=
  match events with
  | [] => []
  | Data chunk :: events => chunk :: chunks events
  | _ :: events => chunks events
  end.

(** ** Vocabulary of the statements *)

(** The maximum that the option [followRedirects] configures: a number,
    or 5 when the option is absent. *)
Inductive limit_of (o : obj) : Z → Prop :=
| limit_default :
    o !! "followRedirects" = None → limit_of o defaultFollowRedirects
| limit_number n :
    o !! "followRedirects" = Some (VNum n) → limit_of o n.

(** A response that is not a redirect: no status code, a status code
    outside [300, 400), or no [Location] header. *)
Definition non_redirect (res : RequiemResponse) : Prop :=
  statusCode (incoming res) = None
  ∨ (∃ c, statusCode (incoming res) = Some c ∧ (c < 300 ∨ 400 ≤ c)%Z)
  ∨ headers (incoming res) !! "location" = None.

(** A redirect: a status code in [300, 400) and a [Location] header. *)
Definition redirect_to (res : RequiemResponse) (location : string) : Prop :=
  (∃ c, statusCode (incoming res) = Some c ∧ (300 ≤ c < 400)%Z)
  ∧ headers (incoming res) !! "location" = Some location
  ∧ location ≠ EmptyString.

(** The rejections that the [abort] listener made. *)
Definition by_abort (c : rejection) : bool :=
  match fst c with OnAbort => true | OnError => false end.

Definition abort_rejections (calls : list rejection) : list rejection :=
  filter (λ c, by_abort c = true) calls.

(** How many rejections the [abort] listener may still make. *)
Definition budget (s : listeners) : nat := if rejected s then 0%nat else 1%nat.

Definition is_timeout (sig : signal) : bool :=
  match sig with EmitTimeout => true | _ => false end.

Definition is_error (sig : signal) : bool :=
  match sig with EmitError _ => true | _ => false end.

(** Two states of a request that differ at most in [aborted]. *)
Definition same_but_aborted (c c' : ClientRequest) : Prop :=
  transport c' = transport c ∧ target c' = target c ∧
  httpOptions c' = httpOptions c ∧ req_requestedUrl c' = req_requestedUrl c ∧
  sent_headers c' = sent_headers c ∧ written c' = written c ∧
  ended c' = ended c.

(** What a computation started in [w0] leaves alone: the first [nh]
    objects of the heap and the first [nr] requests, except that the
    request [open] may have been aborted. *)
Record safe (nh nr open : nat) (w0 w : world) : Prop := {
  safe_open_old : (open < nr)%nat;
  safe_heap_size : (nh ≤ length (heap w))%nat;
  safe_requests_size : (nr ≤ length (requests w))%nat;
  safe_heap : ∀ l, (l < nh)%nat → heap w !! l = heap w0 !! l;
  safe_requests :
    ∀ r, (r < nr)%nat → r ≠ open → requests w !! r = requests w0 !! r;
  safe_open :
    ∀ c, requests w0 !! open = Some c →
         ∃ c', requests w !! open = Some c' ∧ same_but_aborted c c' }.

(** [c] preserves [safe] and returns a value that satisfies [Q]. *)
Definition keeps {A} (nh nr open : nat) (w0 : world) (c : M A) (Q : A → Prop) : Prop :=
  ∀ w, safe nh nr open w0 w →
       safe nh nr open w0 (snd (c w)) ∧ Q (fst (c w)).

(** What reaches the transport: the options without the four fields of
    the library. *)
Definition transport_options (o : obj) : obj :=
  delete "bodyJson" (delete "body"
    (delete "throwOnErrorResponse" (delete "followRedirects" o))).

(** The heap is as it was and no request was made or dropped. *)
Definition requests_only (w w' : world) : Prop :=
  heap w' = heap w ∧ length (requests w') = length (requests w).

(** The request [c] once [sendRequest] has set the JSON header, and once
    it has written [text] and ended the request. *)
Definition with_json_header (c : ClientRequest) : ClientRequest :=
  {| transport := transport c; target := target c;
     httpOptions := httpOptions c; req_requestedUrl := req_requestedUrl c;
     sent_headers := sent_headers c ++ [("Content-Type", "application/json")];
     written := written c; ended := ended c; aborted := aborted c |}.

Definition with_body_sent (text : string) (c : ClientRequest) : ClientRequest :=
  {| transport := transport c; target := target c;
     httpOptions := httpOptions c; req_requestedUrl := req_requestedUrl c;
     sent_headers := sent_headers c;
     written := written c ++ [text]; ended := true; aborted := aborted c |}.

(** The options of a hop: the options given, without the host form, with
    the new URL and the method GET. *)
Definition hop_options (o : obj) (newUrl : string) : obj :=
  <[ "method" := VStr "GET" ]> (<[ "url" := VStr newUrl ]>
    (delete "protocol" (delete "port" (delete "path" (delete "host" o))))).

(** The request of a hop as [createRequest] makes it and [req.end()]
    leaves it: nothing written, no header set. *)
Definition hop_request (o : obj) (newUrl href : string) : ClientRequest :=
  {| transport := if String.prefix "https:" href then https else http;
     target := href;
     httpOptions := transport_options (hop_options o newUrl);
     req_requestedUrl := href;
     sent_headers := []; written := []; ended := true; aborted := false |}.

(** What the transport throws when asked for the request of a hop. *)
Definition hop_throws {platform : Runtime} (o : obj) (newUrl href : string)
  : option error :=
  request_throws (if String.prefix "https:" href then https else http) href
                 (transport_options (hop_options o newUrl)).

(** The heap is as it was and the request [req], if there is one, is
    aborted or not as it was. *)
Definition same_aborted (req : nat) (w w' : world) : Prop :=
  heap w' = heap w
  ∧ ∀ c, requests w !! req = Some c →
         ∃ c', requests w' !! req = Some c' ∧ aborted c' = aborted c.

(** Started where the object [l] is [o], the computation leaves it so
    and issues at most [k] requests. *)
Definition issues {A} (l : nat) (o : obj) (k : nat) (c : M A) : Prop :=
  ∀ w, heap w !! l = Some o →
       heap (snd (c w)) !! l = Some o
       ∧ (length (requests (snd (c w))) ≤ length (requests w) + k)%nat.

(** The maximum that the source edition reads from a [followRedirects]
    option of [limit]: 0 is falsy and gives the default. *)
Definition maxDepth_of (limit : Z) : Z :=
  if (limit =? 0)%Z then defaultFollowRedirects else limit.

(** The hops left at [depth] under a maximum of [limit]. *)
Definition allowance (limit : Z) (depth : nat) : nat :=
  Z.to_nat (limit + 1 - Z.of_nat depth).

(** Started where the object [l] is [o], the promise of the computation
    is fulfilled only by a response that satisfies [P]. *)
Definition fulfils (l : nat) (o : obj) (P : RequiemResponse → Prop)
    (c : M (promise RequiemResponse)) : Prop :=
  ∀ w, heap w !! l = Some o → ∀ r, fst (c w) = Fulfilled r → P r.

(** A response at which the resolver stops. *)
Definition is_final (r : RequiemResponse) : Prop :=
  final (of_number (statusCode (incoming r)))
        (of_string (headers (incoming r) !! "location")) = true.

(** A response that passes the check of [throwOnErrorResponse]: a number
    is the status code expected; any other truthy value refuses the
    status codes from 400. *)
Definition meets_policy (o : obj) (r : RequiemResponse) : Prop :=
  match o !! "throwOnErrorResponse" with
  | Some (VNum n) => statusCode (incoming r) = Some n
  | Some v =>
      truthy v = true → ∀ c, statusCode (incoming r) = Some c → (c < 400)%Z
  | None => True
  end.

(** The error that a signal makes of a request [req] with options [o],
    when it is the first signal and the request is not aborted. *)
Definition error_of (sig : signal) (req : nat) (o : obj) : error :=
  match sig with
  | EmitError e => e
  | EmitTimeout => RequiemError Timeout (timeout_message o) (Some req) None
  | EmitAbort | CallAbort =>
      RequiemError RequestAbort "Request was aborted" (Some req) None
  end.

(** * Properties *)

Section Properties.
Context {platform : Runtime}.

(** ** Reading the store *)

Lemma load_at (l : nat) (o : obj) (w : world) :
  heap w !! l = Some o → load l w = (o, w).
Proof. intros H. unfold load. now rewrite H. Qed.

Lemma get_at (o : obj) (k : string) (v : value) :
  o !! k = Some v → get o k = v.
Proof. intros H. unfold get. now rewrite H. Qed.

Lemma get_absent (o : obj) (k : string) :
  o !! k = None → get o k = VUndefined.
Proof. intros H. unfold get. now rewrite H. Qed.

Lemma js_or_undefined (b : value) : js_or VUndefined b = b.
Proof. reflexivity. Qed.

Lemma js_or_number (n : Z) (b : value) : n ≠ 0%Z → js_or (VNum n) b = VNum n.
Proof.
  intros Hn. unfold js_or; simpl.
  destruct (Z.eqb_spec n 0); [contradiction | reflexivity].
Qed.

Lemma js_or_zero (b : value) : js_or (VNum 0) b = b.
Proof. reflexivity. Qed.

(** ** The resolver, unfolded once *)

Lemma followRedirects_unfold urls res options depth hops :
  followRedirects urls res options depth hops =
  (let statusCode := of_number (statusCode (incoming res)) in
   let* o := load options in
   let maxDepth := js_or (get o "followRedirects") (VNum defaultFollowRedirects) in
   if js_gt (VNum (Z.of_nat depth)) maxDepth then
     ret (Rejected (RequiemError TooManyRedirects (too_many_message urls maxDepth)
                                 None (Some res)))
   else
     let location := of_string (headers (incoming res) !! "location") in
     if final statusCode location then ret (Fulfilled res)
     else
       match new_URL (to_str location) (last urls) with
       | None =>
           ret (Rejected (RequiemError InvalidRedirectUrl
                                       ("Invalid redirect URL: " +:+ to_str location)
                                       None (Some res)))
       | Some newUrl =>
           hop options newUrl (hd silence hops) (fun reqRes =>
             match hops with
             | [] => ret Pending
             | _ :: hops =>
                 followRedirects (urls ++ [newUrl]) reqRes options (S depth) hops
             end)
       end).
Proof. destruct hops; reflexivity. Qed.

Lemma followRedirects_js_unfold urls res options depth hops :
  followRedirects_js urls res options depth hops =
  (let statusCode := of_number (statusCode (incoming res)) in
   let* o := load options in
   if strict_eq (get o "followRedirects") (VBool false) then ret (Fulfilled res)
   else
     let maxDepth :=
       match typeof (get o "followRedirects") with
       | TUndefined => VNum defaultFollowRedirects
       | _ => get o "followRedirects"
       end in
     if js_gt (VNum (Z.of_nat depth)) maxDepth then
       ret (Rejected (RequiemError TooManyRedirects (too_many_message urls maxDepth)
                                   None (Some res)))
     else
       let location := of_string (headers (incoming res) !! "location") in
       if final statusCode location then ret (Fulfilled res)
       else
         match new_URL (to_str location) (last urls) with
         | None =>
             ret (Rejected (RequiemError InvalidRedirectUrl
                                         ("Invalid redirect URL: " +:+ to_str location)
                                         None (Some res)))
         | Some newUrl =>
             hop options newUrl (hd silence hops) (fun reqRes =>
               match hops with
               | [] => ret Pending
               | _ :: hops =>
                   followRedirects_js (urls ++ [newUrl]) reqRes options (S depth) hops
               end)
         end).
Proof. destruct hops; reflexivity. Qed.

(** ** The depth check *)


(** ** Within the limit *)

Lemma within_limit o limit depth :
  limit_of o limit →
  (Z.of_nat depth ≤ limit)%Z →
  js_gt (VNum (Z.of_nat depth))
        (js_or (get o "followRedirects") (VNum defaultFollowRedirects)) = false.
Proof.
  intros [Habsent | n Hn] Hdepth.
  - rewrite (get_absent _ _ Habsent), js_or_undefined.
    unfold js_gt; simpl. now apply Z.ltb_ge.
  - rewrite (get_at _ _ _ Hn).
    destruct (Z.eq_dec n 0%Z) as [-> | Hnz].
    + rewrite js_or_zero. unfold js_gt, defaultFollowRedirects; simpl.
      apply Z.ltb_ge. lia.
    + rewrite (js_or_number _ _ Hnz). unfold js_gt; simpl. now apply Z.ltb_ge.
Qed.

Lemma within_limit_js o limit depth :
  limit_of o limit →
  (Z.of_nat depth ≤ limit)%Z →
  strict_eq (get o "followRedirects") (VBool false) = false
  ∧ js_gt (VNum (Z.of_nat depth))
          match typeof (get o "followRedirects") with
          | TUndefined => VNum defaultFollowRedirects
          | _ => get o "followRedirects"
          end = false.
Proof.
  intros [Habsent | n Hn] Hdepth.
  - rewrite (get_absent _ _ Habsent). cbn [strict_eq typeof]. split; [reflexivity |].
    unfold js_gt; simpl. now apply Z.ltb_ge.
  - rewrite (get_at _ _ _ Hn). cbn [strict_eq typeof]. split; [reflexivity |].
    unfold js_gt; simpl. now apply Z.ltb_ge.
Qed.

(** ** Responses that are not redirects *)

Lemma non_redirect_final res :
  non_redirect res →
  final (of_number (statusCode (incoming res)))
        (of_string (headers (incoming res) !! "location")) = true.
Proof.
  unfold final. intros [Hnone | [(c & Hc & Hrange) | Hloc]].
  - now rewrite Hnone.
  - rewrite Hc. unfold js_lt, js_ge; simpl.
    destruct Hrange as [Hlow | Hhigh].
    + apply Z.ltb_lt in Hlow. rewrite Hlow. now rewrite orb_true_r.
    + apply Z.leb_le in Hhigh. rewrite Hhigh. now rewrite !orb_true_r.
  - rewrite Hloc. simpl. now rewrite orb_true_r.
Qed.

Lemma redirect_not_final res location :
  redirect_to res location →
  final (of_number (statusCode (incoming res)))
        (of_string (headers (incoming res) !! "location")) = false.
Proof.
  intros [(c & Hc & Hlow & Hhigh) [Hloc Hne]]. unfold final.
  rewrite Hc, Hloc. unfold js_lt, js_ge; simpl.
  destruct (Z.eqb_spec c 0); [lia |].
  destruct (Z.ltb_spec c 300); [lia |].
  destruct (Z.leb_spec 400 c); [lia |].
  destruct (String.eqb_spec location EmptyString); [contradiction | reflexivity].
Qed.

(** C2, as amended.  A response that is not a redirect is returned as it
    is, and nothing is issued, at every depth that does not exceed the
    configured maximum.  (Beyond the maximum the depth check comes
    first.) *)
Theorem non_redirect_is_returned urls res options depth hops w o limit :
  heap w !! options = Some o →
  limit_of o limit →
  non_redirect res →
  (Z.of_nat depth ≤ limit)%Z →
  followRedirects urls res options depth hops w = (Fulfilled res, w)
  ∧ followRedirects_js urls res options depth hops w = (Fulfilled res, w).
Proof.
  intros Ho Hlimit Hres Hdepth.
  pose proof (non_redirect_final _ Hres) as Hfinal.
  split.
  - rewrite followRedirects_unfold. cbv zeta. unfold bind at 1.
    now rewrite (load_at _ _ _ Ho), (within_limit _ _ _ Hlimit Hdepth), Hfinal.
  - rewrite followRedirects_js_unfold. cbv zeta. unfold bind at 1.
    destruct (within_limit_js _ _ _ Hlimit Hdepth) as [Hfalse Hgt].
    now rewrite (load_at _ _ _ Ho), Hfalse, Hgt, Hfinal.
Qed.

(** ** Redirects switched off *)

(** C4, as amended.  In the compiled edition [followRedirects: false]
    switches the resolver off: every response, a redirect too, is
    returned as it is at every depth; the world is as before, so no
    request was issued, and the promise is fulfilled, not rejected.
    With no status policy [responseHandler] hands the same redirect
    response to the caller.  The source edition has no such case: it
    computes the maximum as [followRedirects || 5], [false] is falsy,
    and the resolver does what it does under the default maximum of 5:
    beyond it [TooManyRedirects], within it a redirect is followed. *)
Theorem follow_false_returns_response urls res options depth hops w o :
  heap w !! options = Some o →
  o !! "followRedirects" = Some (VBool false) →
  followRedirects_js urls res options depth hops w = (Fulfilled res, w)
  ∧ (∀ req incoming,
       o !! "throwOnErrorResponse" = None →
       ∃ url,
         responseHandler followRedirects_js req incoming options hops w =
           (Fulfilled {| incoming := incoming; requestedUrl := url |}, w))
  ∧ followRedirects urls res options depth hops w =
      (if (defaultFollowRedirects <? Z.of_nat depth)%Z then
         ret (Rejected (RequiemError TooManyRedirects
                (too_many_message urls (VNum defaultFollowRedirects))
                None (Some res)))
       else if final (of_number (statusCode (incoming res)))
                     (of_string (headers (incoming res) !! "location"))
       then ret (Fulfilled res)
       else
         match new_URL (to_str (of_string (headers (incoming res) !! "location")))
                       (last urls) with
         | None =>
             ret (Rejected (RequiemError InvalidRedirectUrl
                    ("Invalid redirect URL: " +:+
                     to_str (of_string (headers (incoming res) !! "location")))
                    None (Some res)))
         | Some newUrl =>
             hop options newUrl (hd silence hops) (fun reqRes =>
               match hops with
               | [] => ret Pending
               | _ :: hops =>
                   followRedirects (urls ++ [newUrl]) reqRes options (S depth) hops
               end)
         end) w.
Proof.
  intros Ho Hfalse.
  assert (Hsource : followRedirects urls res options depth hops w =
      (if (defaultFollowRedirects <? Z.of_nat depth)%Z then
         ret (Rejected (RequiemError TooManyRedirects
                (too_many_message urls (VNum defaultFollowRedirects))
                None (Some res)))
       else if final (of_number (statusCode (incoming res)))
                     (of_string (headers (incoming res) !! "location"))
       then ret (Fulfilled res)
       else
         match new_URL (to_str (of_string (headers (incoming res) !! "location")))
                       (last urls) with
         | None =>
             ret (Rejected (RequiemError InvalidRedirectUrl
                    ("Invalid redirect URL: " +:+
                     to_str (of_string (headers (incoming res) !! "location")))
                    None (Some res)))
         | Some newUrl =>
             hop options newUrl (hd silence hops) (fun reqRes =>
               match hops with
               | [] => ret Pending
               | _ :: hops =>
                   followRedirects (urls ++ [newUrl]) reqRes options (S depth) hops
               end)
         end) w).
  { rewrite followRedirects_unfold. cbv zeta. unfold bind at 1.
    rewrite (load_at _ _ _ Ho), (get_at _ _ _ Hfalse).
    replace (js_or (VBool false) (VNum defaultFollowRedirects))
      with (VNum defaultFollowRedirects) by reflexivity.
    unfold js_gt. cbn [to_number].
    destruct (_ <? _)%Z; [reflexivity |].
    destruct (final _ _); [reflexivity |].
    destruct (new_URL _ _); [| reflexivity].
    now destruct hops. }
  refine ((λ H, conj (proj1 H) (conj (proj2 H) Hsource)) _).
  assert (Hres : ∀ urls res depth,
            followRedirects_js urls res options depth hops w = (Fulfilled res, w)).
  { intros. rewrite followRedirects_js_unfold. cbv zeta. unfold bind at 1.
    rewrite (load_at _ _ _ Ho), (get_at _ _ _ Hfalse). reflexivity. }
  split; [apply Hres |].
  intros req inc Hpolicy.
  unfold responseHandler, bind at 1.
  destruct (requestedUrl_of req w) as [url w'] eqn:Hurl.
  assert (w' = w) as -> by (unfold requestedUrl_of in Hurl; congruence).
  exists url. unfold bind at 1. rewrite Hres. unfold bind at 1.
  rewrite (load_at _ _ _ Ho). unfold has. now rewrite Hpolicy.
Qed.

(** ** Status validation *)

Lemma requestedUrl_of_pure req w : snd (requestedUrl_of req w) = w.
Proof. reflexivity. Qed.

(** C7.  Once the resolver has settled on [result], [responseHandler]
    validates its status against [throwOnErrorResponse]: a number
    rejects with [InvalidStatusCode] unless the status is that number
    (the message ends with the observed code and [(expected n)]);
    [true] rejects exactly when the status is at least 400 (the message
    ends with the observed code); [false] or no policy validates
    nothing.  The error holds the request and the final response. *)
Theorem status_validation (follow : resolver) req res options hops w result w1 o :
  follow [fst (requestedUrl_of req w)]
         {| incoming := res; requestedUrl := fst (requestedUrl_of req w) |}
         options 0%nat hops w = (Fulfilled result, w1) →
  heap w1 !! options = Some o →
  (∀ n, o !! "throwOnErrorResponse" = Some (VNum n) →
     responseHandler follow req res options hops w =
       (if decide (statusCode (incoming result) = Some n) then Fulfilled result
        else Rejected (RequiemError InvalidStatusCode
                         (invalid_status_message result +:+ " " +:+
                          "(expected " +:+ Z_to_string n +:+ ")")
                         (Some req) (Some result)), w1))
  ∧ (o !! "throwOnErrorResponse" = Some (VBool true) →
     responseHandler follow req res options hops w =
       (match statusCode (incoming result) with
        | Some c =>
            if (400 <=? c)%Z
            then Rejected (RequiemError InvalidStatusCode
                             (invalid_status_message result)
                             (Some req) (Some result))
            else Fulfilled result
        | None => Fulfilled result
        end, w1))
  ∧ (o !! "throwOnErrorResponse" = Some (VBool false)
     ∨ o !! "throwOnErrorResponse" = None →
     responseHandler follow req res options hops w = (Fulfilled result, w1)).
Proof.
  intros Hfollow Ho.
  assert (Hrun : responseHandler follow req res options hops w =
    (let policy := get o "throwOnErrorResponse" in
     let status := of_number (statusCode (incoming result)) in
     if has o "throwOnErrorResponse" then
       match typeof policy with
       | TNumber =>
           if negb (strict_eq status policy) then
             ret (Rejected (RequiemError InvalidStatusCode
                    (invalid_status_message result +:+ " " +:+
                     "(expected " +:+ to_str policy +:+ ")")
                    (Some req) (Some result)))
           else ret (Fulfilled result)
       | _ =>
           if truthy policy && truthy status && js_ge status (VNum 400) then
             ret (Rejected (RequiemError InvalidStatusCode
                    (invalid_status_message result)
                    (Some req) (Some result)))
           else ret (Fulfilled result)
       end
     else ret (Fulfilled result)) w1).
  { unfold responseHandler, bind at 1.
    destruct (requestedUrl_of req w) as [url w'] eqn:Hurl.
    assert (w' = w) as -> by (unfold requestedUrl_of in Hurl; congruence).
    simpl in Hfollow. unfold bind at 1. rewrite Hfollow.
    unfold bind at 1. now rewrite (load_at _ _ _ Ho). }
  rewrite Hrun. clear Hrun. cbv zeta. unfold has.
  repeat split.
  - intros n Hn. rewrite Hn, (get_at _ _ _ Hn). cbn [typeof to_str].
    destruct (statusCode (incoming result)) as [c |]; cbn [of_number strict_eq].
    + destruct (Z.eqb_spec c n) as [-> | Hne]; cbn [negb].
      * now rewrite decide_True.
      * rewrite decide_False; [reflexivity | congruence].
    + now rewrite decide_False.
  - intros Htrue. rewrite Htrue, (get_at _ _ _ Htrue). cbn [typeof truthy andb].
    destruct (statusCode (incoming result)) as [c |]; cbn [of_number truthy]; [| reflexivity].
    unfold js_ge; cbn [to_number].
    destruct (Z.leb_spec 400 c) as [Hge | Hlt].
    + destruct (Z.eqb_spec c 0); [lia | reflexivity].
    + now rewrite andb_false_r.
  - intros [Hfalse | Hnone].
    + now rewrite Hfalse, (get_at _ _ _ Hfalse).
    + now rewrite Hnone.
Qed.

(** ** Event wiring *)

Lemma deliver_budget req options s sig w :
  (length (abort_rejections (snd (fst (deliver req options s sig w)))) +
   budget (fst (fst (deliver req options s sig w))) ≤ budget s)%nat
  ∧ timedOut (fst (fst (deliver req options s sig w))) = timedOut s || is_timeout sig.
Proof.
  destruct s as [t r].
  destruct sig; unfold deliver, on_error, on_timeout, on_abort, abort, is_aborted,
    update_request, load, bind, ret, budget; cbn;
    repeat (match goal with
            | |- context [match ?x with _ => _ end] => destruct x; cbn
            end);
    rewrite ?orb_true_r, ?orb_false_r; split; (reflexivity || lia).
Qed.

Lemma deliver_all_budget req options sigs s w :
  (length (abort_rejections (snd (fst (deliver_all req options s sigs w)))) +
   budget (fst (fst (deliver_all req options s sigs w))) ≤ budget s)%nat
  ∧ timedOut (fst (fst (deliver_all req options s sigs w))) =
    timedOut s || existsb is_timeout sigs.
Proof.
  revert s w. induction sigs as [| sig sigs IH]; intros s w.
  - cbn. rewrite orb_false_r. split; [lia | reflexivity].
  - cbn [deliver_all existsb]. unfold bind.
    pose proof (deliver_budget req options s sig w) as [Hb Ht].
    destruct (deliver req options s sig w) as [[s1 calls1] w1]. cbn [fst snd] in *.
    pose proof (IH s1 w1) as [Hb' Ht'].
    destruct (deliver_all req options s1 sigs w1) as [[s2 calls2] w2].
    cbn [fst snd ret] in *. unfold abort_rejections in *.
    rewrite filter_app, length_app. split; [lia |].
    rewrite Ht', Ht. now rewrite orb_assoc.
Qed.

Lemma update_request_at r f c w :
  requests w !! r = Some c →
  update_request r f w =
    (tt, {| heap := heap w; requests := <[ r := f c ]> (requests w) |}).
Proof. intros Hc. unfold update_request. now rewrite Hc. Qed.

Lemma deliver_all_first req options sig sigs s s1 c calls w w1 :
  deliver req options s sig w = (s1, c :: calls, w1) →
  ∃ s2 calls2 w2,
    deliver_all req options s (sig :: sigs) w = (s2, c :: calls2, w2).
Proof.
  intros Hsig. cbn [deliver_all]. unfold bind. rewrite Hsig.
  destruct (deliver_all req options s1 sigs w1) as [[s2 calls2] w2].
  now exists s2, (calls ++ calls2)%list, w2.
Qed.

Lemma deliver_timeout_live req l o c w :
  heap w !! l = Some o →
  requests w !! req = Some c →
  aborted c = false →
  ∃ w', deliver req l wireRequestEvents EmitTimeout w =
          ({| timedOut := true; rejected := true |},
           [(OnAbort, RequiemError Timeout (timeout_message o) (Some req) None)],
           w').
Proof.
  intros Ho Hc Hlive. cbn [deliver]. unfold on_timeout.
  unfold bind at 1, is_aborted at 1. rewrite Hc, Hlive. cbn [negb].
  unfold bind at 1, abort at 1. unfold bind at 1, is_aborted at 1.
  rewrite Hc, Hlive. unfold bind at 1.
  rewrite (update_request_at _ _ _ _ Hc). cbn [ret negb].
  unfold on_abort. cbn [rejected timedOut wireRequestEvents].
  unfold bind, load. cbn [heap]. rewrite Ho. cbn [ret default]. eauto.
Qed.

Lemma deliver_all_app req options s sigs1 sigs2 w :
  deliver_all req options s (sigs1 ++ sigs2) w =
    (let '(s1, calls1, w1) := deliver_all req options s sigs1 w in
     let '(s2, calls2, w2) := deliver_all req options s1 sigs2 w1 in
     (s2, (calls1 ++ calls2)%list, w2)).
Proof.
  revert s w. induction sigs1 as [| sig sigs1 IH]; intros s w.
  - cbn [app deliver_all ret].
    now destruct (deliver_all req options s sigs2 w) as [[s2 calls2] w2].
  - cbn [app deliver_all]. unfold bind.
    destruct (deliver req options s sig w) as [[s0 calls0] w0].
    rewrite IH.
    destruct (deliver_all req options s0 sigs1 w0) as [[s1 calls1] w1].
    unfold ret.
    destruct (deliver_all req options s1 sigs2 w1) as [[s2 calls2] w2].
    now rewrite app_assoc.
Qed.

(** [error] events leave the listeners and the request as they are, and
    make no rejection of the [abort] listener. *)
Lemma deliver_all_errors req options s errs w :
  Forall (λ sig, is_error sig = true) errs →
  ∃ calls, deliver_all req options s errs w = (s, calls, w)
           ∧ abort_rejections calls = [].
Proof.
  induction 1 as [| sig errs Hsig _ (calls & Hrun & Hnone)].
  - now exists [].
  - destruct sig as [e | | |]; try discriminate.
    exists ((OnError, e) :: calls). cbn [deliver_all deliver]. unfold bind, on_error.
    cbn [ret]. rewrite Hrun. split; [reflexivity |].
    unfold abort_rejections in *. now rewrite filter_cons_False by discriminate.
Qed.

(** Once the [abort] listener has rejected it rejects no more. *)
Lemma deliver_all_done req options s sigs w :
  rejected s = true →
  abort_rejections (snd (fst (deliver_all req options s sigs w))) = [].
Proof.
  intros Hdone.
  pose proof (deliver_all_budget req options sigs s w) as [Hb _].
  unfold budget in Hb at 2. rewrite Hdone in Hb.
  apply length_zero_iff_nil. lia.
Qed.

(** The rejection that a signal makes the [abort] listener make is the
    only one, whatever [error] events came before and whatever comes
    after. *)
Lemma only_rejection req options s errs sig after w s1 r w1 :
  Forall (λ sig, is_error sig = true) errs →
  deliver req options s sig w = (s1, [(OnAbort, r)], w1) →
  rejected s1 = true →
  abort_rejections
    (snd (fst (deliver_all req options s (errs ++ sig :: after) w)))
  = [(OnAbort, r)].
Proof.
  intros Herrs Hsig Hdone.
  destruct (deliver_all_errors req options s errs w Herrs) as (calls & Hrun & Hnone).
  rewrite deliver_all_app, Hrun. cbn [deliver_all]. unfold bind. rewrite Hsig.
  pose proof (deliver_all_done req options s1 after w1 Hdone) as Hafter.
  destruct (deliver_all req options s1 after w1) as [[s2 calls2] w2].
  cbn [ret fst snd] in *. unfold abort_rejections in *.
  rewrite !filter_app, Hnone, Hafter. reflexivity.
Qed.

Lemma reject_all_settled {A} (p : promise A) calls :
  p ≠ Pending → reject_all p calls = p.
Proof.
  revert p. induction calls as [| c calls IH]; intros p Hp; [reflexivity |].
  unfold reject_all in *. cbn [fold_left].
  rewrite IH; destruct p; cbn; congruence.
Qed.

Lemma reject_all_first {A} c calls :
  reject_all (@Pending A) (c :: calls) = Rejected (snd c).
Proof.
  unfold reject_all. cbn [fold_left settle].
  now apply (reject_all_settled (Rejected (snd c))).
Qed.

Lemma on_abort_first req options s w o :
  heap w !! options = Some o →
  rejected s = false →
  on_abort req options s w =
    ({| timedOut := timedOut s; rejected := true |},
     [(OnAbort,
       if timedOut s
       then RequiemError Timeout (timeout_message o) (Some req) None
       else RequiemError RequestAbort "Request was aborted" (Some req) None)],
     w).
Proof.
  intros Ho Hr. destruct s as [t r]. cbn in Hr. subst r.
  unfold on_abort. cbn [rejected timedOut].
  destruct t; [| reflexivity].
  unfold bind. now rewrite (load_at _ _ _ Ho).
Qed.

(** C6.  The [abort] listener rejects with [Timeout] when the [timeout]
    listener has set the flag, with [RequestAbort] otherwise, and marks
    itself done; once done it does nothing.  Hence over any run of
    signals it rejects at most once; the flag is set exactly when a
    [timeout] was delivered; and a promise that is settled, by this or
    any other listener, ignores every later rejection.  The [Timeout]
    message gives the [timeout] option in milliseconds, or
    [node default] when the option is absent.

    On a request as [wireRequestEvents] wires it, whatever [error]
    events came before and whatever comes after: an [abort] event makes
    the listener reject once, with [RequestAbort]; a [timeout] event on
    a request that is not aborted aborts it and makes the listener
    reject once, with [Timeout]; a [timeout] event on a request that was
    aborted and an [abort] event after it make it reject once, with
    [Timeout]; with no such event it does not reject.  The promise takes
    the rejection when it is the first; after an [error] event it keeps
    the error of the event. *)
Theorem abort_settles_once req options w o :
  heap w !! options = Some o →
  (∀ s, rejected s = false →
     on_abort req options s w =
       ({| timedOut := timedOut s; rejected := true |},
        [(OnAbort,
          if timedOut s
          then RequiemError Timeout (timeout_message o) (Some req) None
          else RequiemError RequestAbort "Request was aborted" (Some req) None)],
        w))
  ∧ (∀ s, rejected s = true → on_abort req options s w = (s, [], w))
  ∧ (∀ sigs,
       (length (abort_rejections
                  (snd (fst (deliver_all req options wireRequestEvents sigs w)))) ≤ 1)%nat
       ∧ timedOut (fst (fst (deliver_all req options wireRequestEvents sigs w))) =
         existsb is_timeout sigs)
  ∧ (∀ (p : promise RequiemResponse) calls, p ≠ Pending → reject_all p calls = p)
  ∧ (∀ calls c, reject_all (@Pending RequiemResponse) (c :: calls) = Rejected (snd c))
  ∧ (∀ t, o !! "timeout" = Some (VNum t) →
       timeout_message o =
       "Reached timeout limit (" +:+ (Z_to_string t +:+ "ms") +:+ "), request aborted")
  ∧ (o !! "timeout" = None →
       timeout_message o = "Reached timeout limit (node default), request aborted")
  ∧ (∀ errs after,
       Forall (λ sig, is_error sig = true) errs →
       abort_rejections
         (snd (fst (deliver_all req options wireRequestEvents
                      (errs ++ EmitAbort :: after) w)))
       = [(OnAbort, RequiemError RequestAbort "Request was aborted" (Some req) None)])
  ∧ (∀ c errs after,
       requests w !! req = Some c →
       aborted c = false →
       Forall (λ sig, is_error sig = true) errs →
       abort_rejections
         (snd (fst (deliver_all req options wireRequestEvents
                      (errs ++ EmitTimeout :: after) w)))
       = [(OnAbort, RequiemError Timeout (timeout_message o) (Some req) None)])
  ∧ (∀ c errs errs' after,
       requests w !! req = Some c →
       aborted c = true →
       Forall (λ sig, is_error sig = true) errs →
       Forall (λ sig, is_error sig = true) errs' →
       abort_rejections
         (snd (fst (deliver_all req options wireRequestEvents
                      (errs ++ EmitTimeout :: errs' ++ EmitAbort :: after) w)))
       = [(OnAbort, RequiemError Timeout (timeout_message o) (Some req) None)])
  ∧ (∀ errs,
       Forall (λ sig, is_error sig = true) errs →
       abort_rejections
         (snd (fst (deliver_all req options wireRequestEvents errs w))) = [])
  ∧ (∀ after,
       reject_all (@Pending RequiemResponse)
         (snd (fst (deliver_all req options wireRequestEvents (EmitAbort :: after) w)))
       = Rejected (RequiemError RequestAbort "Request was aborted" (Some req) None))
  ∧ (∀ c after,
       requests w !! req = Some c →
       aborted c = false →
       reject_all (@Pending RequiemResponse)
         (snd (fst (deliver_all req options wireRequestEvents (EmitTimeout :: after) w)))
       = Rejected (RequiemError Timeout (timeout_message o) (Some req) None))
  ∧ (∀ e after,
       reject_all (@Pending RequiemResponse)
         (snd (fst (deliver_all req options wireRequestEvents
                      (EmitError e :: after) w)))
       = Rejected e).
Proof.
  intros Ho.
  assert (Hfirst : ∀ sig sigs s1 c calls w1,
            deliver req options wireRequestEvents sig w = (s1, c :: calls, w1) →
            reject_all (@Pending RequiemResponse)
              (snd (fst (deliver_all req options wireRequestEvents (sig :: sigs) w)))
            = Rejected (snd c)).
  { intros sig sigs s1 c calls w1 Hsig.
    destruct (deliver_all_first req options sig sigs _ _ _ _ _ _ Hsig)
      as (s2 & calls2 & w2 & ->).
    apply reject_all_first. }
  split_and!.
  - intros s Hr. now apply on_abort_first.
  - intros s Hr. unfold on_abort. now rewrite Hr.
  - intros sigs. split.
    + pose proof (deliver_all_budget req options sigs wireRequestEvents w) as [Hb _].
      unfold budget in Hb at 2. cbn in Hb. lia.
    + pose proof (deliver_all_budget req options sigs wireRequestEvents w) as [_ Ht].
      exact Ht.
  - intros p calls. apply reject_all_settled.
  - intros calls c. apply reject_all_first.
  - intros t Ht. unfold timeout_message, has. now rewrite Ht, (get_at _ _ _ Ht).
  - intros Hnone. unfold timeout_message, has. now rewrite Hnone.
  - intros errs after Herrs.
    apply (only_rejection req options wireRequestEvents errs EmitAbort after w
             {| timedOut := false; rejected := true |} _ w Herrs); [| reflexivity].
    cbn [deliver]. now rewrite (on_abort_first req options _ w o Ho).
  - intros c errs after Hc Hlive Herrs.
    destruct (deliver_timeout_live req options o c w Ho Hc Hlive) as (w' & Hsig).
    now apply (only_rejection req options wireRequestEvents errs EmitTimeout after w
                 _ _ w' Herrs Hsig).
  - intros c errs errs' after Hc Hgone Herrs Herrs'.
    destruct (deliver_all_errors req options wireRequestEvents errs w Herrs)
      as (calls & Hrun & Hnone).
    rewrite deliver_all_app, Hrun. cbn [deliver_all deliver]. unfold bind at 1.
    unfold on_timeout. unfold bind at 1, is_aborted at 1. rewrite Hc, Hgone.
    cbn [negb ret]. unfold bind.
    pose proof (only_rejection req options {| timedOut := true; rejected := false |}
                  errs' EmitAbort after w {| timedOut := true; rejected := true |}
                  (RequiemError Timeout (timeout_message o) (Some req) None) w Herrs')
      as Hafter.
    destruct (deliver_all req options _ (errs' ++ EmitAbort :: after) w)
      as [[s2 calls2] w2].
    cbn [ret fst snd] in *. unfold abort_rejections in *.
    rewrite filter_app, Hnone. cbn [app]. apply Hafter; [| reflexivity].
    cbn [deliver]. now rewrite (on_abort_first req options _ w o Ho).
  - intros errs Herrs.
    destruct (deliver_all_errors req options wireRequestEvents errs w Herrs)
      as (calls & -> & Hnone).
    exact Hnone.
  - intros after.
    apply (Hfirst EmitAbort after {| timedOut := false; rejected := true |}
             (OnAbort, RequiemError RequestAbort "Request was aborted" (Some req) None)
             [] w).
    cbn [deliver]. now rewrite (on_abort_first req options _ w o Ho).
  - intros c after Hc Hlive.
    destruct (deliver_timeout_live req options o c w Ho Hc Hlive) as (w' & Hsig).
    exact (Hfirst EmitTimeout after _ _ _ _ Hsig).
  - intros e after.
    now apply (Hfirst (EmitError e) after wireRequestEvents (OnError, e) [] w).
Qed.

(** ** What the pipeline leaves alone *)

Section Frame.
Variables (nh nr open : nat) (w0 : world).

Local Abbreviation keeps := (keeps nh nr open w0).
Local Abbreviation safe := (safe nh nr open w0).

Lemma keeps_ret {A} (a : A) (Q : A → Prop) : Q a → keeps (ret a) Q.
Proof. intros HQ w Hw. now split. Qed.

Lemma keeps_bind {A B} (c : M A) (k : A → M B) (Q : A → Prop) (R : B → Prop) :
  keeps c Q → (∀ a, Q a → keeps (k a) R) → keeps (bind c k) R.
Proof.
  intros Hc Hk w Hw. unfold bind.
  destruct (Hc w Hw) as [Hw1 Ha]. destruct (c w) as [a w1]. cbn [fst snd] in *.
  now apply Hk.
Qed.

Lemma keeps_weaken {A} (c : M A) (Q R : A → Prop) :
  keeps c Q → (∀ a, Q a → R a) → keeps c R.
Proof. intros Hc HQR w Hw. destruct (Hc w Hw). split; auto. Qed.

Lemma keeps_pure {A} (c : M A) :
  (∀ w, snd (c w) = w) → keeps c (λ _, True).
Proof. intros Hc w Hw. rewrite Hc. now split. Qed.

Lemma keeps_load l : keeps (load l) (λ _, True).
Proof. now apply keeps_pure. Qed.

Lemma keeps_is_aborted r : keeps (is_aborted r) (λ _, True).
Proof. now apply keeps_pure. Qed.

Lemma keeps_requestedUrl_of r : keeps (requestedUrl_of r) (λ _, True).
Proof. now apply keeps_pure. Qed.

Lemma keeps_alloc o : keeps (alloc o) (λ l, (nh ≤ l)%nat).
Proof.
  intros w [Hold Hh Hr Hheap Hreqs Hopen]. split; [| exact Hh].
  split; cbn; try assumption.
  - rewrite length_app. lia.
  - intros l Hl. rewrite lookup_app_l by lia. now apply Hheap.
Qed.

Lemma keeps_store l o : (nh ≤ l)%nat → keeps (store l o) (λ _, True).
Proof.
  intros Hl w [Hold Hh Hr Hheap Hreqs Hopen]. split; [| exact I].
  split; cbn; try assumption.
  - now rewrite length_insert.
  - intros l' Hl'. rewrite list_lookup_insert_ne by lia. now apply Hheap.
Qed.

Lemma keeps_set_prop l k v : (nh ≤ l)%nat → keeps (set_prop l k v) (λ _, True).
Proof.
  intros Hl. unfold set_prop.
  eapply keeps_bind; [apply keeps_load |]. intros o _. now apply keeps_store.
Qed.

Lemma keeps_delete_prop l k : (nh ≤ l)%nat → keeps (delete_prop l k) (λ _, True).
Proof.
  intros Hl. unfold delete_prop.
  eapply keeps_bind; [apply keeps_load |]. intros o _. now apply keeps_store.
Qed.

Lemma keeps_lib_request l url o :
  keeps (lib_request l url o)
        (λ r, match r with Returned req => (nr ≤ req)%nat | Thrown _ => True end).
Proof.
  unfold lib_request. destruct (request_throws l url o) as [e |];
    [now apply keeps_ret |].
  intros w [Hold Hh Hr Hheap Hreqs Hopen]. split; [| exact Hr].
  split; cbn; try assumption.
  - rewrite length_app. lia.
  - intros r Hlt Hne. rewrite lookup_app_l by lia. now apply Hreqs.
  - intros c Hc. destruct (Hopen c Hc) as (c' & Hc' & Hsame).
    exists c'. split; [| exact Hsame].
    rewrite lookup_app_l; [exact Hc' |]. now apply lookup_lt_Some in Hc'.
Qed.

(** A request made since [w0] may be changed at will. *)
Lemma keeps_update_fresh r f : (nr ≤ r)%nat → keeps (update_request r f) (λ _, True).
Proof.
  intros Hfresh w [Hold Hh Hr Hheap Hreqs Hopen]. split; [| exact I].
  unfold update_request. cbn [snd].
  destruct (requests w !! r) as [c |] eqn:Hc; [| split; cbn; assumption].
  split; cbn; try assumption.
  - now rewrite length_insert.
  - intros r' Hlt Hne. rewrite list_lookup_insert_ne by lia. now apply Hreqs.
  - intros c0 Hc0. destruct (Hopen c0 Hc0) as (c' & Hc' & Hsame).
    exists c'. split; [| exact Hsame].
    rewrite list_lookup_insert_ne by lia. exact Hc'.
Qed.

(** The open request may be aborted. *)
Lemma keeps_update_open f :
  (∀ c, same_but_aborted c (f c)) → keeps (update_request open f) (λ _, True).
Proof.
  intros Hf w [Hold Hh Hr Hheap Hreqs Hopen]. split; [| exact I].
  unfold update_request. cbn [snd].
  destruct (requests w !! open) as [c |] eqn:Hc.
  2: { split; cbn; try assumption.
       intros c0 Hc0. destruct (Hopen c0 Hc0) as (? & ? & _). congruence. }
  split; cbn; try assumption.
  - now rewrite length_insert.
  - intros r' Hlt Hne. rewrite list_lookup_insert_ne by congruence. now apply Hreqs.
  - intros c0 Hc0. destruct (Hopen c0 Hc0) as (c' & Hc' & Hsame).
    exists (f c). split.
    + apply list_lookup_insert_eq. now apply lookup_lt_Some in Hc.
    + assert (c' = c) as -> by congruence.
      destruct Hsame as (? & ? & ? & ? & ? & ? & ?).
      destruct (Hf c) as (? & ? & ? & ? & ? & ? & ?).
      repeat split; congruence.
Qed.

Lemma keeps_setHeader r name v : (nr ≤ r)%nat → keeps (setHeader r name v) (λ _, True).
Proof. intros. now apply keeps_update_fresh. Qed.

Lemma keeps_write r chunk : (nr ≤ r)%nat → keeps (write r chunk) (λ _, True).
Proof.
  intros Hr. unfold write. destruct chunk; try now apply keeps_ret.
  eapply keeps_bind; [now apply keeps_update_fresh |].
  intros _ _. now apply keeps_ret.
Qed.

Lemma keeps_end r : (nr ≤ r)%nat → keeps (end_ r) (λ _, True).
Proof. intros. now apply keeps_update_fresh. Qed.

Lemma keeps_abort r : r = open ∨ (nr ≤ r)%nat → keeps (abort r) (λ _, True).
Proof.
  intros Hr. unfold abort.
  eapply keeps_bind; [apply keeps_is_aborted |]. intros a _.
  eapply keeps_bind; [| intros _ _; now apply keeps_ret].
  destruct Hr as [-> | Hfresh].
  - apply keeps_update_open. intros c. now repeat split.
  - now apply keeps_update_fresh.
Qed.

Lemma keeps_on_abort req options s : keeps (on_abort req options s) (λ _, True).
Proof.
  unfold on_abort. destruct (rejected s); [now apply keeps_ret |].
  cbn [timedOut]. destruct (timedOut s); [| now apply keeps_ret].
  eapply keeps_bind; [apply keeps_load |]. intros o _. now apply keeps_ret.
Qed.

Lemma keeps_deliver req options s sig :
  req = open ∨ (nr ≤ req)%nat → keeps (deliver req options s sig) (λ _, True).
Proof.
  intros Hreq. destruct sig; cbn [deliver].
  - now apply keeps_ret.
  - unfold on_timeout.
    eapply keeps_bind; [apply keeps_is_aborted |]. intros a _.
    destruct a; cbn [negb]; [now apply keeps_ret |].
    eapply keeps_bind; [now apply keeps_abort |]. intros emitted _.
    destruct emitted; [apply keeps_on_abort | now apply keeps_ret].
  - apply keeps_on_abort.
  - eapply keeps_bind; [now apply keeps_abort |]. intros emitted _.
    destruct emitted; [apply keeps_on_abort | now apply keeps_ret].
Qed.

Lemma keeps_deliver_all req options sigs s :
  req = open ∨ (nr ≤ req)%nat → keeps (deliver_all req options s sigs) (λ _, True).
Proof.
  intros Hreq. revert s. induction sigs as [| sig sigs IH]; intros s; cbn [deliver_all].
  - now apply keeps_ret.
  - eapply keeps_bind; [now apply keeps_deliver |]. intros [s1 calls1] _.
    eapply keeps_bind; [apply IH |]. intros [s2 calls2] _. now apply keeps_ret.
Qed.

Lemma keeps_run_exchange req options x on_response p :
  req = open ∨ (nr ≤ req)%nat →
  (∀ res, keeps (on_response res) (λ _, True)) →
  keeps (run_exchange req options x on_response p) (λ _, True).
Proof.
  intros Hreq Hresponse. unfold run_exchange.
  eapply keeps_bind; [now apply keeps_deliver_all |]. intros [s calls] _.
  eapply keeps_bind.
  - destruct (response x) as [res |]; [| apply (keeps_ret _ (λ _, True) I)].
    eapply keeps_bind; [apply Hresponse |]. intros q _. now apply keeps_ret.
  - intros p' _.
    eapply keeps_bind; [now apply keeps_deliver_all |]. intros [s' calls'] _.
    now apply keeps_ret.
Qed.

Lemma keeps_getObjectionsObject options :
  (∀ l, options = OptionsObject l → (nh ≤ l)%nat) →
  keeps (getObjectionsObject options) (λ l, (nh ≤ l)%nat).
Proof.
  intros Hl. destruct options as [url | l]; cbn [getObjectionsObject].
  - apply keeps_alloc.
  - apply keeps_ret. now apply Hl.
Qed.

(** [createRequest] writes to its options: they must be a string or an
    object made since [w0]. *)
Lemma keeps_createRequest options :
  (∀ l, options = OptionsObject l → (nh ≤ l)%nat) →
  keeps (createRequest options)
        (λ r, match r with Returned req => (nr ≤ req)%nat | Thrown _ => True end).
Proof.
  intros Hl. unfold createRequest.
  eapply keeps_bind; [now apply keeps_getObjectionsObject |]. intros l Hfresh.
  eapply keeps_bind; [apply keeps_load |]. intros o _.
  eapply keeps_bind; [now apply keeps_set_prop |]. intros _ _.
  eapply keeps_bind; [apply keeps_load |]. intros o1 _.
  eapply keeps_bind; [apply keeps_alloc |]. intros reqOptions HreqOptions.
  eapply keeps_bind; [now apply keeps_delete_prop |]. intros _ _.
  eapply keeps_bind; [now apply keeps_delete_prop |]. intros _ _.
  eapply keeps_bind; [apply keeps_load |]. intros httpOptions _.
  eapply keeps_bind; [apply keeps_load |]. intros o2 _.
  destruct (if isUrlOptions o2 then _ else _) as [urlStr |]; [| now apply keeps_ret].
  apply keeps_lib_request.
Qed.

Lemma keeps_hop options newUrl x recurse :
  (∀ res, keeps (recurse res) (λ _, True)) →
  keeps (hop options newUrl x recurse) (λ _, True).
Proof.
  intros Hrecurse. unfold hop.
  eapply keeps_bind; [apply keeps_load |]. intros o _.
  eapply keeps_bind; [apply keeps_alloc |]. intros urlOptions Hfresh.
  do 4 (eapply keeps_bind; [now apply keeps_delete_prop |]; intros _ _).
  eapply keeps_bind; [apply keeps_load |]. intros u _.
  eapply keeps_bind; [apply keeps_alloc |]. intros newOptions Hnew.
  eapply keeps_bind.
  { apply keeps_createRequest. intros l [= <-]. exact Hnew. }
  intros [req | e] Hreq; [| now apply keeps_ret].
  eapply keeps_bind; [now apply keeps_end |]. intros _ _.
  apply keeps_run_exchange; [now right |]. intros res. apply Hrecurse.
Qed.

Lemma keeps_followRedirects urls res options depth hops :
  keeps (followRedirects urls res options depth hops) (λ _, True).
Proof.
  revert urls res depth. induction hops as [| x hops IH]; intros urls res depth;
    rewrite followRedirects_unfold; cbv zeta;
    (eapply keeps_bind; [apply keeps_load |]); intros o _;
    (destruct (js_gt _ _); [now apply keeps_ret |]);
    (destruct (final _ _); [now apply keeps_ret |]);
    (destruct (new_URL _ _) as [newUrl |]; [| now apply keeps_ret]);
    apply keeps_hop; intros reqRes.
  - now apply keeps_ret.
  - apply IH.
Qed.

Lemma keeps_followRedirects_js urls res options depth hops :
  keeps (followRedirects_js urls res options depth hops) (λ _, True).
Proof.
  revert urls res depth. induction hops as [| x hops IH]; intros urls res depth;
    rewrite followRedirects_js_unfold; cbv zeta;
    (eapply keeps_bind; [apply keeps_load |]); intros o _;
    (destruct (strict_eq _ _); [now apply keeps_ret |]);
    (destruct (js_gt _ _); [now apply keeps_ret |]);
    (destruct (final _ _); [now apply keeps_ret |]);
    (destruct (new_URL _ _) as [newUrl |]; [| now apply keeps_ret]);
    apply keeps_hop; intros reqRes.
  - now apply keeps_ret.
  - apply IH.
Qed.

Lemma keeps_responseHandler (follow : resolver) req res options hops :
  (∀ urls res options depth hops,
     keeps (follow urls res options depth hops) (λ _, True)) →
  keeps (responseHandler follow req res options hops) (λ _, True).
Proof.
  intros Hfollow. unfold responseHandler.
  eapply keeps_bind; [apply keeps_requestedUrl_of |]. intros url _.
  eapply keeps_bind; [apply Hfollow |]. intros [| result | e] _;
    try now apply keeps_ret.
  eapply keeps_bind; [apply keeps_load |]. intros o _.
  destruct (has o _); [| now apply keeps_ret].
  destruct (typeof _); repeat (match goal with
    | |- context [if ?b then _ else _] => destruct b
    end); now apply keeps_ret.
Qed.

End Frame.

(** ** [createRequest], step by step *)

Lemma lookup_snoc {A} (h : list A) (a : A) : (h ++ [a])%list !! length h = Some a.
Proof. now apply list_lookup_middle. Qed.

Lemma insert_snoc {A} (h : list A) (a b : A) :
  <[length h := b]> (h ++ [a])%list = (h ++ [b])%list.
Proof.
  replace (length h) with (length h + 0)%nat by lia.
  now rewrite insert_app_r.
Qed.

Lemma set_prop_at l k v o w :
  heap w !! l = Some o →
  set_prop l k v w =
    (tt, {| heap := <[ l := <[ k := v ]> o ]> (heap w); requests := requests w |}).
Proof. intros Ho. unfold set_prop, bind. now rewrite (load_at _ _ _ Ho). Qed.

Lemma delete_prop_at l k o w :
  heap w !! l = Some o →
  delete_prop l k w =
    (tt, {| heap := <[ l := delete k o ]> (heap w); requests := requests w |}).
Proof. intros Ho. unfold delete_prop, bind. now rewrite (load_at _ _ _ Ho). Qed.

(** Deleting a property of the object allocated last. *)
Lemma delete_prop_last k o h rs :
  delete_prop (length h) k {| heap := (h ++ [o])%list; requests := rs |} =
    (tt, {| heap := (h ++ [delete k o])%list; requests := rs |}).
Proof.
  rewrite (delete_prop_at _ _ o) by apply lookup_snoc.
  cbn [heap requests]. now rewrite insert_snoc.
Qed.

Lemma load_last o h rs :
  load (length h) {| heap := (h ++ [o])%list; requests := rs |} =
    (o, {| heap := (h ++ [o])%list; requests := rs |}).
Proof. apply load_at. apply lookup_snoc. Qed.

Ltac run_with H := unfold bind at 1; rewrite H; cbv beta iota.

Lemma createRequest_object l o w :
  heap w !! l = Some o →
  let o' := <[ "method" := js_or (get o "method") (VStr "GET") ]> o in
  let h := (<[ l := o' ]> (heap w) ++ [transport_options o'])%list in
  createRequest (OptionsObject l) w =
    match (if isUrlOptions o' then new_URL (to_str (get o' "url")) None
           else formatUrl o') with
    | None =>
        (Thrown (RequiemError InvalidUrl "URL could not be formatted properly"
                              None None),
         {| heap := h; requests := requests w |})
    | Some urlStr =>
        match request_throws (if String.prefix "https:" urlStr then https else http)
                             urlStr (transport_options o') with
        | Some e => (Thrown e, {| heap := h; requests := requests w |})
        | None =>
            (Returned (length (requests w)),
             {| heap := h;
                requests := (requests w ++
                  [{| transport := if String.prefix "https:" urlStr then https else http;
                      target := urlStr; httpOptions := transport_options o';
                      req_requestedUrl := urlStr; sent_headers := [];
                      written := []; ended := false; aborted := false |}])%list |})
        end
    end.
Proof.
  intros Ho o' h.
  assert (Hl : (l < length (heap w))%nat) by now apply lookup_lt_Some in Ho.
  unfold createRequest. cbn [getObjectionsObject].
  unfold bind at 1. cbn [ret].
  run_with (load_at _ _ _ Ho).
  run_with (set_prop_at l "method" (js_or (get o "method") (VStr "GET")) o w Ho).
  fold o'.
  assert (Ho' : ∀ rs, heap {| heap := <[ l := o' ]> (heap w); requests := rs |} !! l
                      = Some o').
  { intros rs. cbn [heap]. now apply list_lookup_insert_eq. }
  run_with (load_at _ _ _ (Ho' (requests w))).
  unfold bind at 1, alloc at 1. cbn [heap requests]. cbv beta iota.
  rewrite length_insert.
  replace (length (heap w)) with (length (<[ l := o' ]> (heap w)))
    by apply length_insert.
  run_with delete_prop_last.
  run_with delete_prop_last.
  run_with load_last.
  fold (transport_options o').
  unfold bind at 1.
  rewrite (load_at l o') by
    (cbn [heap]; rewrite lookup_app_l by (rewrite length_insert; exact Hl);
     now apply list_lookup_insert_eq).
  cbv beta iota. fold h.
  destruct (if isUrlOptions o' then _ else _); [| reflexivity].
  unfold lib_request. now destruct (request_throws _ _ _).
Qed.

(** ** [sendRequest] and the heap *)

Lemma safe_start w req :
  (req < length (requests w))%nat →
  safe (length (heap w)) (length (requests w)) req w w.
Proof.
  intros Hreq. split; try reflexivity; try lia.
  intros c Hc. exists c. split; [exact Hc | now repeat split].
Qed.

Lemma requests_only_refl w : requests_only w w.
Proof. now split. Qed.

Lemma requests_only_trans w1 w2 w3 :
  requests_only w1 w2 → requests_only w2 w3 → requests_only w1 w3.
Proof. intros [? ?] [? ?]. split; congruence. Qed.

Lemma update_request_only r f w : requests_only w (snd (update_request r f w)).
Proof.
  unfold update_request, requests_only. cbn.
  destruct (requests w !! r); [| now split].
  split; [reflexivity | apply length_insert].
Qed.

Lemma write_only r chunk w : requests_only w (snd (write r chunk w)).
Proof.
  unfold write. destruct chunk; try apply requests_only_refl.
  unfold bind.
  pose proof (update_request_only r
    (λ c, {| transport := transport c; target := target c;
             httpOptions := httpOptions c; req_requestedUrl := req_requestedUrl c;
             sent_headers := sent_headers c; written := (written c ++ [s])%list;
             ended := ended c; aborted := aborted c |}) w) as H.
  destruct (update_request _ _ w). exact H.
Qed.

Lemma send_body_only req o w : requests_only w (snd (send_body req o w)).
Proof.
  unfold send_body.
  destruct (isHostBodyJsonOptions o || isUrlBodyJsonOptions o).
  - unfold bind, setHeader.
    match goal with |- context [update_request req ?f w] =>
      pose proof (update_request_only req f w) as H;
      destruct (update_request req f w) as [[] w1] end.
    cbn [snd] in H.
    destruct (JSON_stringify _) as [text | e]; [| exact H].
    eapply requests_only_trans; [exact H | apply write_only].
  - destruct (isHostBodyOptions o || isUrlBodyOptions o).
    + apply write_only.
    + apply requests_only_refl.
Qed.

(** [sendRequest] leaves every object of the heap as it was, provided
    the resolver does. *)
Lemma sendRequest_heap (follow : resolver) req l x hops w :
  (∀ nh nr open w0 urls res options depth hops,
     keeps nh nr open w0 (follow urls res options depth hops) (λ _, True)) →
  (req < length (requests w))%nat →
  ∀ l' ob, heap w !! l' = Some ob →
           heap (snd (sendRequest follow req (OptionsObject l) x hops w)) !! l'
           = Some ob.
Proof.
  intros Hfollow Hreq l' ob Hob.
  unfold sendRequest. cbn [getObjectionsObject]. unfold bind at 1. cbn [ret].
  unfold bind at 1. cbn [load]. unfold bind at 1.
  pose proof (send_body_only req (default ∅ (heap w !! l)) w) as Hsent.
  destruct (send_body req _ w) as [sent w1]. cbn [snd] in Hsent.
  unfold bind at 1.
  assert (Hended : ∃ p w2, (match sent with
                            | Returned _ => end_ req;; ret (@Pending RequiemResponse)
                            | Thrown e => ret (Rejected e)
                            end) w1 = (p, w2) ∧ requests_only w w2).
  { destruct sent as [[] | e].
    - unfold bind. pose proof (update_request_only req
        (λ c, {| transport := transport c; target := target c;
                 httpOptions := httpOptions c;
                 req_requestedUrl := req_requestedUrl c;
                 sent_headers := sent_headers c; written := written c;
                 ended := true; aborted := aborted c |}) w1) as H.
      unfold end_. destruct (update_request _ _ w1) as [[] w2].
      exists Pending, w2. split; [reflexivity |].
      eapply requests_only_trans; [exact Hsent | exact H].
    - exists (Rejected e), w1. now split. }
  destruct Hended as (p & w2 & -> & [Hheap Hlen]).
  assert (Hkeeps : keeps (length (heap w2)) (length (requests w2)) req w2
            (run_exchange req l x (λ res, responseHandler follow req res l hops) p)
            (λ _, True)).
  { apply keeps_run_exchange; [now left |].
    intros res. apply keeps_responseHandler. intros. apply Hfollow. }
  assert (Hopen : (req < length (requests w2))%nat) by lia.
  destruct (Hkeeps w2 (safe_start w2 req Hopen)) as [[_ _ _ Hsafe _ _] _].
  rewrite Hsafe; [congruence |].
  rewrite Hheap. now apply lookup_lt_Some in Hob.
Qed.

(** ** The caller's options object *)

Lemma request_object_heap (follow : resolver) l o x hops w :
  (∀ nh nr open w0 urls res options depth hops,
     keeps nh nr open w0 (follow urls res options depth hops) (λ _, True)) →
  heap w !! l = Some o →
  heap (snd (request follow (OptionsObject l) x hops w)) !! l =
    Some (<[ "method" := js_or (get o "method") (VStr "GET") ]> o)
  ∧ (∀ l' ob, l' ≠ l → heap w !! l' = Some ob →
       heap (snd (request follow (OptionsObject l) x hops w)) !! l' = Some ob).
Proof.
  intros Hfollow Ho.
  assert (Hl : (l < length (heap w))%nat) by now apply lookup_lt_Some in Ho.
  destruct (request follow (OptionsObject l) x hops w) as [outcome w''] eqn:Hrun.
  cbn [snd]. revert Hrun.
  unfold request. cbn [getObjectionsObject]. unfold bind at 1. cbn [ret].
  unfold bind at 1. rewrite (createRequest_object l o w Ho). cbv zeta.
  set (o' := <[ "method" := js_or (get o "method") (VStr "GET") ]> o).
  set (h := (<[ l := o' ]> (heap w) ++ [transport_options o'])%list).
  assert (Hh : h !! l = Some o').
  { unfold h. rewrite lookup_app_l by (now rewrite length_insert).
    now apply list_lookup_insert_eq. }
  assert (Hh' : ∀ l' ob, l' ≠ l → heap w !! l' = Some ob → h !! l' = Some ob).
  { intros l' ob Hne Hob. unfold h.
    rewrite lookup_app_l
      by (rewrite length_insert; now apply lookup_lt_Some in Hob).
    now rewrite list_lookup_insert_ne by congruence. }
  destruct (if isUrlOptions o' then _ else _) as [urlStr |];
    [destruct (request_throws _ _ _) as [e |] |].
  2: {
    unfold bind.
    match goal with |- context [sendRequest follow ?r _ x hops ?w1] =>
      pose proof (sendRequest_heap follow r l x hops w1 Hfollow) as Hsend;
      destruct (sendRequest follow r (OptionsObject l) x hops w1) as [p w']
    end.
    cbn [snd heap requests ret] in *. intros [= <- <-].
    assert (Hlen : (length (requests w) <
                    length (requests w ++
                      [{| transport := if String.prefix "https:" urlStr
                                       then https else http;
                          target := urlStr; httpOptions := transport_options o';
                          req_requestedUrl := urlStr; sent_headers := [];
                          written := []; ended := false; aborted := false |}]))%nat).
    { rewrite length_app. cbn. lia. }
    split.
    + now apply (Hsend Hlen).
    + intros l' ob Hne Hob. apply (Hsend Hlen). now apply Hh'. }
  all: cbn [ret]; intros [= <- <-]; cbn [heap]; split; [exact Hh | exact Hh'].
Qed.

(** C9, as amended.  [createRequest] assigns [method] in the caller's
    object, in place ([optionsObj.method = optionsObj.method || 'GET']):
    after [request], under either resolver, the object is the one given
    with that property set, and every other object of the heap is as it
    was.  The four fields of the library are deleted from a copy, and the
    copy is what the transport is given; the caller's object keeps
    them. *)
Theorem caller_options_changed_in_method_only l o x hops w :
  heap w !! l = Some o →
  let o' := <[ "method" := js_or (get o "method") (VStr "GET") ]> o in
  (heap (snd (request followRedirects (OptionsObject l) x hops w)) !! l = Some o'
   ∧ ∀ l' ob, l' ≠ l → heap w !! l' = Some ob →
       heap (snd (request followRedirects (OptionsObject l) x hops w)) !! l' = Some ob)
  ∧ (heap (snd (request followRedirects_js (OptionsObject l) x hops w)) !! l = Some o'
     ∧ ∀ l' ob, l' ≠ l → heap w !! l' = Some ob →
         heap (snd (request followRedirects_js (OptionsObject l) x hops w)) !! l'
         = Some ob)
  ∧ (∀ req w1, createRequest (OptionsObject l) w = (Returned req, w1) →
       ∃ c, requests w1 !! req = Some c
            ∧ httpOptions c = transport_options o'
            ∧ heap w1 !! l = Some o')
  ∧ (∀ k, k ∈ ["body"; "bodyJson"; "followRedirects"; "throwOnErrorResponse"] →
       transport_options o' !! k = None ∧ o' !! k = o !! k).
Proof.
  intros Ho o'. split; [| split; [| split; [| intros k Hk; split]]].
  - apply (request_object_heap _ l o x hops w); [| exact Ho].
    intros. apply keeps_followRedirects.
  - apply (request_object_heap _ l o x hops w); [| exact Ho].
    intros. apply keeps_followRedirects_js.
  - intros req w1. rewrite (createRequest_object l o w Ho). cbv zeta. fold o'.
    destruct (if isUrlOptions o' then _ else _) as [urlStr |]; [| discriminate].
    destruct (request_throws _ _ _) as [e |]; [discriminate |].
    intros [= <- <-]. cbn [requests heap].
    eexists. split; [apply lookup_snoc |]. cbn [httpOptions]. split; [reflexivity |].
    assert (Hl : (l < length (heap w))%nat) by now apply lookup_lt_Some in Ho.
    rewrite lookup_app_l by (now rewrite length_insert).
    now apply list_lookup_insert_eq.
  - unfold transport_options, o'.
    rewrite !list_elem_of_In in Hk. cbn in Hk.
    destruct Hk as [<- | [<- | [<- | [<- | []]]]]; now simplify_map_eq.
  - unfold o'. rewrite !list_elem_of_In in Hk. cbn in Hk.
    destruct Hk as [<- | [<- | [<- | [<- | []]]]]; now simplify_map_eq.
Qed.

(** ** The body of the request *)

Lemma run_exchange_settled req options x on_response
    (p : promise RequiemResponse) w :
  p ≠ Pending → fst (run_exchange req options x on_response p w) = p.
Proof.
  intros Hp. unfold run_exchange, bind.
  destruct (deliver_all req options wireRequestEvents (early x) w) as [[s calls] w1].
  assert (Hp1 : reject_all p calls = p) by now apply reject_all_settled.
  rewrite Hp1.
  destruct (response x) as [res |].
  - destruct (on_response res w1) as [q w2]. cbn [ret].
    replace (settle p q) with p by (destruct p; [congruence | reflexivity ..]).
    destruct (deliver_all req options s (late x) w2) as [[s' calls'] w3].
    cbn. now apply reject_all_settled.
  - cbn [ret].
    destruct (deliver_all req options s (late x) w1) as [[s' calls'] w3].
    cbn. now apply reject_all_settled.
Qed.

(** After the events of a request, the request is as it was sent, but
    for [aborted]. *)
Lemma run_exchange_frame req l x on_response p c w :
  (∀ nh nr open w0 res, keeps nh nr open w0 (on_response res) (λ _, True)) →
  requests w !! req = Some c →
  (∃ c', requests (snd (run_exchange req l x on_response p w)) !! req = Some c'
         ∧ same_but_aborted c c')
  ∧ (∀ r c0, r ≠ req → requests w !! r = Some c0 →
       requests (snd (run_exchange req l x on_response p w)) !! r = Some c0)
  ∧ (∀ l' ob, heap w !! l' = Some ob →
       heap (snd (run_exchange req l x on_response p w)) !! l' = Some ob).
Proof.
  intros Hresponse Hc.
  assert (Hkeeps : keeps (length (heap w)) (length (requests w)) req w
            (run_exchange req l x on_response p) (λ _, True)).
  { apply keeps_run_exchange; [now left |]. intros res. apply Hresponse. }
  assert (Hopen : (req < length (requests w))%nat) by now apply lookup_lt_Some in Hc.
  destruct (Hkeeps w (safe_start w req Hopen)) as [[_ _ _ Hheap Hreqs Hsafe] _].
  split; [now apply Hsafe |]. split.
  - intros r c0 Hne Hc0. rewrite Hreqs; [exact Hc0 | | exact Hne].
    now apply lookup_lt_Some in Hc0.
  - intros l' ob Hob. rewrite Hheap; [exact Hob |]. now apply lookup_lt_Some in Hob.
Qed.

Lemma run_exchange_open (follow : resolver) req l x hops p c w :
  (∀ nh nr open w0 urls res options depth hops,
     keeps nh nr open w0 (follow urls res options depth hops) (λ _, True)) →
  requests w !! req = Some c →
  ∃ c', requests (snd (run_exchange req l x
                         (λ res, responseHandler follow req res l hops) p w))
          !! req = Some c'
        ∧ same_but_aborted c c'.
Proof.
  intros Hfollow Hc.
  apply (run_exchange_frame req l x _ p c w); [| exact Hc].
  intros. apply keeps_responseHandler. intros. apply Hfollow.
Qed.

Lemma send_body_bodyJson req o c w :
  is_Some (o !! "bodyJson") →
  requests w !! req = Some c →
  send_body req o w =
    match JSON_stringify (get o "bodyJson") with
    | Returned (VStr text) =>
        (Returned tt,
         {| heap := heap w;
            requests := <[ req := {| transport := transport c; target := target c;
                                     httpOptions := httpOptions c;
                                     req_requestedUrl := req_requestedUrl c;
                                     sent_headers := sent_headers (with_json_header c);
                                     written := written c ++ [text];
                                     ended := ended c; aborted := aborted c |} ]>
                          (requests w) |})
    | Returned _ =>
        (Thrown (NativeError "ERR_INVALID_ARG_TYPE"),
         {| heap := heap w; requests := <[ req := with_json_header c ]> (requests w) |})
    | Thrown e =>
        (Thrown e,
         {| heap := heap w; requests := <[ req := with_json_header c ]> (requests w) |})
    end.
Proof.
  intros [v Hv] Hc.
  assert (Hlt : (req < length (requests w))%nat) by now apply lookup_lt_Some in Hc.
  unfold send_body, isHostBodyJsonOptions, isUrlBodyJsonOptions, has.
  rewrite Hv. cbn [orb].
  unfold bind at 1, setHeader. rewrite (update_request_at _ _ c w Hc).
  fold (with_json_header c).
  destruct (JSON_stringify (get o "bodyJson")) as [[| | | | text |] | e];
    try reflexivity.
  unfold write, bind.
  rewrite (update_request_at _ _ (with_json_header c))
    by (cbn [requests]; now apply list_lookup_insert_eq).
  cbn [heap requests ret]. now rewrite list_insert_insert_eq.
Qed.

Lemma sendRequest_bodyJson (follow : resolver) l o req c x hops w :
  (∀ nh nr open w0 urls res options depth hops,
     keeps nh nr open w0 (follow urls res options depth hops) (λ _, True)) →
  heap w !! l = Some o →
  is_Some (o !! "bodyJson") →
  requests w !! req = Some c →
  ∃ c', requests (snd (sendRequest follow req (OptionsObject l) x hops w)) !! req
          = Some c'
    ∧ match JSON_stringify (get o "bodyJson") with
      | Returned (VStr text) =>
          same_but_aborted (with_body_sent text (with_json_header c)) c'
      | Returned _ =>
          same_but_aborted (with_json_header c) c'
          ∧ fst (sendRequest follow req (OptionsObject l) x hops w)
            = Rejected (NativeError "ERR_INVALID_ARG_TYPE")
      | Thrown e =>
          same_but_aborted (with_json_header c) c'
          ∧ fst (sendRequest follow req (OptionsObject l) x hops w) = Rejected e
      end.
Proof.
  intros Hfollow Ho Hjson Hc.
  assert (Hlt : (req < length (requests w))%nat) by now apply lookup_lt_Some in Hc.
  destruct (sendRequest follow req (OptionsObject l) x hops w) as [p w'] eqn:Hrun.
  cbn [fst snd]. revert Hrun.
  unfold sendRequest. cbn [getObjectionsObject]. unfold bind at 1. cbn [ret].
  unfold bind at 1. rewrite (load_at _ _ _ Ho).
  unfold bind at 1. rewrite (send_body_bodyJson req o c w Hjson Hc).
  assert (Hfailed : ∀ e,
    run_exchange req l x (λ res, responseHandler follow req res l hops)
      (Rejected e)
      {| heap := heap w;
         requests := <[ req := with_json_header c ]> (requests w) |} = (p, w') →
    ∃ c', requests w' !! req = Some c'
      ∧ same_but_aborted (with_json_header c) c' ∧ p = Rejected e).
  { intros e Hrun.
    destruct (run_exchange_open follow req l x hops (Rejected e) (with_json_header c)
                {| heap := heap w;
                   requests := <[ req := with_json_header c ]> (requests w) |} Hfollow)
      as (c' & Hc' & Hsame).
    { cbn [requests]. now apply list_lookup_insert_eq. }
    pose proof (run_exchange_settled req l x
                  (λ res, responseHandler follow req res l hops) (Rejected e)
                  {| heap := heap w;
                     requests := <[ req := with_json_header c ]> (requests w) |})
      as Hsettled.
    rewrite Hrun in Hc', Hsettled. cbn [fst snd] in *.
    exists c'. split; [exact Hc' |]. split; [exact Hsame |].
    now apply Hsettled. }
  destruct (JSON_stringify (get o "bodyJson")) as [[| | | | text |] | e];
    try (unfold bind at 1; cbn [ret]; intros Hrun;
         destruct (Hfailed _ Hrun) as (c' & ? & ? & ?); now exists c').
  unfold bind at 1 2, end_.
  rewrite (update_request_at _ _
             {| transport := transport c; target := target c;
                httpOptions := httpOptions c;
                req_requestedUrl := req_requestedUrl c;
                sent_headers := sent_headers (with_json_header c);
                written := written c ++ [text];
                ended := ended c; aborted := aborted c |})
    by (cbn [requests]; now apply list_lookup_insert_eq).
  cbn [heap requests ret transport target httpOptions req_requestedUrl
       sent_headers written ended aborted].
  rewrite list_insert_insert_eq. intros Hrun.
  pose proof (run_exchange_open follow req l x hops Pending
                (with_body_sent text (with_json_header c))
                {| heap := heap w;
                   requests := <[ req := with_body_sent text (with_json_header c) ]>
                                 (requests w) |} Hfollow) as Hopen.
  unfold with_body_sent at 2 3 in Hopen.
  cbn [transport target httpOptions req_requestedUrl sent_headers written ended
       aborted with_json_header] in Hopen.
  unfold with_json_header in Hrun.
  cbn [transport target httpOptions req_requestedUrl sent_headers written ended
       aborted] in Hrun.
  rewrite Hrun in Hopen. apply Hopen.
  cbn [requests]. now apply list_lookup_insert_eq.
Qed.

(** C8.  When the options have a [bodyJson] property, whether or not
    they have a [body] as well, [sendRequest] sets the header
    [Content-Type: application/json] on the request and writes exactly
    the text that [JSON.stringify] returns for the value, then ends the
    request; the raw [body] is not written.  When the serialization
    throws, or returns no string, the header is set, nothing is written
    and the promise is rejected with that error.  Under either
    resolver. *)
Theorem bodyJson_is_sent_as_json (follow : resolver) l o req c x hops w :
  follow = followRedirects ∨ follow = followRedirects_js →
  heap w !! l = Some o →
  is_Some (o !! "bodyJson") →
  requests w !! req = Some c →
  ∃ c', requests (snd (sendRequest follow req (OptionsObject l) x hops w)) !! req
          = Some c'
    ∧ sent_headers c' = (sent_headers c ++ [("Content-Type", "application/json")])%list
    ∧ match JSON_stringify (get o "bodyJson") with
      | Returned (VStr text) =>
          written c' = (written c ++ [text])%list ∧ ended c' = true
      | Returned _ =>
          written c' = written c ∧ ended c' = ended c
          ∧ fst (sendRequest follow req (OptionsObject l) x hops w)
            = Rejected (NativeError "ERR_INVALID_ARG_TYPE")
      | Thrown e =>
          written c' = written c ∧ ended c' = ended c
          ∧ fst (sendRequest follow req (OptionsObject l) x hops w) = Rejected e
      end.
Proof.
  intros Hfollow Ho Hjson Hc.
  assert (Hkeeps : ∀ nh nr open w0 urls res options depth hops,
            keeps nh nr open w0 (follow urls res options depth hops) (λ _, True)).
  { intros. destruct Hfollow as [-> | ->];
      [apply keeps_followRedirects | apply keeps_followRedirects_js]. }
  destruct (sendRequest_bodyJson follow l o req c x hops w Hkeeps Ho Hjson Hc)
    as (c' & Hc' & Hsent).
  exists c'. split; [exact Hc' |].
  destruct (JSON_stringify (get o "bodyJson")) as [[| | | | text |] | e];
    repeat match goal with
           | H : _ ∧ _ |- _ => destruct H
           | H : same_but_aborted _ _ |- _ =>
               destruct H as (_ & _ & _ & _ & Hheaders & Hwritten & Hended)
           end;
    cbn in Hheaders, Hwritten, Hended; auto.
Qed.

(** ** The request of a hop *)

Lemma hop_run_options options newUrl x recurse o w :
  heap w !! options = Some o →
  ∃ h l,
    (∀ l' ob, heap w !! l' = Some ob → h !! l' = Some ob)
    ∧ h !! l = Some (hop_options o newUrl)
    ∧ hop options newUrl x recurse w =
      match new_URL newUrl None with
      | None =>
          (Rejected (RequiemError InvalidUrl "URL could not be formatted properly"
                                  None None),
           {| heap := h; requests := requests w |})
      | Some href =>
          match hop_throws o newUrl href with
          | Some e => (Rejected e, {| heap := h; requests := requests w |})
          | None =>
              run_exchange (length (requests w)) l x
                (fun res => recurse {| incoming := res; requestedUrl := newUrl |})
                Pending
                {| heap := h;
                   requests := (requests w ++ [hop_request o newUrl href])%list |}
          end
      end.
Proof.
  intros Ho.
  pose (u := delete "protocol" (delete "port" (delete "path" (delete "host" o)))).
  pose (n := <[ "method" := VStr "GET" ]> (<[ "url" := VStr newUrl ]> u)).
  exists (<[ length (heap w ++ [u]) := n ]> ((heap w ++ [u]) ++ [n])
            ++ [transport_options n])%list, (length (heap w ++ [u])).
  split.
  - intros l' ob Hob.
    assert (Hl' : (l' < length (heap w))%nat) by now apply lookup_lt_Some in Hob.
    rewrite lookup_app_l by (rewrite length_insert, !length_app; lia).
    rewrite list_lookup_insert_ne by (rewrite length_app; cbn; lia).
    rewrite lookup_app_l by (rewrite length_app; lia).
    now rewrite lookup_app_l.
  - split.
    { rewrite insert_snoc.
      rewrite lookup_app_l by (rewrite !length_app; cbn [length]; lia).
      apply lookup_snoc. }
    unfold hop.
    run_with (load_at _ _ _ Ho).
    unfold bind at 1, alloc at 1. cbv beta iota.
    do 4 run_with delete_prop_last.
    run_with load_last.
    unfold bind at 1, alloc at 1. cbn [heap requests]. cbv beta iota.
    fold u. fold n.
    unfold bind at 1.
    rewrite (createRequest_object (length (heap w ++ [u])) n)
      by (cbn [heap]; apply lookup_snoc).
    cbv zeta.
    assert (Hmethod : <[ "method" := js_or (get n "method") (VStr "GET") ]> n = n).
    { unfold n, get. rewrite lookup_insert_eq. cbn. now rewrite insert_insert_eq. }
    rewrite Hmethod.
    assert (Hurl : isUrlOptions n = true ∧ to_str (get n "url") = newUrl).
    { unfold isUrlOptions, n, get.
      rewrite lookup_insert_ne by discriminate. now rewrite lookup_insert_eq. }
    destruct Hurl as [-> ->].
    destruct (new_URL newUrl None) as [href |]; [| reflexivity].
    change (request_throws _ href (transport_options n))
      with (hop_throws o newUrl href).
    destruct (hop_throws o newUrl href) as [e |]; [reflexivity |].
    cbv beta iota. unfold bind at 1, end_.
    rewrite (update_request_at _ _
               {| transport := if String.prefix "https:" href then https else http;
                  target := href; httpOptions := transport_options n;
                  req_requestedUrl := href; sent_headers := [];
                  written := []; ended := false; aborted := false |})
      by (cbn [requests]; apply lookup_snoc).
    cbn [heap requests transport target httpOptions req_requestedUrl
         sent_headers written ended aborted].
    rewrite (insert_snoc (requests w)). reflexivity.
Qed.

Lemma hop_run options newUrl x recurse o w :
  heap w !! options = Some o →
  ∃ h l,
    (∀ l' ob, heap w !! l' = Some ob → h !! l' = Some ob)
    ∧ hop options newUrl x recurse w =
      match new_URL newUrl None with
      | None =>
          (Rejected (RequiemError InvalidUrl "URL could not be formatted properly"
                                  None None),
           {| heap := h; requests := requests w |})
      | Some href =>
          match hop_throws o newUrl href with
          | Some e => (Rejected e, {| heap := h; requests := requests w |})
          | None =>
              run_exchange (length (requests w)) l x
                (fun res => recurse {| incoming := res; requestedUrl := newUrl |})
                Pending
                {| heap := h;
                   requests := (requests w ++ [hop_request o newUrl href])%list |}
          end
      end.
Proof.
  intros Ho.
  destruct (hop_run_options options newUrl x recurse o w Ho)
    as (h & l & Hh & _ & Hrun).
  now exists h, l.
Qed.

(** The request of a hop exists once the transport has accepted it;
    when the transport throws, the promise of the hop is rejected with
    the exception and there is no request. *)
Lemma hop_issues options newUrl href x recurse o w :
  (∀ nh nr open w0 res, keeps nh nr open w0 (recurse res) (λ _, True)) →
  heap w !! options = Some o →
  new_URL newUrl None = Some href →
  match hop_throws o newUrl href with
  | None =>
      ∃ c, requests (snd (hop options newUrl x recurse w)) !! length (requests w)
             = Some c
           ∧ same_but_aborted (hop_request o newUrl href) c
  | Some e =>
      fst (hop options newUrl x recurse w) = Rejected e
      ∧ requests (snd (hop options newUrl x recurse w)) = requests w
  end.
Proof.
  intros Hrecurse Ho Hparse.
  destruct (hop_run options newUrl x recurse o w Ho) as (h & l & _ & ->).
  rewrite Hparse. destruct (hop_throws o newUrl href) as [e |]; [now split |].
  match goal with |- context [run_exchange ?r l x ?k Pending ?w1] =>
    destruct (run_exchange_frame r l x k Pending (hop_request o newUrl href) w1)
      as [Hopen _]
  end.
  - intros. apply Hrecurse.
  - cbn [requests]. apply lookup_snoc.
  - exact Hopen.
Qed.

(** At a redirect within the limit, both resolvers come to the hop. *)
Lemma followRedirects_at_redirect urls res options depth hops w o limit location :
  heap w !! options = Some o →
  limit_of o limit →
  (Z.of_nat depth ≤ limit)%Z →
  redirect_to res location →
  followRedirects urls res options depth hops w =
    match new_URL location (last urls) with
    | None =>
        (Rejected (RequiemError InvalidRedirectUrl
                                ("Invalid redirect URL: " +:+ location)
                                None (Some res)), w)
    | Some newUrl =>
        hop options newUrl (hd silence hops) (fun reqRes =>
          match hops with
          | [] => ret Pending
          | _ :: hops =>
              followRedirects (urls ++ [newUrl]) reqRes options (S depth) hops
          end) w
    end
  ∧ followRedirects_js urls res options depth hops w =
    match new_URL location (last urls) with
    | None =>
        (Rejected (RequiemError InvalidRedirectUrl
                                ("Invalid redirect URL: " +:+ location)
                                None (Some res)), w)
    | Some newUrl =>
        hop options newUrl (hd silence hops) (fun reqRes =>
          match hops with
          | [] => ret Pending
          | _ :: hops =>
              followRedirects_js (urls ++ [newUrl]) reqRes options (S depth) hops
          end) w
    end.
Proof.
  intros Ho Hlimit Hdepth Hredirect.
  pose proof (redirect_not_final _ _ Hredirect) as Hfinal.
  destruct Hredirect as (_ & Hloc & _).
  split.
  - rewrite followRedirects_unfold. cbv zeta. unfold bind at 1.
    rewrite (load_at _ _ _ Ho), (within_limit _ _ _ Hlimit Hdepth), Hfinal, Hloc.
    cbn [of_string to_str]. now destruct (new_URL location (last urls)).
  - rewrite followRedirects_js_unfold. cbv zeta. unfold bind at 1.
    destruct (within_limit_js _ _ _ Hlimit Hdepth) as [Hfalse Hgt].
    rewrite (load_at _ _ _ Ho), Hfalse, Hgt, Hfinal, Hloc.
    cbn [of_string to_str]. now destruct (new_URL location (last urls)).
Qed.

Lemma hop_request_options o newUrl href :
  let sent := httpOptions (hop_request o newUrl href) in
  sent !! "method" = Some (VStr "GET")
  ∧ sent !! "url" = Some (VStr newUrl)
  ∧ sent !! "host" = None ∧ sent !! "path" = None
  ∧ sent !! "port" = None ∧ sent !! "protocol" = None
  ∧ (∀ k, k ∉ ["method"; "url"; "host"; "path"; "port"; "protocol";
               "body"; "bodyJson"; "followRedirects"; "throwOnErrorResponse"] →
          sent !! k = o !! k).
Proof.
  cbn [hop_request httpOptions]. unfold transport_options, hop_options.
  repeat split; try (now simplify_map_eq).
  intros k Hk. rewrite !not_elem_of_cons in Hk.
  destruct Hk as (? & ? & ? & ? & ? & ? & ? & ? & ? & ? & _).
  now simplify_map_eq.
Qed.

(** C5, as amended.  At a redirect within the limit, either resolver
    resolves the [Location] against the last URL of the chain.  When
    that fails it rejects with [InvalidRedirectUrl], carrying the
    response, and issues nothing.  When it gives [newUrl] (a URL that
    parses to itself), the transport is asked for a request to [newUrl],
    with the options given but [method] set to [GET], [url] set to
    [newUrl] and [host], [path], [port] and [protocol] deleted (and, as
    for every request, the four fields of the library stripped).  When
    the transport accepts, the next request made is that request; it is
    ended with nothing written, and whatever follows changes at most its
    [aborted] flag.  When the transport throws, the promise is rejected
    with its exception and no request is made. *)
Theorem redirect_is_followed_from_last_url
    urls res options depth hops w o limit location :
  heap w !! options = Some o →
  limit_of o limit →
  (Z.of_nat depth ≤ limit)%Z →
  redirect_to res location →
  (new_URL location (last urls) = None →
     followRedirects urls res options depth hops w =
       (Rejected (RequiemError InvalidRedirectUrl
                               ("Invalid redirect URL: " +:+ location)
                               None (Some res)), w)
     ∧ followRedirects_js urls res options depth hops w =
       (Rejected (RequiemError InvalidRedirectUrl
                               ("Invalid redirect URL: " +:+ location)
                               None (Some res)), w))
  ∧ (∀ newUrl,
       new_URL location (last urls) = Some newUrl →
       new_URL newUrl None = Some newUrl →
       match hop_throws o newUrl newUrl with
       | None =>
           (∃ c, requests (snd (followRedirects urls res options depth hops w))
                   !! length (requests w) = Some c
                 ∧ same_but_aborted (hop_request o newUrl newUrl) c)
           ∧ (∃ c, requests (snd (followRedirects_js urls res options depth hops w))
                     !! length (requests w) = Some c
                   ∧ same_but_aborted (hop_request o newUrl newUrl) c)
       | Some e =>
           (fst (followRedirects urls res options depth hops w) = Rejected e
            ∧ requests (snd (followRedirects urls res options depth hops w))
              = requests w)
           ∧ (fst (followRedirects_js urls res options depth hops w) = Rejected e
              ∧ requests (snd (followRedirects_js urls res options depth hops w))
                = requests w)
       end)
  ∧ (∀ newUrl,
       let c := hop_request o newUrl newUrl in
       target c = newUrl ∧ written c = [] ∧ ended c = true
       ∧ httpOptions c !! "method" = Some (VStr "GET")
       ∧ httpOptions c !! "url" = Some (VStr newUrl)
       ∧ httpOptions c !! "host" = None ∧ httpOptions c !! "path" = None
       ∧ httpOptions c !! "port" = None ∧ httpOptions c !! "protocol" = None
       ∧ (∀ k, k ∉ ["method"; "url"; "host"; "path"; "port"; "protocol";
                    "body"; "bodyJson"; "followRedirects"; "throwOnErrorResponse"] →
               httpOptions c !! k = o !! k)).
Proof.
  intros Ho Hlimit Hdepth Hredirect.
  destruct (followRedirects_at_redirect urls res options depth hops w o limit location
              Ho Hlimit Hdepth Hredirect) as [Hts Hjs].
  split; [| split].
  - intros Hnone. rewrite Hts, Hjs, Hnone. now split.
  - intros newUrl Hsome Hparse. rewrite Hts, Hjs, Hsome.
    pose proof (hop_issues options newUrl newUrl (hd silence hops)
                  (λ reqRes, match hops with
                             | [] => ret Pending
                             | _ :: hops =>
                                 followRedirects (urls ++ [newUrl]) reqRes options
                                                 (S depth) hops
                             end) o w) as Hts'.
    pose proof (hop_issues options newUrl newUrl (hd silence hops)
                  (λ reqRes, match hops with
                             | [] => ret Pending
                             | _ :: hops =>
                                 followRedirects_js (urls ++ [newUrl]) reqRes options
                                                    (S depth) hops
                             end) o w) as Hjs'.
    destruct (hop_throws o newUrl newUrl) as [e |]; split;
      first [apply Hts' | apply Hjs']; try exact Ho; try exact Hparse;
      intros; destruct hops;
      first [now apply keeps_ret | apply keeps_followRedirects
            | apply keeps_followRedirects_js].
  - intros newUrl c.
    pose proof (hop_request_options o newUrl newUrl) as Hoptions.
    cbv zeta in Hoptions. subst c. repeat split; try apply Hoptions; reflexivity.
Qed.

(** ** Buffering the body *)

(** The promise of [requestBody] is never rejected by the stream. *)
Lemma consume_never_rejects res events buffers upstream e :
  fst (consume res events buffers upstream Pending) ≠ Rejected e.
Proof.
  assert (H : ∀ events buffers upstream p,
            (∀ e, p ≠ Rejected e) →
            ∀ e, fst (consume res events buffers upstream p) ≠ Rejected e).
  { clear. induction events as [| ev events IH]; intros buffers upstream p Hp e.
    - apply Hp.
    - destruct ev; cbn [consume]; apply IH; try exact Hp.
      intros e'. destruct p; cbn; [discriminate | discriminate | apply Hp]. }
  apply H. discriminate.
Qed.

Lemma consume_settled res events buffers upstream p :
  p ≠ Pending → fst (consume res events buffers upstream p) = p.
Proof.
  revert buffers upstream p.
  induction events as [| ev events IH]; intros buffers upstream p Hp; [reflexivity |].
  destruct ev; cbn [consume]; rewrite IH; try exact Hp;
    destruct p; cbn; congruence.
Qed.

(** It is fulfilled at the first [end], with the chunks received so far
    in order. *)
Lemma consume_at_end res before after buffers upstream :
  EndOfStream ∉ before →
  fst (consume res (before ++ EndOfStream :: after) buffers upstream Pending) =
    Fulfilled {| response_of := res;
                 body := String.concat EmptyString (buffers ++ chunks before) |}.
Proof.
  revert buffers upstream.
  induction before as [| ev before IH]; intros buffers upstream Hnot.
  - cbn [app consume chunks settle]. rewrite app_nil_r.
    now apply consume_settled.
  - apply not_elem_of_cons in Hnot as [Hne Hnot].
    destruct ev; [| congruence |]; cbn [app consume chunks].
    + rewrite IH by exact Hnot. now rewrite <- app_assoc.
    + now apply IH.
Qed.

(** Without [end] it stays pending, and an error of the stream reaches
    only the promise of [request], which is fulfilled already and stays
    so. *)
Lemma consume_without_end res events buffers :
  EndOfStream ∉ events →
  consume res events buffers (Fulfilled res) Pending = (Pending, Fulfilled res).
Proof.
  revert buffers. induction events as [| ev events IH]; intros buffers Hnot.
  - reflexivity.
  - apply not_elem_of_cons in Hnot as [Hne Hnot].
    destruct ev; [| congruence |]; cbn [consume settle]; now apply IH.
Qed.

(** ** Falsy maxima in the source edition *)

(** The source edition takes a maximum of 0 for an absent one, and would
    take [false] so too. *)
Lemma zero_is_taken_for_default o :
  o !! "followRedirects" = Some (VNum 0) →
  js_or (get o "followRedirects") (VNum defaultFollowRedirects) = VNum 5.
Proof. intros H. now rewrite (get_at _ _ _ H). Qed.

Lemma false_is_taken_for_default o :
  o !! "followRedirects" = Some (VBool false) →
  js_or (get o "followRedirects") (VNum defaultFollowRedirects) = VNum 5.
Proof. intros H. now rewrite (get_at _ _ _ H). Qed.

(** ** The first signal of a request *)

Lemma run_exchange_early req options x on_response s c calls w w1 :
  deliver_all req options wireRequestEvents (early x) w = (s, c :: calls, w1) →
  fst (run_exchange req options x on_response Pending w) = Rejected (snd c).
Proof.
  intros Hearly. unfold run_exchange, bind. rewrite Hearly.
  rewrite reject_all_first.
  destruct (response x) as [res |].
  - destruct (on_response res w1) as [q w2]. cbn [ret settle].
    destruct (deliver_all req options s (late x) w2) as [[s' calls'] w3].
    cbn. now apply reject_all_settled.
  - cbn [ret].
    destruct (deliver_all req options s (late x) w1) as [[s' calls'] w3].
    cbn. now apply reject_all_settled.
Qed.

(** [sendRequest] with an options object, up to the events. *)
Lemma sendRequest_run (follow : resolver) req l o x hops w :
  heap w !! l = Some o →
  sendRequest follow req (OptionsObject l) x hops w =
    match send_body req o w with
    | (Returned _, w1) =>
        run_exchange req l x (λ res, responseHandler follow req res l hops)
          Pending (snd (end_ req w1))
    | (Thrown e, w1) =>
        run_exchange req l x (λ res, responseHandler follow req res l hops)
          (Rejected e) w1
    end.
Proof.
  intros Ho. unfold sendRequest. cbn [getObjectionsObject].
  unfold bind at 1. cbn [ret]. unfold bind at 1. rewrite (load_at _ _ _ Ho).
  unfold bind at 1. destruct (send_body req o w) as [[[] | e] w1].
  - unfold bind at 1 2. now destruct (end_ req w1) as [[] w2].
  - unfold bind at 1. reflexivity.
Qed.

Lemma same_aborted_refl req w : same_aborted req w w.
Proof. split; [reflexivity |]. intros c Hc. now exists c. Qed.

Lemma same_aborted_trans req w1 w2 w3 :
  same_aborted req w1 w2 → same_aborted req w2 w3 → same_aborted req w1 w3.
Proof.
  intros [Hh1 H1] [Hh2 H2]. split; [congruence |].
  intros c Hc. destruct (H1 c Hc) as (c1 & Hc1 & Ha1).
  destruct (H2 c1 Hc1) as (c2 & Hc2 & Ha2). exists c2. split; [exact Hc2 | congruence].
Qed.

Lemma update_request_same_aborted req r f w :
  (∀ c, aborted (f c) = aborted c) →
  same_aborted req w (snd (update_request r f w)).
Proof.
  intros Hf. unfold update_request. cbn [snd].
  split; [reflexivity |]. intros c Hc. cbn [requests].
  destruct (requests w !! r) as [c0 |] eqn:Hr; [| now exists c].
  destruct (decide (r = req)) as [-> | Hne].
  - exists (f c0). split.
    + apply list_lookup_insert_eq. now apply lookup_lt_Some in Hr.
    + rewrite Hf. congruence.
  - exists c. split; [| reflexivity]. now rewrite list_lookup_insert_ne.
Qed.

Lemma write_same_aborted req r chunk w : same_aborted req w (snd (write r chunk w)).
Proof.
  unfold write. destruct chunk; try apply same_aborted_refl.
  unfold bind.
  match goal with |- context [update_request r ?f w] =>
    pose proof (update_request_same_aborted req r f w (λ c, eq_refl)) as H;
    destruct (update_request r f w) as [[] w1] end.
  exact H.
Qed.

Lemma send_body_same_aborted req r o w : same_aborted req w (snd (send_body r o w)).
Proof.
  unfold send_body.
  destruct (isHostBodyJsonOptions o || isUrlBodyJsonOptions o).
  - unfold bind, setHeader.
    match goal with |- context [update_request r ?f w] =>
      pose proof (update_request_same_aborted req r f w (λ c, eq_refl)) as H;
      destruct (update_request r f w) as [[] w1] end.
    cbn [snd] in H.
    destruct (JSON_stringify _) as [text | e]; [| exact H].
    eapply same_aborted_trans; [exact H | apply write_same_aborted].
  - destruct (isHostBodyOptions o || isUrlBodyOptions o).
    + apply write_same_aborted.
    + apply same_aborted_refl.
Qed.

Lemma end_same_aborted req r w : same_aborted req w (snd (end_ r w)).
Proof. apply update_request_same_aborted. reflexivity. Qed.

Lemma sendRequest_first_call (follow : resolver) req l o x hops w e :
  heap w !! l = Some o →
  (∀ w1, same_aborted req w w1 →
     ∃ s c calls w2,
       deliver_all req l wireRequestEvents (early x) w1 = (s, c :: calls, w2)
       ∧ snd c = e) →
  fst (sendRequest follow req (OptionsObject l) x hops w) =
    match fst (send_body req o w) with
    | Returned _ => Rejected e
    | Thrown e0 => Rejected e0
    end.
Proof.
  intros Ho Hfirst. rewrite (sendRequest_run _ _ _ _ _ _ _ Ho).
  pose proof (send_body_same_aborted req req o w) as Hsent.
  destruct (send_body req o w) as [[[] | e0] w1]; cbn [fst snd] in *.
  - destruct (Hfirst (snd (end_ req w1))) as (s & c & calls & w2 & Hrun & <-).
    { eapply same_aborted_trans; [exact Hsent | apply end_same_aborted]. }
    eapply run_exchange_early. exact Hrun.
  - now apply run_exchange_settled.
Qed.

(** X1.  An [error] event of the transport that comes before anything
    else rejects the promise of [sendRequest] with the error of the event
    itself, not wrapped in a [RequiemError], whatever comes after it:
    other signals, a response, redirects.  Only an exception of writing
    the body, raised before any event, takes precedence. *)
Theorem transport_error_is_passed_on (follow : resolver) req l o x hops w e sigs :
  heap w !! l = Some o →
  early x = EmitError e :: sigs →
  fst (sendRequest follow req (OptionsObject l) x hops w) =
    match fst (send_body req o w) with
    | Returned _ => Rejected e
    | Thrown e0 => Rejected e0
    end.
Proof.
  intros Ho Hx. apply sendRequest_first_call; [exact Ho |].
  intros w1 _. rewrite Hx.
  destruct (deliver_all_first req l (EmitError e) sigs wireRequestEvents
              wireRequestEvents (OnError, e) [] w1 w1 eq_refl)
    as (s2 & calls2 & w2 & Hrun).
  now exists s2, (OnError, e), calls2, w2.
Qed.

(** X2.  A [timeout] event that comes first, on a request that is not
    aborted, rejects the promise of [sendRequest] with [Timeout]: the
    listener aborts the request, the transport emits [abort], and the
    [abort] listener finds the flag set.  The message gives the
    [timeout] option. *)
Theorem timeout_rejects_with_Timeout (follow : resolver) req l o c x hops w sigs :
  heap w !! l = Some o →
  requests w !! req = Some c →
  aborted c = false →
  early x = EmitTimeout :: sigs →
  fst (sendRequest follow req (OptionsObject l) x hops w) =
    match fst (send_body req o w) with
    | Returned _ =>
        Rejected (RequiemError Timeout (timeout_message o) (Some req) None)
    | Thrown e0 => Rejected e0
    end.
Proof.
  intros Ho Hc Hlive Hx. apply sendRequest_first_call; [exact Ho |].
  intros w1 [Hheap Hsame]. rewrite Hx.
  destruct (Hsame c Hc) as (c1 & Hc1 & Hlive1).
  destruct (deliver_timeout_live req l o c1 w1) as (w' & Hsig);
    [congruence | exact Hc1 | congruence |].
  destruct (deliver_all_first req l EmitTimeout sigs _ _ _ _ _ _ Hsig)
    as (s2 & calls2 & w2 & Hrun).
  eexists s2, _, calls2, w2. split; [exact Hrun | reflexivity].
Qed.

(** X3.  A call of [req.abort()] by the holder of the request, before
    anything else and on a request that is not aborted, rejects the
    promise of [sendRequest] with [RequestAbort], which carries the
    request. *)
Theorem abort_by_caller_rejects (follow : resolver) req l o c x hops w sigs :
  heap w !! l = Some o →
  requests w !! req = Some c →
  aborted c = false →
  early x = CallAbort :: sigs →
  fst (sendRequest follow req (OptionsObject l) x hops w) =
    match fst (send_body req o w) with
    | Returned _ =>
        Rejected (RequiemError RequestAbort "Request was aborted" (Some req) None)
    | Thrown e0 => Rejected e0
    end.
Proof.
  intros Ho Hc Hlive Hx. apply sendRequest_first_call; [exact Ho |].
  intros w1 [Hheap Hsame]. rewrite Hx.
  destruct (Hsame c Hc) as (c1 & Hc1 & Hlive1).
  assert (Hsig : ∃ w', deliver req l wireRequestEvents CallAbort w1 =
            ({| timedOut := false; rejected := true |},
             [(OnAbort, RequiemError RequestAbort "Request was aborted" (Some req) None)],
             w')).
  { cbn [deliver]. unfold bind at 1, abort at 1. unfold bind at 1, is_aborted at 1.
    rewrite Hc1, Hlive1, Hlive. unfold bind at 1.
    rewrite (update_request_at _ _ _ _ Hc1). cbn [ret negb].
    unfold on_abort. cbn [rejected timedOut wireRequestEvents ret]. eauto. }
  destruct Hsig as (w' & Hsig).
  destruct (deliver_all_first req l CallAbort sigs _ _ _ _ _ _ Hsig)
    as (s2 & calls2 & w2 & Hrun).
  eexists s2, _, calls2, w2. split; [exact Hrun | reflexivity].
Qed.

(** ** The raw body *)

(** The request once [sendRequest] has ended it. *)
Lemma sendRequest_after_body (follow : resolver) l o req c1 x hops w :
  (∀ nh nr open w0 urls res options depth hops,
     keeps nh nr open w0 (follow urls res options depth hops) (λ _, True)) →
  heap w !! l = Some o →
  requests (snd (send_body req o w)) !! req = Some c1 →
  ∃ c', requests (snd (sendRequest follow req (OptionsObject l) x hops w)) !! req
          = Some c'
    ∧ sent_headers c' = sent_headers c1
    ∧ written c' = written c1
    ∧ match fst (send_body req o w) with
      | Returned _ => ended c' = true
      | Thrown e =>
          ended c' = ended c1
          ∧ fst (sendRequest follow req (OptionsObject l) x hops w) = Rejected e
      end.
Proof.
  intros Hfollow Ho. rewrite (sendRequest_run _ _ _ _ _ _ _ Ho).
  destruct (send_body req o w) as [[[] | e] w1]; cbn [fst snd]; intros Hc1.
  - unfold end_. rewrite (update_request_at _ _ _ _ Hc1). cbn [snd].
    match goal with
    |- context [run_exchange req l x ?k Pending
                  {| heap := ?h; requests := <[ req := ?c2 ]> ?rs |}] =>
      destruct (run_exchange_open follow req l x hops Pending c2
                  {| heap := h; requests := <[ req := c2 ]> rs |} Hfollow)
        as (c' & Hc' & Hsame) end.
    { cbn [requests]. apply list_lookup_insert_eq.
      now apply lookup_lt_Some in Hc1. }
    exists c'. split; [exact Hc' |].
    destruct Hsame as (_ & _ & _ & _ & Hheaders & Hwritten & Hended).
    cbn in Hheaders, Hwritten, Hended. auto.
  - destruct (run_exchange_open follow req l x hops (Rejected e) c1 w1 Hfollow Hc1)
      as (c' & Hc' & Hsame).
    exists c'. split; [exact Hc' |].
    destruct Hsame as (_ & _ & _ & _ & Hheaders & Hwritten & Hended).
    repeat split; try assumption.
    now apply run_exchange_settled.
Qed.

(** X4.  When the options have a [body] and no [bodyJson], [sendRequest]
    writes the body as it is, sets no header and ends the request; a
    body that is no string or buffer makes [write] throw: the promise is
    rejected with that error and the request is never ended.  With
    neither property the request is only ended.  Under either
    resolver. *)
Theorem raw_body_is_written_as_it_is (follow : resolver) l o req c x hops w :
  follow = followRedirects ∨ follow = followRedirects_js →
  heap w !! l = Some o →
  o !! "bodyJson" = None →
  requests w !! req = Some c →
  ∃ c', requests (snd (sendRequest follow req (OptionsObject l) x hops w)) !! req
          = Some c'
    ∧ sent_headers c' = sent_headers c
    ∧ match o !! "body" with
      | Some (VStr text) =>
          written c' = (written c ++ [text])%list ∧ ended c' = true
      | Some _ =>
          written c' = written c ∧ ended c' = ended c
          ∧ fst (sendRequest follow req (OptionsObject l) x hops w)
            = Rejected (NativeError "ERR_INVALID_ARG_TYPE")
      | None => written c' = written c ∧ ended c' = true
      end.
Proof.
  intros Hfollow Ho Hjson Hc.
  assert (Hkeeps : ∀ nh nr open w0 urls res options depth hops,
            keeps nh nr open w0 (follow urls res options depth hops) (λ _, True)).
  { intros. destruct Hfollow as [-> | ->];
      [apply keeps_followRedirects | apply keeps_followRedirects_js]. }
  assert (Hlt : (req < length (requests w))%nat) by now apply lookup_lt_Some in Hc.
  pose proof (λ c1, sendRequest_after_body follow l o req c1 x hops w Hkeeps Ho)
    as Hsent.
  cbv beta in Hsent.
  assert (Hbody : send_body req o w =
            match o !! "body" with
            | Some v => write req v w
            | None => (Returned tt, w)
            end).
  { unfold send_body, isHostBodyJsonOptions, isUrlBodyJsonOptions,
      isHostBodyOptions, isUrlBodyOptions, has, get.
    rewrite Hjson. cbn [orb]. now destruct (o !! "body"). }
  rewrite Hbody in Hsent. clear Hbody.
  destruct (o !! "body") as [v |].
  - destruct v as [| | b | n | text | fields];
      try (destruct (Hsent c Hc) as (c' & Hc' & Hh & Hw & He & Hp);
           exists c'; cbn in *; now auto).
    unfold write, bind in Hsent. rewrite (update_request_at _ _ _ _ Hc) in Hsent.
    cbn [fst snd ret requests] in Hsent.
    edestruct Hsent as (c' & Hc' & Hh & Hw & He).
    { now apply list_lookup_insert_eq. }
    exists c'. cbn in *. auto.
  - destruct (Hsent c Hc) as (c' & Hc' & Hh & Hw & He).
    exists c'. cbn in *. auto.
Qed.

(** ** A URL that cannot be formatted *)

Lemma get_method_set o v k :
  k ≠ "method" → get (<[ "method" := v ]> o) k = get o k.
Proof. intros Hk. unfold get. now rewrite lookup_insert_ne. Qed.

(** X5.  When the [url] option is a string that does not parse, or is no
    string while the [host] option is absent or falsy, [createRequest]
    throws [InvalidUrl] and no request reaches the transport, although
    the options object has been given its [method] by then; [request]
    throws the same error instead of returning a rejected promise, and
    the promise of [requestBody] is rejected with it. *)
Theorem unformattable_url_is_thrown (follow : resolver) l o x hops w :
  heap w !! l = Some o →
  match o !! "url" with
  | Some (VStr u) => new_URL u None = None
  | _ => truthy (get o "host") = false
  end →
  let e := RequiemError InvalidUrl "URL could not be formatted properly" None None in
  fst (createRequest (OptionsObject l) w) = Thrown e
  ∧ requests (snd (createRequest (OptionsObject l) w)) = requests w
  ∧ heap (snd (createRequest (OptionsObject l) w)) !! l =
      Some (<[ "method" := js_or (get o "method") (VStr "GET") ]> o)
  ∧ fst (request follow (OptionsObject l) x hops w) = Thrown e
  ∧ requests (snd (request follow (OptionsObject l) x hops w)) = requests w
  ∧ fst (requestBody follow (OptionsObject l) x hops w) = (Rejected e, Thrown e).
Proof.
  intros Ho Hurl e.
  assert (Hl : (l < length (heap w))%nat) by now apply lookup_lt_Some in Ho.
  pose proof (createRequest_object l o w Ho) as Hcreate. cbv zeta in Hcreate.
  assert (Hnone :
    (if isUrlOptions (<[ "method" := js_or (get o "method") (VStr "GET") ]> o)
     then new_URL (to_str (get (<[ "method" := js_or (get o "method") (VStr "GET") ]> o)
                               "url")) None
     else formatUrl (<[ "method" := js_or (get o "method") (VStr "GET") ]> o)) = None).
  { unfold isUrlOptions, formatUrl. rewrite !get_method_set by discriminate.
    unfold get at 1 2. destruct (o !! "url") as [[| | b | n | u | fields] |];
      cbn [default typeof to_str]; try exact Hurl; now rewrite Hurl. }
  rewrite Hnone in Hcreate.
  assert (Hrequest : request follow (OptionsObject l) x hops w =
            (Thrown e, snd (createRequest (OptionsObject l) w))).
  { unfold request. cbn [getObjectionsObject]. unfold bind at 1. cbn [ret].
    unfold bind at 1. now rewrite Hcreate. }
  repeat split.
  - now rewrite Hcreate.
  - now rewrite Hcreate.
  - rewrite Hcreate. cbn [snd heap]. rewrite lookup_app_l
      by now rewrite length_insert.
    now apply list_lookup_insert_eq.
  - now rewrite Hrequest.
  - now rewrite Hrequest, Hcreate.
  - unfold requestBody, bind. now rewrite Hrequest.
Qed.

(** X16.  When the URL of the options can be formatted but the
    transport throws instead of making the request, [createRequest]
    throws the exception of the transport as it is, not [InvalidUrl]:
    [lib.request] is called after the [try].  No request is made, the
    options object has been given its [method] by then, [request]
    throws the same instead of returning a promise, and the promise of
    [requestBody] is rejected with it. *)
Theorem transport_exception_is_not_wrapped (follow : resolver) l o x hops w urlStr e :
  heap w !! l = Some o →
  (if isUrlOptions o then new_URL (to_str (get o "url")) None else formatUrl o)
  = Some urlStr →
  request_throws (if String.prefix "https:" urlStr then https else http) urlStr
    (transport_options (<[ "method" := js_or (get o "method") (VStr "GET") ]> o))
  = Some e →
  fst (createRequest (OptionsObject l) w) = Thrown e
  ∧ requests (snd (createRequest (OptionsObject l) w)) = requests w
  ∧ heap (snd (createRequest (OptionsObject l) w)) !! l =
      Some (<[ "method" := js_or (get o "method") (VStr "GET") ]> o)
  ∧ fst (request follow (OptionsObject l) x hops w) = Thrown e
  ∧ requests (snd (request follow (OptionsObject l) x hops w)) = requests w
  ∧ fst (requestBody follow (OptionsObject l) x hops w) = (Rejected e, Thrown e).
Proof.
  intros Ho Hurl Hthrows.
  assert (Hl : (l < length (heap w))%nat) by now apply lookup_lt_Some in Ho.
  pose proof (createRequest_object l o w Ho) as Hcreate. cbv zeta in Hcreate.
  assert (Hsame :
    (if isUrlOptions (<[ "method" := js_or (get o "method") (VStr "GET") ]> o)
     then new_URL (to_str (get (<[ "method" := js_or (get o "method") (VStr "GET") ]> o)
                               "url")) None
     else formatUrl (<[ "method" := js_or (get o "method") (VStr "GET") ]> o))
    = Some urlStr).
  { rewrite <- Hurl. unfold isUrlOptions, formatUrl.
    now rewrite !get_method_set by discriminate. }
  rewrite Hsame, Hthrows in Hcreate.
  assert (Hrequest : request follow (OptionsObject l) x hops w =
            (Thrown e, snd (createRequest (OptionsObject l) w))).
  { unfold request. cbn [getObjectionsObject]. unfold bind at 1. cbn [ret].
    unfold bind at 1. now rewrite Hcreate. }
  split_and!.
  - now rewrite Hcreate.
  - now rewrite Hcreate.
  - rewrite Hcreate. cbn [snd heap]. rewrite lookup_app_l
      by now rewrite length_insert.
    now apply list_lookup_insert_eq.
  - now rewrite Hrequest.
  - now rewrite Hrequest, Hcreate.
  - unfold requestBody, bind. now rewrite Hrequest.
Qed.

(** ** The number of requests *)

Lemma issues_ret {A} l o (a : A) : issues l o 0 (ret a).
Proof. intros w Ho. cbn. split; [exact Ho | lia]. Qed.

Lemma issues_bind {A B} l o k1 k2 (c : M A) (k : A → M B) :
  issues l o k1 c → (∀ a, issues l o k2 (k a)) → issues l o (k1 + k2) (bind c k).
Proof.
  intros Hc Hk w Ho. unfold bind.
  destruct (Hc w Ho) as [Ho1 Hn1]. destruct (c w) as [a w1]. cbn [snd] in *.
  destruct (Hk a w1 Ho1) as [Ho2 Hn2]. split; [exact Ho2 | lia].
Qed.

Lemma issues_weaken {A} l o k k' (c : M A) :
  (k ≤ k')%nat → issues l o k c → issues l o k' c.
Proof. intros Hk Hc w Ho. destruct (Hc w Ho) as [Ho1 Hn1]. split; [exact Ho1 | lia]. Qed.

Lemma issues_only {A} l o (c : M A) :
  (∀ w, requests_only w (snd (c w))) → issues l o 0 c.
Proof.
  intros Hc w Ho. destruct (Hc w) as [Hheap Hlen]. rewrite Hheap, Hlen.
  split; [exact Ho | lia].
Qed.

Lemma issues_update_request l o r f : issues l o 0 (update_request r f).
Proof. apply issues_only. intros w. apply update_request_only. Qed.

Lemma issues_load l o l' : issues l o 0 (load l').
Proof. intros w Ho. cbn. split; [exact Ho | lia]. Qed.

Lemma issues_is_aborted l o r : issues l o 0 (is_aborted r).
Proof. intros w Ho. cbn. split; [exact Ho | lia]. Qed.

Lemma issues_abort l o r : issues l o 0 (abort r).
Proof.
  unfold abort. apply (issues_bind l o 0 0); [apply issues_is_aborted |].
  intros a. apply (issues_bind l o 0 0); [apply issues_update_request |].
  intros []. apply issues_ret.
Qed.

Lemma issues_on_abort l o req options s : issues l o 0 (on_abort req options s).
Proof.
  unfold on_abort. destruct (rejected s); [apply issues_ret |].
  cbn [timedOut]. destruct (timedOut s); [| apply issues_ret].
  apply (issues_bind l o 0 0); [apply issues_load |]. intros. apply issues_ret.
Qed.

Lemma issues_deliver l o req options s sig : issues l o 0 (deliver req options s sig).
Proof.
  destruct sig; cbn [deliver].
  - apply issues_ret.
  - unfold on_timeout. apply (issues_bind l o 0 0); [apply issues_is_aborted |].
    intros a. destruct (negb a); [| apply issues_ret].
    apply (issues_bind l o 0 0); [apply issues_abort |].
    intros []; [apply issues_on_abort | apply issues_ret].
  - apply issues_on_abort.
  - apply (issues_bind l o 0 0); [apply issues_abort |].
    intros []; [apply issues_on_abort | apply issues_ret].
Qed.

Lemma issues_deliver_all l o req options sigs s :
  issues l o 0 (deliver_all req options s sigs).
Proof.
  revert s. induction sigs as [| sig sigs IH]; intros s; cbn [deliver_all].
  - apply issues_ret.
  - apply (issues_bind l o 0 0); [apply issues_deliver |].
    intros [s1 calls]. apply (issues_bind l o 0 0); [apply IH |].
    intros [s2 calls2]. apply issues_ret.
Qed.

Lemma issues_run_exchange l o k req options x on_response p :
  (∀ res, issues l o k (on_response res)) →
  issues l o k (run_exchange req options x on_response p).
Proof.
  intros Hresponse. unfold run_exchange.
  apply (issues_bind l o 0 k); [apply issues_deliver_all |].
  intros [s calls].
  apply (issues_weaken l o (k + 0)); [lia |].
  apply (issues_bind l o k 0).
  - destruct (response x) as [res |].
    + apply (issues_weaken l o (k + 0)); [lia |].
      apply (issues_bind l o k 0); [apply Hresponse |]. intros q. apply issues_ret.
    + apply (issues_weaken l o 0); [lia | apply issues_ret].
  - intros p1. apply (issues_bind l o 0 0); [apply issues_deliver_all |].
    intros [s2 calls2]. apply issues_ret.
Qed.

Lemma issues_hop l o k newUrl x recurse :
  (∀ res, issues l o k (recurse res)) →
  issues l o (S k) (hop l newUrl x recurse).
Proof.
  intros Hrecurse w Ho.
  destruct (hop_run l newUrl x recurse o w Ho) as (h & l1 & Hh & ->).
  destruct (new_URL newUrl None) as [href |];
    [destruct (hop_throws o newUrl href) as [e |] |].
  2: {
    match goal with |- context [run_exchange ?r l1 x ?k1 Pending ?w1] =>
      destruct (issues_run_exchange l o k r l1 x k1 Pending
                  (λ res, Hrecurse _) w1) as [Ho1 Hn1] end.
    { cbn [heap]. now apply Hh. }
    split; [exact Ho1 |]. cbn [requests] in Hn1. rewrite length_app in Hn1.
    cbn in Hn1. lia. }
  all: cbn; split; [now apply Hh | lia].
Qed.

Lemma maxDepth_of_limit o limit :
  limit_of o limit →
  js_or (get o "followRedirects") (VNum defaultFollowRedirects)
  = VNum (maxDepth_of limit).
Proof.
  intros [Habsent | n Hn].
  - now rewrite (get_absent _ _ Habsent).
  - rewrite (get_at _ _ _ Hn). unfold maxDepth_of.
    destruct (Z.eqb_spec n 0) as [-> | Hnz]; [reflexivity |].
    now apply js_or_number.
Qed.

Lemma maxDepth_js_of_limit o limit :
  limit_of o limit →
  strict_eq (get o "followRedirects") (VBool false) = false
  ∧ match typeof (get o "followRedirects") with
    | TUndefined => VNum defaultFollowRedirects
    | _ => get o "followRedirects"
    end = VNum limit.
Proof.
  intros [Habsent | n Hn].
  - now rewrite (get_absent _ _ Habsent).
  - now rewrite (get_at _ _ _ Hn).
Qed.

Lemma allowance_step limit depth :
  (Z.of_nat depth ≤ limit)%Z → allowance limit depth = S (allowance limit (S depth)).
Proof. unfold allowance. lia. Qed.

Lemma issues_done {A} l o k (a : A) : issues l o k (ret a).
Proof. apply (issues_weaken l o 0); [lia | apply issues_ret]. Qed.

Lemma followRedirects_step urls res l o limit depth hops w :
  heap w !! l = Some o →
  limit_of o limit →
  followRedirects urls res l depth hops w =
    (if (maxDepth_of limit <? Z.of_nat depth)%Z then
       ret (Rejected (RequiemError TooManyRedirects
              (too_many_message urls (VNum (maxDepth_of limit))) None (Some res)))
     else if final (of_number (statusCode (incoming res)))
                   (of_string (headers (incoming res) !! "location"))
     then ret (Fulfilled res)
     else
       match new_URL (to_str (of_string (headers (incoming res) !! "location")))
                     (last urls) with
       | None =>
           ret (Rejected (RequiemError InvalidRedirectUrl
                  ("Invalid redirect URL: " +:+
                   to_str (of_string (headers (incoming res) !! "location")))
                  None (Some res)))
       | Some newUrl =>
           hop l newUrl (hd silence hops) (fun reqRes =>
             match hops with
             | [] => ret Pending
             | _ :: hops =>
                 followRedirects (urls ++ [newUrl]) reqRes l (S depth) hops
             end)
       end) w.
Proof.
  intros Ho Hlimit. rewrite followRedirects_unfold. cbv zeta. unfold bind at 1.
  rewrite (load_at _ _ _ Ho), (maxDepth_of_limit _ _ Hlimit).
  unfold js_gt. cbn [to_number].
  destruct (_ <? _)%Z; [reflexivity |].
  destruct (final _ _); [reflexivity |].
  destruct (new_URL _ _); [| reflexivity].
  now destruct hops.
Qed.

Lemma followRedirects_js_step urls res l o limit depth hops w :
  heap w !! l = Some o →
  limit_of o limit →
  followRedirects_js urls res l depth hops w =
    (if (limit <? Z.of_nat depth)%Z then
       ret (Rejected (RequiemError TooManyRedirects
              (too_many_message urls (VNum limit)) None (Some res)))
     else if final (of_number (statusCode (incoming res)))
                   (of_string (headers (incoming res) !! "location"))
     then ret (Fulfilled res)
     else
       match new_URL (to_str (of_string (headers (incoming res) !! "location")))
                     (last urls) with
       | None =>
           ret (Rejected (RequiemError InvalidRedirectUrl
                  ("Invalid redirect URL: " +:+
                   to_str (of_string (headers (incoming res) !! "location")))
                  None (Some res)))
       | Some newUrl =>
           hop l newUrl (hd silence hops) (fun reqRes =>
             match hops with
             | [] => ret Pending
             | _ :: hops =>
                 followRedirects_js (urls ++ [newUrl]) reqRes l (S depth) hops
             end)
       end) w.
Proof.
  intros Ho Hlimit. destruct (maxDepth_js_of_limit _ _ Hlimit) as [Hfalse Hmax].
  rewrite followRedirects_js_unfold. cbv zeta. unfold bind at 1.
  rewrite (load_at _ _ _ Ho), Hfalse, Hmax.
  unfold js_gt. cbn [to_number].
  destruct (_ <? _)%Z; [reflexivity |].
  destruct (final _ _); [reflexivity |].
  destruct (new_URL _ _); [| reflexivity].
  now destruct hops.
Qed.

Lemma issues_followRedirects urls res l o limit depth hops :
  limit_of o limit →
  issues l o (allowance (maxDepth_of limit) depth)
    (followRedirects urls res l depth hops).
Proof.
  intros Hlimit. revert urls res depth.
  induction hops as [| x hops IH]; intros urls res depth w Ho;
    rewrite (followRedirects_step _ _ _ _ _ _ _ _ Ho Hlimit);
    (destruct (Z.ltb_spec (maxDepth_of limit) (Z.of_nat depth)) as [Hover | Hin];
     [now apply issues_done |]);
    (destruct (final _ _); [now apply issues_done |]);
    (destruct (new_URL _ _) as [newUrl |]; [| now apply issues_done]);
    rewrite (allowance_step _ _ Hin); apply issues_hop; try exact Ho; intros reqRes.
  - apply issues_done.
  - apply IH.
Qed.

Lemma issues_followRedirects_js urls res l o limit depth hops :
  limit_of o limit →
  issues l o (allowance limit depth) (followRedirects_js urls res l depth hops).
Proof.
  intros Hlimit. revert urls res depth.
  induction hops as [| x hops IH]; intros urls res depth w Ho;
    rewrite (followRedirects_js_step _ _ _ _ _ _ _ _ Ho Hlimit);
    (destruct (Z.ltb_spec limit (Z.of_nat depth)) as [Hover | Hin];
     [now apply issues_done |]);
    (destruct (final _ _); [now apply issues_done |]);
    (destruct (new_URL _ _) as [newUrl |]; [| now apply issues_done]);
    rewrite (allowance_step _ _ Hin); apply issues_hop; try exact Ho; intros reqRes.
  - apply issues_done.
  - apply IH.
Qed.

Lemma issues_sendRequest (follow : resolver) l o k req x hops :
  (∀ urls res depth hops, issues l o k (follow urls res l depth hops)) →
  issues l o k (sendRequest follow req (OptionsObject l) x hops).
Proof.
  intros Hfollow w Ho. rewrite (sendRequest_run _ _ _ _ _ _ _ Ho).
  assert (Hhandler : ∀ res, issues l o k (responseHandler follow req res l hops)).
  { intros res. unfold responseHandler.
    apply (issues_bind l o 0 k).
    { intros w1 Ho1. cbn. split; [exact Ho1 | lia]. }
    intros url. apply (issues_weaken l o (k + 0)); [lia |].
    apply (issues_bind l o k 0); [apply Hfollow |].
    intros [| result | e]; try apply issues_ret.
    apply (issues_bind l o 0 0); [apply issues_load |].
    intros o1. destruct (has o1 "throwOnErrorResponse"); [| apply issues_ret].
    destruct (typeof _);
      match goal with |- context [if ?b then _ else _] => destruct b end;
      apply issues_ret. }
  destruct (send_body_only req o w) as [Hheap Hlen].
  destruct (send_body req o w) as [[[] | e] w1]; cbn [snd] in *.
  - destruct (update_request_only req
                (λ c, {| transport := transport c; target := target c;
                         httpOptions := httpOptions c;
                         req_requestedUrl := req_requestedUrl c;
                         sent_headers := sent_headers c; written := written c;
                         ended := true; aborted := aborted c |}) w1)
      as [Hheap2 Hlen2].
    fold (end_ req) in Hheap2, Hlen2.
    destruct (issues_run_exchange l o k req l x _ Pending Hhandler
                (snd (end_ req w1))) as [Ho2 Hn2];
      [congruence |].
    split; [exact Ho2 | lia].
  - destruct (issues_run_exchange l o k req l x _ (Rejected e) Hhandler w1)
      as [Ho2 Hn2]; [congruence |].
    split; [exact Ho2 | lia].
Qed.

(** X6.  However the servers answer and whatever signals arrive,
    [sendRequest] issues a bounded number of further requests: at most
    one more than the maximum of redirects.  The maximum is the
    [followRedirects] option, or 5 when it is absent; the source edition
    takes 5 for an option of 0 as well.  The options object is as it was
    afterwards. *)
Theorem redirects_are_bounded l o limit req x hops w :
  heap w !! l = Some o →
  limit_of o limit →
  (heap (snd (sendRequest followRedirects req (OptionsObject l) x hops w)) !! l
     = Some o
   ∧ (length (requests (snd (sendRequest followRedirects req (OptionsObject l)
                               x hops w)))
      ≤ length (requests w) + Z.to_nat (maxDepth_of limit + 1))%nat)
  ∧ (heap (snd (sendRequest followRedirects_js req (OptionsObject l) x hops w)) !! l
       = Some o
     ∧ (length (requests (snd (sendRequest followRedirects_js req (OptionsObject l)
                                 x hops w)))
        ≤ length (requests w) + Z.to_nat (limit + 1))%nat).
Proof.
  intros Ho Hlimit. split.
  - apply (issues_sendRequest followRedirects l o (Z.to_nat (maxDepth_of limit + 1)));
      [| exact Ho].
    intros urls res depth hops'.
    apply (issues_weaken l o (allowance (maxDepth_of limit) depth));
      [unfold allowance; lia | now apply issues_followRedirects].
  - apply (issues_sendRequest followRedirects_js l o (Z.to_nat (limit + 1)));
      [| exact Ho].
    intros urls res depth hops'.
    apply (issues_weaken l o (allowance limit depth));
      [unfold allowance; lia | now apply issues_followRedirects_js].
Qed.

(** ** What a fulfilled promise holds *)

Lemma reject_all_fulfilled {A} (p : promise A) calls a :
  reject_all p calls = Fulfilled a → p = Fulfilled a.
Proof.
  destruct p as [| a' | e]; intros H.
  - destruct calls as [| c calls]; [exact H |].
    rewrite reject_all_first in H. discriminate.
  - now rewrite reject_all_settled in H.
  - now rewrite reject_all_settled in H.
Qed.

Lemma fulfils_run_exchange l o P req options x on_response :
  (∀ res, fulfils l o P (on_response res)) →
  fulfils l o P (run_exchange req options x on_response Pending).
Proof.
  intros Hresponse w Ho r. unfold run_exchange, bind.
  destruct (issues_deliver_all l o req options (early x) wireRequestEvents w Ho)
    as [Ho1 _].
  destruct (deliver_all req options wireRequestEvents (early x) w)
    as [[s calls] w1]. cbn [snd] in Ho1.
  destruct (response x) as [res |].
  - pose proof (Hresponse res w1 Ho1 r) as Hq.
    destruct (on_response res w1) as [q w2]. cbn [ret fst] in *.
    destruct (deliver_all req options s (late x) w2) as [[s' calls'] w3].
    cbn [fst]. intros Hr. apply reject_all_fulfilled in Hr.
    destruct (reject_all Pending calls) as [| a | e] eqn:Hp; cbn [settle] in Hr.
    + now apply Hq.
    + apply reject_all_fulfilled in Hp. discriminate.
    + discriminate.
  - cbn [ret].
    destruct (deliver_all req options s (late x) w1) as [[s' calls'] w3].
    cbn [fst]. intros Hr. do 2 apply reject_all_fulfilled in Hr. discriminate.
Qed.

Lemma fulfils_hop l o P newUrl x recurse :
  (∀ res, fulfils l o P (recurse res)) →
  fulfils l o P (hop l newUrl x recurse).
Proof.
  intros Hrecurse w Ho r.
  destruct (hop_run l newUrl x recurse o w Ho) as (h & l1 & Hh & ->).
  destruct (new_URL newUrl None) as [href |]; [| discriminate].
  destruct (hop_throws o newUrl href) as [e |]; [discriminate |].
  refine (fulfils_run_exchange l o P _ _ _ _ (λ res, Hrecurse _) _ _ r).
  cbn [heap]. now apply Hh.
Qed.

Lemma fulfils_followRedirects urls res l o limit depth hops :
  limit_of o limit →
  fulfils l o is_final (followRedirects urls res l depth hops).
Proof.
  intros Hlimit. revert urls res depth.
  induction hops as [| x hops IH]; intros urls res depth w Ho r;
    rewrite (followRedirects_step _ _ _ _ _ _ _ _ Ho Hlimit);
    (destruct (_ <? _)%Z; [discriminate |]);
    (destruct (final _ _) eqn:Hfinal; [now intros [= <-] |]);
    (destruct (new_URL _ _) as [newUrl |]; [| discriminate]);
    refine (fulfils_hop l o is_final _ _ _ _ w Ho r); intros reqRes.
  - intros w1 _ r1. discriminate.
  - apply IH.
Qed.

Lemma fulfils_followRedirects_js urls res l o limit depth hops :
  limit_of o limit →
  fulfils l o is_final (followRedirects_js urls res l depth hops).
Proof.
  intros Hlimit. revert urls res depth.
  induction hops as [| x hops IH]; intros urls res depth w Ho r;
    rewrite (followRedirects_js_step _ _ _ _ _ _ _ _ Ho Hlimit);
    (destruct (_ <? _)%Z; [discriminate |]);
    (destruct (final _ _) eqn:Hfinal; [now intros [= <-] |]);
    (destruct (new_URL _ _) as [newUrl |]; [| discriminate]);
    refine (fulfils_hop l o is_final _ _ _ _ w Ho r); intros reqRes.
  - intros w1 _ r1. discriminate.
  - apply IH.
Qed.

Lemma fulfils_sendRequest (follow : resolver) l o k req x hops :
  (∀ urls res depth hops, issues l o k (follow urls res l depth hops)) →
  (∀ urls res depth hops, fulfils l o is_final (follow urls res l depth hops)) →
  fulfils l o (λ r, is_final r ∧ meets_policy o r)
    (sendRequest follow req (OptionsObject l) x hops).
Proof.
  intros Hissues Hfollow w Ho r. rewrite (sendRequest_run _ _ _ _ _ _ _ Ho).
  assert (Hhandler : ∀ res,
            fulfils l o (λ r, is_final r ∧ meets_policy o r)
              (responseHandler follow req res l hops)).
  { intros res w1 Ho1 r1. unfold responseHandler.
    unfold bind at 1, requestedUrl_of at 1. cbv beta iota.
    unfold bind at 1.
    match goal with |- context [follow ?urls ?reqRes l 0%nat hops w1] =>
      pose proof (Hfollow urls reqRes 0%nat hops w1 Ho1) as Hfinal;
      destruct (Hissues urls reqRes 0%nat hops w1 Ho1) as [Ho2 _];
      destruct (follow urls reqRes l 0%nat hops w1) as [[| result | e] w2]
    end; cbn [fst snd] in *; try discriminate.
    specialize (Hfinal result eq_refl).
    unfold bind. rewrite (load_at _ _ _ Ho2).
    unfold meets_policy, has, get.
    destruct (o !! "throwOnErrorResponse") as [policy |];
      cbn [default from_option id]; [| now intros [= <-]].
    destruct policy as [| | b | n | text | fields]; cbn [typeof];
      try (destruct (_ && _ && _) eqn:Hcheck; [discriminate |];
           intros [= <-]; split; [exact Hfinal |];
           intros Htrue c Hc; rewrite Htrue, Hc in Hcheck;
           unfold js_ge in Hcheck; cbn in Hcheck;
           destruct (Z.eqb_spec c 0); [lia |];
           cbn in Hcheck; now apply Z.leb_gt in Hcheck).
    destruct (strict_eq _ _) eqn:Hcheck; cbn [negb]; [| discriminate].
    intros [= <-]. split; [exact Hfinal |].
    destruct (statusCode (incoming result)) as [c |]; [| discriminate].
    cbn in Hcheck. apply Z.eqb_eq in Hcheck. now subst. }
  destruct (send_body_only req o w) as [Hheap Hlen].
  destruct (send_body req o w) as [[[] | e] w1]; cbn [snd] in *.
  - refine (fulfils_run_exchange l o _ _ _ _ _ Hhandler _ _ r).
    unfold end_, update_request. cbn [snd heap]. congruence.
  - rewrite run_exchange_settled by discriminate. discriminate.
Qed.

(** X7.  A promise that [sendRequest] fulfils holds a response at which
    the resolver stops, one with no status code, a status code outside
    [300, 400) or no [Location] header, not a redirect that was left
    unfollowed; and the response passes the check of
    [throwOnErrorResponse].  For a [followRedirects] option that is a
    number or absent, in both editions, whatever the servers answer and
    whatever signals arrive. *)
Theorem fulfilled_response_is_final l o limit req x hops w r :
  heap w !! l = Some o →
  limit_of o limit →
  (fst (sendRequest followRedirects req (OptionsObject l) x hops w) = Fulfilled r →
   is_final r ∧ meets_policy o r)
  ∧ (fst (sendRequest followRedirects_js req (OptionsObject l) x hops w) = Fulfilled r →
     is_final r ∧ meets_policy o r).
Proof.
  intros Ho Hlimit. split.
  - refine (fulfils_sendRequest followRedirects l o
              (Z.to_nat (maxDepth_of limit + 1)) _ _ _ _ _ w Ho r).
    + intros urls res depth hops'.
      apply (issues_weaken l o (allowance (maxDepth_of limit) depth));
        [unfold allowance; lia | now apply issues_followRedirects].
    + intros. now apply (fulfils_followRedirects _ _ _ _ limit).
  - refine (fulfils_sendRequest followRedirects_js l o (Z.to_nat (limit + 1))
              _ _ _ _ _ w Ho r).
    + intros urls res depth hops'.
      apply (issues_weaken l o (allowance limit depth));
        [unfold allowance; lia | now apply issues_followRedirects_js].
    + intros. now apply (fulfils_followRedirects_js _ _ _ _ limit).
Qed.

(** ** The body of the response *)

Lemma requestBody_run (follow : resolver) options x hops w :
  requestBody follow options x hops w =
    (match fst (request follow options x hops w) with
     | Thrown e => (Rejected e, Thrown e)
     | Returned Pending => (Pending, Returned Pending)
     | Returned (Rejected e) => (Rejected e, Returned (Rejected e))
     | Returned (Fulfilled res) =>
         (fst (consume res (stream (incoming res)) [] (Fulfilled res) Pending),
          Returned (snd (consume res (stream (incoming res)) []
                           (Fulfilled res) Pending)))
     end,
     snd (request follow options x hops w)).
Proof.
  unfold requestBody, bind.
  destruct (request follow options x hops w) as [[[| res | e] | e] w1];
    try reflexivity.
  cbn [fst snd]. now destruct (consume _ _ _ _ _).
Qed.

(** X8.  When [request] fulfils its promise with a response whose stream
    comes to an end, [requestBody] fulfils its own with the same
    response and, for the body, the chunks received before the first
    [end], concatenated in the order received; what the stream emits
    after that changes nothing.  [requestBody] issues no request of its
    own. *)
Theorem body_is_the_chunks_before_end (follow : resolver) options x hops w
    res before after :
  fst (request follow options x hops w) = Returned (Fulfilled res) →
  stream (incoming res) = (before ++ EndOfStream :: after)%list →
  EndOfStream ∉ before →
  fst (fst (requestBody follow options x hops w)) =
    Fulfilled {| response_of := res;
                 body := String.concat EmptyString (chunks before) |}
  ∧ snd (requestBody follow options x hops w) = snd (request follow options x hops w).
Proof.
  intros Hsent Hstream Hfirst. rewrite requestBody_run, Hsent, Hstream.
  cbn [fst snd]. split; [| reflexivity].
  now rewrite consume_at_end.
Qed.

Lemma first_end (events : list stream_event) :
  EndOfStream ∈ events →
  ∃ before after,
    events = (before ++ EndOfStream :: after)%list ∧ EndOfStream ∉ before.
Proof.
  induction events as [| ev events IH]; intros Hin.
  - now apply elem_of_nil in Hin.
  - destruct ev as [chunk | | message].
    + apply elem_of_cons in Hin as [Hin | Hin]; [discriminate |].
      destruct (IH Hin) as (before & after & -> & Hfirst).
      exists (Data chunk :: before), after. split; [reflexivity |].
      apply not_elem_of_cons. split; [discriminate | exact Hfirst].
    + exists [], events. split; [reflexivity | apply not_elem_of_nil].
    + apply elem_of_cons in Hin as [Hin | Hin]; [discriminate |].
      destruct (IH Hin) as (before & after & -> & Hfirst).
      exists (StreamError message :: before), after. split; [reflexivity |].
      apply not_elem_of_cons. split; [discriminate | exact Hfirst].
Qed.

(** X9.  The promise of [requestBody] is rejected exactly when [request]
    throws or rejects, and with the same error: no event of the stream
    of the response rejects it.  It stays pending exactly when the
    promise of [request] does, or when the stream of the response never
    emits [end]. *)
Theorem requestBody_fails_as_request_does (follow : resolver) options x hops w :
  (∀ e, fst (fst (requestBody follow options x hops w)) = Rejected e ↔
        (fst (request follow options x hops w) = Thrown e
         ∨ fst (request follow options x hops w) = Returned (Rejected e)))
  ∧ (fst (fst (requestBody follow options x hops w)) = Pending ↔
       (fst (request follow options x hops w) = Returned Pending
        ∨ ∃ res, fst (request follow options x hops w) = Returned (Fulfilled res)
                 ∧ EndOfStream ∉ stream (incoming res))).
Proof.
  rewrite requestBody_run.
  destruct (fst (request follow options x hops w)) as [[| res | e0] | e0];
    cbn [fst]; (split; [intros e | ]); split;
    try (intros [H | H]; congruence);
    try (intros [H | (res' & H & _)]; congruence);
    try (intros [= <-]; now auto); try discriminate; try (now auto).
  - intros H. now apply consume_never_rejects in H.
  - intros H. right. exists res. split; [reflexivity |].
    intros Hin. apply first_end in Hin as (before & after & Hs & Hfirst).
    rewrite Hs, (consume_at_end _ _ _ _ _ Hfirst) in H. discriminate.
  - intros [H | (res' & [= <-] & Hnot)]; [discriminate |].
    now rewrite consume_without_end.
Qed.

(** ** A request by URL *)

Lemma responseHandler_plain (follow : resolver) l o req c hops w inc :
  follow = followRedirects ∨ follow = followRedirects_js →
  heap w !! l = Some o →
  requests w !! req = Some c →
  o !! "followRedirects" = None →
  o !! "throwOnErrorResponse" = None →
  non_redirect {| incoming := inc; requestedUrl := req_requestedUrl c |} →
  responseHandler follow req inc l hops w =
    (Fulfilled {| incoming := inc; requestedUrl := req_requestedUrl c |}, w).
Proof.
  intros Hfollow Ho Hc Hlimit Hpolicy Hplain.
  unfold responseHandler.
  unfold bind at 1, requestedUrl_of at 1. rewrite Hc. unfold bind at 1.
  match goal with |- context [follow ?urls ?r l 0%nat hops w] =>
    assert (Hstop : follow urls r l 0%nat hops w = (Fulfilled r, w)) end.
  { destruct Hfollow as [-> | ->].
    - rewrite (followRedirects_step _ _ _ o defaultFollowRedirects)
        by (try exact Ho; now constructor).
      cbn [Z.ltb Z.compare Z.of_nat maxDepth_of defaultFollowRedirects Z.eqb].
      now rewrite (non_redirect_final _ Hplain).
    - rewrite (followRedirects_js_step _ _ _ o defaultFollowRedirects)
        by (try exact Ho; now constructor).
      cbn [Z.ltb Z.compare Z.of_nat defaultFollowRedirects].
      now rewrite (non_redirect_final _ Hplain). }
  rewrite Hstop. unfold bind at 1. rewrite (load_at _ _ _ Ho).
  unfold has. now rewrite Hpolicy.
Qed.

Lemma sendRequest_plain (follow : resolver) l o req c x hops w inc :
  follow = followRedirects ∨ follow = followRedirects_js →
  heap w !! l = Some o →
  requests w !! req = Some c →
  o !! "followRedirects" = None →
  o !! "throwOnErrorResponse" = None →
  o !! "body" = None →
  o !! "bodyJson" = None →
  early x = [] →
  response x = Some inc →
  non_redirect {| incoming := inc; requestedUrl := req_requestedUrl c |} →
  fst (sendRequest follow req (OptionsObject l) x hops w) =
    Fulfilled {| incoming := inc; requestedUrl := req_requestedUrl c |}.
Proof.
  intros Hfollow Ho Hc Hlimit Hpolicy Hbody Hjson Hearly Hresponse Hplain.
  rewrite (sendRequest_run _ _ _ _ _ _ _ Ho).
  unfold send_body, isHostBodyJsonOptions, isUrlBodyJsonOptions,
    isHostBodyOptions, isUrlBodyOptions, has.
  rewrite Hjson, Hbody. cbn [orb ret].
  unfold end_. rewrite (update_request_at _ _ _ _ Hc). cbn [snd].
  unfold run_exchange, bind. rewrite Hearly, Hresponse. cbn [deliver_all ret].
  match goal with
  |- context [responseHandler follow req inc l hops
                {| heap := ?h; requests := <[ req := ?c2 ]> ?rs |}] =>
    rewrite (responseHandler_plain follow l o req c2 hops
               {| heap := h; requests := <[ req := c2 ]> rs |} inc Hfollow Ho)
  end; try assumption.
  - cbn [settle reject_all fold_left req_requestedUrl]. unfold ret at 1.
    destruct (deliver_all _ _ _ _ _) as [[s calls] w2]. cbn [ret fst].
    now apply reject_all_settled.
  - cbn [requests]. apply list_lookup_insert_eq. now apply lookup_lt_Some in Hc.
Qed.

(** X12.  [request] with a URL string that parses, answered at once by
    a response that is no redirect: the string is wrapped in a new
    options object, one request is made to the parsed URL over [https]
    or [http] by its scheme, with the method GET, no header set and
    nothing written, and is ended; the promise is fulfilled with the
    response, tagged with the parsed URL, and no later signal changes
    that.  When the transport throws instead of making the request,
    [request] throws the same and no request is made.  Either way the
    objects and requests that existed are as they were.  Under either
    resolver. *)
Theorem request_by_url_string (follow : resolver) u href x hops w inc :
  follow = followRedirects ∨ follow = followRedirects_js →
  new_URL u None = Some href →
  early x = [] →
  response x = Some inc →
  non_redirect {| incoming := inc; requestedUrl := href |} →
  match request_throws (if String.prefix "https:" href then https else http) href
                       {[ "url" := VStr u; "method" := VStr "GET" ]} with
  | None =>
      fst (request follow (OptionsString u) x hops w) =
        Returned (Fulfilled {| incoming := inc; requestedUrl := href |})
      ∧ (∃ c, requests (snd (request follow (OptionsString u) x hops w))
                !! length (requests w) = Some c
              ∧ same_but_aborted
                  {| transport := if String.prefix "https:" href then https else http;
                     target := href;
                     httpOptions := {[ "url" := VStr u; "method" := VStr "GET" ]};
                     req_requestedUrl := href; sent_headers := [];
                     written := []; ended := true; aborted := false |} c)
  | Some e =>
      fst (request follow (OptionsString u) x hops w) = Thrown e
      ∧ requests (snd (request follow (OptionsString u) x hops w)) = requests w
  end
  ∧ (∀ r c, requests w !! r = Some c →
       requests (snd (request follow (OptionsString u) x hops w)) !! r = Some c)
  ∧ (∀ l ob, heap w !! l = Some ob →
       heap (snd (request follow (OptionsString u) x hops w)) !! l = Some ob).
Proof.
  intros Hfollow Hparse Hearly Hresponse Hplain.
  assert (Hkeeps : ∀ nh nr open w0 urls res options depth hops,
            keeps nh nr open w0 (follow urls res options depth hops) (λ _, True)).
  { intros. destruct Hfollow as [-> | ->];
      [apply keeps_followRedirects | apply keeps_followRedirects_js]. }
  pose (o := <[ "method" := VStr "GET" ]> ({[ "url" := VStr u ]} : obj)).
  pose (c0 := {| transport := if String.prefix "https:" href then https else http;
                 target := href; httpOptions := transport_options o;
                 req_requestedUrl := href; sent_headers := [];
                 written := []; ended := false; aborted := false |}).
  pose (h2 := (<[ length (heap w) := o ]> (heap w ++ [{[ "url" := VStr u ]}])
               ++ [transport_options o])%list).
  pose (w2 := {| heap := h2; requests := (requests w ++ [c0])%list |}).
  assert (Htransport : transport_options o = {[ "url" := VStr u; "method" := VStr "GET" ]}).
  { unfold transport_options, o. rewrite !delete_id by reflexivity.
    now apply insert_singleton_ne. }
  assert (Hh2 : ∀ l ob, heap w !! l = Some ob → h2 !! l = Some ob).
  { intros l ob Hob.
    assert (Hl : (l < length (heap w))%nat) by now apply lookup_lt_Some in Hob.
    unfold h2. rewrite lookup_app_l
      by (rewrite length_insert, length_app; cbn; lia).
    rewrite list_lookup_insert_ne by lia. now rewrite lookup_app_l. }
  assert (Hrun : request follow (OptionsString u) x hops w =
            match request_throws (if String.prefix "https:" href then https else http)
                                 href (transport_options o) with
            | Some e => (Thrown e, {| heap := h2; requests := requests w |})
            | None =>
                (Returned (fst (sendRequest follow (length (requests w))
                                  (OptionsObject (length (heap w))) x hops w2)),
                 snd (sendRequest follow (length (requests w))
                        (OptionsObject (length (heap w))) x hops w2))
            end).
  { unfold request. cbn [getObjectionsObject]. unfold bind at 1, alloc at 1.
    unfold bind at 1.
    rewrite (createRequest_object (length (heap w)) {[ "url" := VStr u ]})
      by (cbn [heap]; apply lookup_snoc).
    cbv zeta. cbn [heap requests].
    replace (js_or (get {[ "url" := VStr u ]} "method") (VStr "GET"))
      with (VStr "GET") by reflexivity.
    fold o.
    replace (isUrlOptions o) with true by reflexivity.
    replace (to_str (get o "url")) with u by reflexivity.
    rewrite Hparse. fold h2.
    destruct (request_throws _ href (transport_options o)) as [e |]; [reflexivity |].
    fold c0. fold w2. unfold bind.
    now destruct (sendRequest _ _ _ _ _ w2). }
  rewrite Hrun, Htransport.
  destruct (request_throws _ href _) as [e |]; cbn [fst snd requests heap].
  { split; [now split |]. split; [now intros | exact Hh2]. }
  assert (Ho : heap w2 !! length (heap w) = Some o).
  { cbn [heap w2]. unfold h2. rewrite lookup_app_l
      by (rewrite length_insert, length_app; cbn; lia).
    rewrite insert_snoc. apply lookup_snoc. }
  assert (Hc0 : requests w2 !! length (requests w) = Some c0) by apply lookup_snoc.
  split; [split |]; [| | split].
  - f_equal.
    apply (sendRequest_plain follow _ o _ c0 x hops w2 inc Hfollow Ho Hc0);
      try reflexivity; assumption.
  - rewrite (sendRequest_run _ _ _ _ _ _ _ Ho).
    replace (send_body (length (requests w)) o w2) with (Returned tt, w2)
      by reflexivity.
    unfold end_. rewrite (update_request_at _ _ _ _ Hc0). cbn [snd].
    match goal with
    |- context [run_exchange ?r ?l x ?k Pending
                  {| heap := ?h; requests := <[ ?r := ?c2 ]> ?rs |}] =>
      destruct (run_exchange_open follow r l x hops Pending c2
                  {| heap := h; requests := <[ r := c2 ]> rs |} Hkeeps)
        as (c' & Hc' & Hsame) end.
    { cbn [requests]. apply list_lookup_insert_eq.
      now apply lookup_lt_Some in Hc0. }
    exists c'. split; [exact Hc' |]. rewrite <- Htransport. exact Hsame.
  - intros r c Hc.
    assert (Hr : (r < length (requests w))%nat) by now apply lookup_lt_Some in Hc.
    rewrite (sendRequest_run _ _ _ _ _ _ _ Ho).
    replace (send_body (length (requests w)) o w2) with (Returned tt, w2)
      by reflexivity.
    unfold end_. rewrite (update_request_at _ _ _ _ Hc0). cbn [snd].
    match goal with
    |- context [run_exchange ?r1 ?l x ?k Pending
                  {| heap := ?h; requests := <[ ?r1 := ?c2 ]> ?rs |}] =>
      destruct (run_exchange_frame r1 l x k Pending c2
                  {| heap := h; requests := <[ r1 := c2 ]> rs |})
        as (_ & Hothers & _) end.
    { intros. apply keeps_responseHandler. intros. apply Hkeeps. }
    { cbn [requests]. apply list_lookup_insert_eq.
      now apply lookup_lt_Some in Hc0. }
    apply Hothers; [lia |]. cbn [requests w2].
    rewrite list_lookup_insert_ne by lia. now rewrite lookup_app_l.
  - intros l ob Hob.
    apply sendRequest_heap; [exact Hkeeps | cbn; rewrite length_app; cbn; lia |].
    cbn [heap w2]. now apply Hh2.
Qed.

(** ** What reaches the transport *)

(** X13.  The request that [createRequest] makes from an options object:
    it is the next request of the transport, not yet ended, with no
    header set and nothing written, tagged with the URL it goes to.  Its
    options never hold [body], [bodyJson], [followRedirects] or
    [throwOnErrorResponse]; their [method] is truthy, [GET] unless the
    options gave one; every other option is passed as given. *)
Theorem transport_gets_no_library_option l o w req :
  heap w !! l = Some o →
  fst (createRequest (OptionsObject l) w) = Returned req →
  req = length (requests w)
  ∧ ∃ c, requests (snd (createRequest (OptionsObject l) w)) =
           (requests w ++ [c])%list
       ∧ req_requestedUrl c = target c
       ∧ transport c = (if String.prefix "https:" (target c) then https else http)
       ∧ sent_headers c = [] ∧ written c = [] ∧ ended c = false
       ∧ httpOptions c !! "body" = None
       ∧ httpOptions c !! "bodyJson" = None
       ∧ httpOptions c !! "followRedirects" = None
       ∧ httpOptions c !! "throwOnErrorResponse" = None
       ∧ get (httpOptions c) "method" = js_or (get o "method") (VStr "GET")
       ∧ truthy (get (httpOptions c) "method") = true
       ∧ (∀ k, k ∉ ["body"; "bodyJson"; "followRedirects";
                    "throwOnErrorResponse"; "method"] →
               httpOptions c !! k = o !! k).
Proof.
  intros Ho. rewrite (createRequest_object l o w Ho). cbv zeta.
  destruct (if isUrlOptions _ then _ else _) as [urlStr |]; [| discriminate].
  destruct (request_throws _ _ _) as [e |]; [discriminate |].
  cbn [fst snd requests]. intros [= <-]. split; [reflexivity |].
  eexists. split; [reflexivity |].
  cbn [req_requestedUrl target transport sent_headers written ended httpOptions].
  unfold transport_options, get.
  split_and!; try reflexivity; try (now simplify_map_eq).
  - simplify_map_eq. unfold js_or.
    destruct (truthy (default VUndefined (o !! "method"))) eqn:Hm;
      [exact Hm | reflexivity].
  - intros k Hk. repeat (apply not_elem_of_cons in Hk as [? Hk]).
    now simplify_map_eq.
Qed.

(** ** A redirect and its answer *)

(** X14.  A redirect within the maximum whose request is answered at
    once by a response that is no redirect: the promise of the resolver
    is fulfilled with that response, tagged with the URL that the
    [Location] header resolved to, whatever signals come after it; when
    the transport throws instead of making the request, the promise is
    rejected with its exception.  In both editions. *)
Theorem redirect_is_followed_to_its_answer urls res l depth x hops w o limit
    location newUrl href inc :
  heap w !! l = Some o →
  limit_of o limit →
  (Z.of_nat depth < limit)%Z →
  redirect_to res location →
  new_URL location (last urls) = Some newUrl →
  new_URL newUrl None = Some href →
  early x = [] →
  response x = Some inc →
  non_redirect {| incoming := inc; requestedUrl := newUrl |} →
  fst (followRedirects urls res l depth (x :: hops) w) =
    match hop_throws o newUrl href with
    | None => Fulfilled {| incoming := inc; requestedUrl := newUrl |}
    | Some e => Rejected e
    end
  ∧ fst (followRedirects_js urls res l depth (x :: hops) w) =
    match hop_throws o newUrl href with
    | None => Fulfilled {| incoming := inc; requestedUrl := newUrl |}
    | Some e => Rejected e
    end.
Proof.
  intros Ho Hlimit Hdepth Hredirect Hlocation Hparse Hearly Hresponse Hplain.
  assert (Hmax : maxDepth_of limit = limit).
  { unfold maxDepth_of. destruct (Z.eqb_spec limit 0); [lia | reflexivity]. }
  assert (Hloc : to_str (of_string (headers (incoming res) !! "location")) = location).
  { destruct Hredirect as (_ & -> & _). reflexivity. }
  assert (Hanswer : ∀ (recurse : RequiemResponse → M (promise RequiemResponse)),
            (∀ w1, heap w1 !! l = Some o →
               fst (recurse {| incoming := inc; requestedUrl := newUrl |} w1) =
                 Fulfilled {| incoming := inc; requestedUrl := newUrl |}) →
            fst (hop l newUrl x recurse w) =
              match hop_throws o newUrl href with
              | None => Fulfilled {| incoming := inc; requestedUrl := newUrl |}
              | Some e => Rejected e
              end).
  { intros recurse Hrecurse.
    destruct (hop_run l newUrl x recurse o w Ho) as (h & l1 & Hh & ->).
    rewrite Hparse. destruct (hop_throws o newUrl href) as [e |]; [reflexivity |].
    unfold run_exchange, bind. rewrite Hearly, Hresponse.
    cbn [deliver_all ret].
    match goal with |- context [recurse ?r ?w1] =>
      pose proof (Hrecurse w1) as Hr; destruct (recurse r w1) as [q w2] end.
    cbn [fst heap] in Hr. rewrite Hr by now apply Hh.
    cbn [settle reject_all fold_left]. unfold ret at 1.
    destruct (deliver_all _ _ _ _ _) as [[s calls] w3]. cbn [ret fst].
    now apply reject_all_settled. }
  split.
  - rewrite (followRedirects_step _ _ _ _ _ _ _ _ Ho Hlimit), Hmax.
    destruct (Z.ltb_spec limit (Z.of_nat depth)) as [Hover | _]; [lia |].
    rewrite (redirect_not_final _ _ Hredirect), Hloc, Hlocation.
    cbn [hd]. apply Hanswer. intros w1 Ho1.
    rewrite (followRedirects_step _ _ _ _ _ _ _ _ Ho1 Hlimit), Hmax.
    destruct (Z.ltb_spec limit (Z.of_nat (S depth))) as [Hover | _]; [lia |].
    now rewrite (non_redirect_final _ Hplain).
  - rewrite (followRedirects_js_step _ _ _ _ _ _ _ _ Ho Hlimit).
    destruct (Z.ltb_spec limit (Z.of_nat depth)) as [Hover | _]; [lia |].
    rewrite (redirect_not_final _ _ Hredirect), Hloc, Hlocation.
    cbn [hd]. apply Hanswer. intros w1 Ho1.
    rewrite (followRedirects_js_step _ _ _ _ _ _ _ _ Ho1 Hlimit).
    destruct (Z.ltb_spec limit (Z.of_nat (S depth))) as [Hover | _]; [lia |].
    now rewrite (non_redirect_final _ Hplain).
Qed.

(** ** Signals at a hop *)

Lemma deliver_live req l o c w sig :
  heap w !! l = Some o →
  requests w !! req = Some c →
  aborted c = false →
  ∃ s who calls w',
    deliver req l wireRequestEvents sig w = (s, (who, error_of sig req o) :: calls, w').
Proof.
  intros Ho Hc Hlive. destruct sig as [e | | |]; cbn [deliver error_of].
  - unfold on_error, ret. eauto.
  - destruct (deliver_timeout_live req l o c w Ho Hc Hlive) as (w' & Hsig).
    cbn [deliver] in Hsig. rewrite Hsig. eauto.
  - unfold on_abort. cbn [rejected timedOut wireRequestEvents ret]. eauto.
  - unfold bind at 1, abort at 1. unfold bind at 1, is_aborted at 1.
    rewrite Hc, Hlive. unfold bind at 1.
    rewrite (update_request_at _ _ _ _ Hc). cbn [ret negb].
    unfold on_abort. cbn [rejected timedOut wireRequestEvents ret]. eauto.
Qed.

Lemma timeout_message_hop o newUrl :
  timeout_message (hop_options o newUrl) = timeout_message o.
Proof.
  unfold timeout_message, has, get, hop_options.
  rewrite !lookup_insert_ne by discriminate.
  now rewrite !lookup_delete_ne by discriminate.
Qed.

Lemma hop_first_signal l o newUrl href x recurse sig sigs w :
  heap w !! l = Some o →
  new_URL newUrl None = Some href →
  early x = sig :: sigs →
  fst (hop l newUrl x recurse w) =
    match hop_throws o newUrl href with
    | None => Rejected (error_of sig (length (requests w)) o)
    | Some e => Rejected e
    end.
Proof.
  intros Ho Hparse Hx.
  destruct (hop_run_options l newUrl x recurse o w Ho) as (h & l1 & _ & Hl1 & ->).
  rewrite Hparse. destruct (hop_throws o newUrl href) as [e |]; [reflexivity |].
  match goal with |- context [run_exchange ?r l1 x ?k Pending ?w1] =>
    destruct (deliver_live r l1 (hop_options o newUrl) (hop_request o newUrl href)
                w1 sig Hl1) as (s & who & calls & w' & Hsig);
      [apply lookup_snoc | reflexivity |];
    destruct (deliver_all_first r l1 sig sigs _ _ _ _ _ _ Hsig)
      as (s2 & calls2 & w2 & Hrun);
    rewrite <- Hx in Hrun;
    rewrite (run_exchange_early r l1 x k _ _ _ _ _ Hrun) end.
  cbn [snd]. destruct sig; cbn [error_of]; try reflexivity.
  now rewrite timeout_message_hop.
Qed.

(** X15.  The first signal on the request of a redirect hop rejects the
    promise of the resolver, whatever follows: an [error] event with its
    own error, a [timeout] with [Timeout], whose message gives the
    [timeout] option of the caller, an [abort] or a call of
    [req.abort()] with [RequestAbort]; the last three carry the request
    of the hop, not the request the caller made.  When the transport
    throws instead of making the request, there is no request to signal
    on, and the promise is rejected with its exception.  In both
    editions. *)
Theorem first_signal_at_a_hop_rejects urls res l depth x hops w o limit
    location newUrl href sig sigs :
  heap w !! l = Some o →
  limit_of o limit →
  (Z.of_nat depth ≤ limit)%Z →
  redirect_to res location →
  new_URL location (last urls) = Some newUrl →
  new_URL newUrl None = Some href →
  early x = sig :: sigs →
  fst (followRedirects urls res l depth (x :: hops) w) =
    match hop_throws o newUrl href with
    | None => Rejected (error_of sig (length (requests w)) o)
    | Some e => Rejected e
    end
  ∧ fst (followRedirects_js urls res l depth (x :: hops) w) =
    match hop_throws o newUrl href with
    | None => Rejected (error_of sig (length (requests w)) o)
    | Some e => Rejected e
    end.
Proof.
  intros Ho Hlimit Hdepth Hredirect Hlocation Hparse Hx.
  assert (Hmax : (Z.of_nat depth ≤ maxDepth_of limit)%Z).
  { unfold maxDepth_of, defaultFollowRedirects.
    destruct (Z.eqb_spec limit 0); lia. }
  assert (Hloc : to_str (of_string (headers (incoming res) !! "location")) = location).
  { destruct Hredirect as (_ & -> & _). reflexivity. }
  split.
  - rewrite (followRedirects_step _ _ _ _ _ _ _ _ Ho Hlimit).
    destruct (Z.ltb_spec (maxDepth_of limit) (Z.of_nat depth)) as [Hover | _]; [lia |].
    rewrite (redirect_not_final _ _ Hredirect), Hloc, Hlocation. cbn [hd].
    now apply (hop_first_signal l o newUrl href x _ sig sigs w).
  - rewrite (followRedirects_js_step _ _ _ _ _ _ _ _ Ho Hlimit).
    destruct (Z.ltb_spec limit (Z.of_nat depth)) as [Hover | _]; [lia |].
    rewrite (redirect_not_final _ _ Hredirect), Hloc, Hlocation. cbn [hd].
    now apply (hop_first_signal l o newUrl href x _ sig sigs w).
Qed.

End Properties.

Section JsonProperties.
Context {platform : Runtime} {parser : Parser}.

(** X10.  [requestJson] parses the body that [requestBody] collected:
    when [request] fulfils with a response whose stream ends, the
    promise is fulfilled with the response and the value that
    [JSON.parse] returns for the chunks concatenated, or rejected with
    [InvalidJsonBody], whose message ends with that of the exception of
    [JSON.parse] and which carries the response and no request. *)
Theorem requestJson_parses_the_body (follow : resolver) options x hops w
    res before after :
  fst (request follow options x hops w) = Returned (Fulfilled res) →
  stream (incoming res) = (before ++ EndOfStream :: after)%list →
  EndOfStream ∉ before →
  fst (requestJson follow options x hops w) =
    match JSON_parse (String.concat EmptyString (chunks before)) with
    | Returned json =>
        Fulfilled {| json_response_of := res; json_body := json |}
    | Thrown e =>
        Rejected (RequiemError InvalidJsonBody
                    ("Failed to parse body as JSON: " +:+ message_of e)
                    None (Some res))
    end.
Proof.
  intros Hsent Hstream Hfirst.
  unfold requestJson, bind. rewrite requestBody_run, Hsent, Hstream.
  cbn [fst snd]. rewrite consume_at_end by exact Hfirst. cbn [body response_of app].
  now destruct (JSON_parse _).
Qed.

End JsonProperties.

(** ** The reverse proxy *)

Lemma set_headers_union (hs : gmap string string) (out : ServerResponse) :
  map_fold (fun name v out => out_setHeader name v out) out hs =
    {| out_headers := hs ∪ out_headers out;
       out_statusCode := out_statusCode out;
       out_written := out_written out; out_ended := out_ended out |}.
Proof.
  apply (map_fold_weak_ind
           (λ r m, r = {| out_headers := m ∪ out_headers out;
                          out_statusCode := out_statusCode out;
                          out_written := out_written out;
                          out_ended := out_ended out |})).
  - rewrite (left_id_L ∅ (∪)). now destruct out.
  - intros name v m r _ ->. unfold out_setHeader. cbn.
    now rewrite insert_union_l.
Qed.

Lemma pipe_to_end before after out :
  Forall (λ ev, ∃ chunk, ev = Data chunk) before →
  pipe (before ++ EndOfStream :: after) out =
    {| out_headers := out_headers out; out_statusCode := out_statusCode out;
       out_written := out_written out ++ chunks before; out_ended := true |}.
Proof.
  intros Hdata. revert out.
  induction Hdata as [| ev before [chunk ->] _ IH]; intros out.
  - cbn. now rewrite app_nil_r.
  - cbn [app pipe chunks]. rewrite IH. cbn. now rewrite <- app_assoc.
Qed.

(** X11.  [reverseProxy] gives the outgoing response every header of the
    incoming one, with its value, and keeps the headers that the
    outgoing response had under other names; it copies the status code
    when the incoming response has one; and when the stream of the body
    delivers its chunks and ends, it writes the chunks in order after
    what was written and ends the outgoing response. *)
Theorem reverseProxy_copies_the_response incoming outgoing before after :
  stream incoming = (before ++ EndOfStream :: after)%list →
  Forall (λ ev, ∃ chunk, ev = Data chunk) before →
  (∀ name v, headers incoming !! name = Some v →
     out_headers (reverseProxy incoming outgoing) !! name = Some v)
  ∧ (∀ name, headers incoming !! name = None →
       out_headers (reverseProxy incoming outgoing) !! name
       = out_headers outgoing !! name)
  ∧ out_statusCode (reverseProxy incoming outgoing)
    = default (out_statusCode outgoing) (statusCode incoming)
  ∧ out_written (reverseProxy incoming outgoing)
    = (out_written outgoing ++ chunks before)%list
  ∧ out_ended (reverseProxy incoming outgoing) = true.
Proof.
  intros Hstream Hdata. unfold reverseProxy.
  rewrite set_headers_union, Hstream, (pipe_to_end _ _ _ Hdata).
  destruct (statusCode incoming) as [c |]; cbn;
    (split; [intros name v Hv; now apply lookup_union_Some_l |]);
    (split; [intros name Hv; now apply lookup_union_r |]); auto.
Qed.

(** * The statements at sample inputs *)

Section Samples.
#[local] Existing Instance sample_runtime.


(** C2 as stated fails: beyond the maximum a response that is not a
    redirect is not returned; both resolvers reject with
    [TooManyRedirects]. *)
Lemma non_redirect_beyond_limit_is_rejected :
  let o : obj := {[ "url" := VStr "http://host/a" ]} in
  let res := at_url ok "http://host/g" in
  non_redirect res
  ∧ fst (followRedirects ["http://host/a"] res 0 6 [] (world_of o)) =
      Rejected (RequiemError TooManyRedirects
        (quote +:+ "http://host/a" +:+ quote +:+
         " redirected too many times (max redirects: 5)")
        None (Some res))
  ∧ fst (followRedirects_js ["http://host/a"] res 0 6 [] (world_of o)) =
      Rejected (RequiemError TooManyRedirects
        (quote +:+ "http://host/a" +:+ quote +:+
         " redirected too many times (max redirects: 5)")
        None (Some res))
  ∧ fst (followRedirects ["http://host/a"] res 0 6 [] (world_of o)) ≠ Fulfilled res.
Proof.
  intros o res. split; [right; right; reflexivity |].
  split; [reflexivity |]. split; [reflexivity | discriminate].
Qed.

Lemma non_redirect_is_returned_witness :
  let o : obj := {[ "url" := VStr "http://host/a"; "followRedirects" := VNum 2 ]} in
  let res := at_url ok "http://host/c" in
  heap (world_of o) !! 0%nat = Some o
  ∧ limit_of o 2
  ∧ non_redirect res
  ∧ (Z.of_nat 2 ≤ 2)%Z
  ∧ followRedirects ["http://host/a"] res 0 2 [] (world_of o) =
      (Fulfilled res, world_of o)
  ∧ followRedirects_js ["http://host/a"] res 0 2 [] (world_of o) =
      (Fulfilled res, world_of o).
Proof.
  intros o res.
  assert (Ho : heap (world_of o) !! 0%nat = Some o) by reflexivity.
  assert (Hlimit : limit_of o 2) by (apply limit_number; reflexivity).
  assert (Hres : non_redirect res) by (right; right; reflexivity).
  assert (Hdepth : (Z.of_nat 2 ≤ 2)%Z) by (cbn; lia).
  exact (conj Ho (conj Hlimit (conj Hres (conj Hdepth
           (non_redirect_is_returned ["http://host/a"] res 0 2 [] (world_of o) o 2
              Ho Hlimit Hres Hdepth))))).
Defined.

(** C4 as stated fails in the source edition: there [false] is taken
    for the default maximum, the redirect is followed with a second
    request, and the caller gets the answer of that request, not the
    redirect. *)
Lemma follow_false_is_followed_in_the_source :
  let o : obj := {[ "url" := VStr "http://host/a"; "followRedirects" := VBool false ]} in
  let res := at_url (found "/b") "http://host/a" in
  heap (world_of o) !! 0%nat = Some o
  ∧ o !! "followRedirects" = Some (VBool false)
  ∧ redirect_to res "/b"
  ∧ fst (followRedirects ["http://host/a"] res 0 0 [answer ok] (world_of o)) =
      Fulfilled (at_url ok "http://host/b")
  ∧ fst (followRedirects ["http://host/a"] res 0 0 [answer ok] (world_of o)) ≠
      Fulfilled res
  ∧ map target (requests (snd (followRedirects ["http://host/a"] res 0 0 [answer ok]
                                 (world_of o)))) = ["http://host/b"]
  ∧ fst (request followRedirects (OptionsObject 0) (answer (found "/b")) [answer ok]
           (world_of o)) =
      Returned (Fulfilled (at_url ok "http://host/b"))
  ∧ map target (requests (snd (request followRedirects (OptionsObject 0)
                                 (answer (found "/b")) [answer ok] (world_of o)))) =
      ["http://host/a"; "http://host/b"].
Proof.
  intros o res. split; [reflexivity |]. split; [reflexivity |].
  split.
  { split; [exists 302%Z; split; [reflexivity | lia] |].
    split; [reflexivity | discriminate]. }
  split; [reflexivity |]. split; [discriminate |].
  split; [reflexivity |]. split; reflexivity.
Qed.

Lemma follow_false_returns_response_witness :
  let o : obj := {[ "url" := VStr "http://host/a"; "followRedirects" := VBool false ]} in
  let res := at_url (found "/b") "http://host/a" in
  heap (world_of o) !! 0%nat = Some o
  ∧ o !! "followRedirects" = Some (VBool false)
  ∧ followRedirects_js ["http://host/a"] res 0 0 [answer ok] (world_of o) =
      (Fulfilled res, world_of o).
Proof.
  intros o res.
  assert (Ho : heap (world_of o) !! 0%nat = Some o) by reflexivity.
  assert (Hfalse : o !! "followRedirects" = Some (VBool false)) by reflexivity.
  exact (conj Ho (conj Hfalse
           (proj1 (follow_false_returns_response ["http://host/a"] res 0 0 [answer ok]
                     (world_of o) o Ho Hfalse)))).
Defined.

(** C5 as stated fails: a [Location] of another protocol resolves, but
    [http.request] throws when it is asked for the request; the promise
    is rejected with its exception and no request is made. *)
Lemma redirect_to_another_protocol_issues_nothing :
  let o : obj := {[ "url" := VStr "http://host/a" ]} in
  let res := at_url (found "ftp://host/f") "http://host/a" in
  heap (world_of o) !! 0%nat = Some o
  ∧ redirect_to res "ftp://host/f"
  ∧ new_URL "ftp://host/f" (last ["http://host/a"]) = Some "ftp://host/f"
  ∧ new_URL "ftp://host/f" None = Some "ftp://host/f"
  ∧ hop_throws o "ftp://host/f" "ftp://host/f" = Some (NativeError "ERR_INVALID_PROTOCOL")
  ∧ fst (followRedirects ["http://host/a"] res 0 0 [answer ok] (world_of o)) =
      Rejected (NativeError "ERR_INVALID_PROTOCOL")
  ∧ requests (snd (followRedirects ["http://host/a"] res 0 0 [answer ok]
                     (world_of o))) = []
  ∧ fst (followRedirects_js ["http://host/a"] res 0 0 [answer ok] (world_of o)) =
      Rejected (NativeError "ERR_INVALID_PROTOCOL")
  ∧ requests (snd (followRedirects_js ["http://host/a"] res 0 0 [answer ok]
                     (world_of o))) = []
  ∧ fst (request followRedirects (OptionsObject 0) (answer (found "ftp://host/f"))
           [answer ok] (world_of o)) =
      Returned (Rejected (NativeError "ERR_INVALID_PROTOCOL"))
  ∧ map target (requests (snd (request followRedirects (OptionsObject 0)
                                 (answer (found "ftp://host/f")) [answer ok]
                                 (world_of o)))) = ["http://host/a"].
Proof.
  intros o res. split; [reflexivity |].
  split.
  { split; [exists 302%Z; split; [reflexivity | lia] |].
    split; [reflexivity | discriminate]. }
  repeat (split; [reflexivity |]). reflexivity.
Qed.

Lemma redirect_is_followed_from_last_url_witness :
  let o : obj := {[ "host" := VStr "host"; "path" := VStr "/a"; "method" := VStr "POST";
                    "timeout" := VNum 100 ]} in
  let res := at_url (found "/c") "http://other/b" in
  let urls := ["http://host/a"; "http://other/b"] in
  heap (world_of o) !! 0%nat = Some o
  ∧ limit_of o 5
  ∧ (Z.of_nat 1 ≤ 5)%Z
  ∧ redirect_to res "/c"
  ∧ new_URL "/c" (last urls) = Some "http://other/c"
  ∧ new_URL "http://other/c" None = Some "http://other/c"
  ∧ hop_throws o "http://other/c" "http://other/c" = None
  ∧ ∃ c, requests (snd (followRedirects urls res 0 1 [answer ok] (world_of o)))
           !! 0%nat = Some c
         ∧ same_but_aborted (hop_request o "http://other/c" "http://other/c") c.
Proof.
  intros o res urls.
  assert (Ho : heap (world_of o) !! 0%nat = Some o) by reflexivity.
  assert (Hlimit : limit_of o 5) by (apply limit_default; reflexivity).
  assert (Hdepth : (Z.of_nat 1 ≤ 5)%Z) by (cbn; lia).
  assert (Hredirect : redirect_to res "/c").
  { split; [exists 302%Z; split; [reflexivity | lia] |].
    split; [reflexivity | discriminate]. }
  assert (Hresolve : new_URL "/c" (last urls) = Some "http://other/c") by reflexivity.
  assert (Hparse : new_URL "http://other/c" None = Some "http://other/c")
    by reflexivity.
  assert (Haccepts : hop_throws o "http://other/c" "http://other/c" = None)
    by reflexivity.
  pose proof (redirect_is_followed_from_last_url
                urls res 0 1 [answer ok] (world_of o) o 5 "/c"
                Ho Hlimit Hdepth Hredirect) as (_ & Hhop & _).
  specialize (Hhop "http://other/c" Hresolve Hparse).
  rewrite Haccepts in Hhop. destruct Hhop as [Hts _].
  exact (conj Ho (conj Hlimit (conj Hdepth (conj Hredirect
           (conj Hresolve (conj Hparse (conj Haccepts Hts))))))).
Defined.

Lemma abort_settles_once_witness :
  let o : obj := {[ "url" := VStr "http://host/a"; "method" := VStr "GET";
                    "timeout" := VNum 100 ]} in
  let w := snd (createRequest (OptionsObject 0) (world_of o)) in
  let c := {| transport := http; target := "http://host/a";
              httpOptions := o; req_requestedUrl := "http://host/a";
              sent_headers := []; written := []; ended := false; aborted := false |} in
  let timeout := RequiemError Timeout
                   "Reached timeout limit (100ms), request aborted" (Some 0%nat) None in
  let abort := RequiemError RequestAbort "Request was aborted" (Some 0%nat) None in
  heap w !! 0%nat = Some o
  ∧ requests w !! 0%nat = Some c
  ∧ aborted c = false
  ∧ abort_rejections
      (snd (fst (deliver_all 0 0 wireRequestEvents
                   [EmitError (NativeError "ECONNRESET"); EmitTimeout; EmitAbort;
                    CallAbort] w)))
    = [(OnAbort, timeout)]
  ∧ abort_rejections
      (snd (fst (deliver_all 0 0 wireRequestEvents [EmitAbort; EmitAbort; EmitTimeout] w)))
    = [(OnAbort, abort)]
  ∧ reject_all (@Pending RequiemResponse)
      (snd (fst (deliver_all 0 0 wireRequestEvents [EmitTimeout; EmitAbort] w)))
    = Rejected timeout
  ∧ reject_all (@Pending RequiemResponse)
      (snd (fst (deliver_all 0 0 wireRequestEvents [EmitAbort; EmitTimeout] w)))
    = Rejected abort.
Proof.
  intros o w c timeout abort.
  assert (Ho : heap w !! 0%nat = Some o) by reflexivity.
  assert (Hc : requests w !! 0%nat = Some c) by reflexivity.
  assert (Hlive : aborted c = false) by reflexivity.
  assert (Herror : Forall (λ sig, is_error sig = true)
                     [EmitError (NativeError "ECONNRESET")])
    by (repeat constructor).
  assert (Hnone : Forall (λ sig, is_error sig = true) []) by constructor.
  pose proof (abort_settles_once 0 0 w o Ho)
    as (_ & _ & _ & _ & _ & _ & _ & Habort & Htimeout & _ & _ & Hpabort & Hptimeout & _).
  exact (conj Ho (conj Hc (conj Hlive
           (conj (Htimeout c [EmitError (NativeError "ECONNRESET")]
                    [EmitAbort; CallAbort] Hc Hlive Herror)
              (conj (Habort [] [EmitAbort; EmitTimeout] Hnone)
                 (conj (Hptimeout c [EmitAbort] Hc Hlive)
                    (Hpabort [EmitTimeout]))))))).
Defined.

Lemma status_validation_witness :
  let o : obj := {[ "url" := VStr "http://host/500.json";
                    "throwOnErrorResponse" := VBool true ]} in
  let w := snd (createRequest (OptionsObject 0) (world_of o)) in
  let res := {| statusCode := Some 500%Z; headers := ∅; stream := [] |} in
  let result := at_url res "http://host/500.json" in
  followRedirects [fst (requestedUrl_of 0 w)]
                  {| incoming := res; requestedUrl := fst (requestedUrl_of 0 w) |}
                  0 0 [] w = (Fulfilled result, w)
  ∧ heap w !! 0%nat = Some (<[ "method" := VStr "GET" ]> o)
  ∧ responseHandler followRedirects 0 res 0 [] w =
      (Rejected (RequiemError InvalidStatusCode
         ("Received invalid status code from " +:+ quote +:+ "http://host/500.json" +:+
          quote +:+ ": 500")
         (Some 0%nat) (Some result)), w).
Proof.
  intros o w res result.
  assert (Hfollow : followRedirects [fst (requestedUrl_of 0 w)]
                      {| incoming := res; requestedUrl := fst (requestedUrl_of 0 w) |}
                      0 0 [] w = (Fulfilled result, w)) by reflexivity.
  assert (Ho : heap w !! 0%nat = Some (<[ "method" := VStr "GET" ]> o)) by reflexivity.
  exact (conj Hfollow (conj Ho
           (proj1 (proj2 (status_validation followRedirects 0 res 0 [] w result w
                            (<[ "method" := VStr "GET" ]> o) Hfollow Ho))
              eq_refl))).
Defined.

Lemma bodyJson_is_sent_as_json_witness :
  let o : obj := {[ "url" := VStr "http://host/post.json"; "method" := VStr "POST";
                    "bodyJson" := VObj [("hello", VStr "world")];
                    "body" := VStr "raw" ]} in
  let w := snd (createRequest (OptionsObject 0) (world_of o)) in
  let c := {| transport := http; target := "http://host/post.json";
              httpOptions := transport_options o;
              req_requestedUrl := "http://host/post.json";
              sent_headers := []; written := []; ended := false; aborted := false |} in
  heap w !! 0%nat = Some o
  ∧ is_Some (o !! "bodyJson")
  ∧ requests w !! 0%nat = Some c
  ∧ ∃ c', requests (snd (sendRequest followRedirects 0 (OptionsObject 0)
                           (answer ok) [] w)) !! 0%nat = Some c'
          ∧ sent_headers c' = [("Content-Type", "application/json")]
          ∧ written c' = ["{" +:+ quote +:+ "hello" +:+ quote +:+ ":" +:+
                          quote +:+ "world" +:+ quote +:+ "}"]
          ∧ ended c' = true.
Proof.
  intros o w c.
  assert (Ho : heap w !! 0%nat = Some o) by reflexivity.
  assert (Hjson : is_Some (o !! "bodyJson")) by (eexists; reflexivity).
  assert (Hc : requests w !! 0%nat = Some c) by reflexivity.
  destruct (bodyJson_is_sent_as_json followRedirects 0 o 0 c (answer ok) [] w
              (or_introl eq_refl) Ho Hjson Hc) as (c' & Hc' & Hheaders & Hwritten).
  exact (conj Ho (conj Hjson (conj Hc
           (ex_intro _ c' (conj Hc' (conj Hheaders Hwritten)))))).
Defined.

(** C9 as stated fails: [createRequest] changes the caller's object in
    place, which gains the property [method]. *)
Lemma createRequest_changes_the_options_given :
  let o : obj := {[ "url" := VStr "http://host/a" ]} in
  heap (world_of o) !! 0%nat = Some o
  ∧ heap (snd (createRequest (OptionsObject 0) (world_of o))) !! 0%nat =
      Some {[ "url" := VStr "http://host/a"; "method" := VStr "GET" ]}
  ∧ heap (snd (createRequest (OptionsObject 0) (world_of o))) !! 0%nat ≠ Some o.
Proof.
  intros o. split; [reflexivity |]. split; [reflexivity |].
  intros Heq. apply (f_equal (λ v, match v with Some m => m !! "method" | None => None end))
    in Heq.
  discriminate Heq.
Qed.

Lemma caller_options_changed_in_method_only_witness :
  let o : obj := {[ "url" := VStr "http://host/a"; "body" := VStr "raw";
                    "followRedirects" := VNum 2 ]} in
  heap (world_of o) !! 0%nat = Some o
  ∧ heap (snd (request followRedirects (OptionsObject 0) (answer (found "/b"))
                 [answer ok] (world_of o))) !! 0%nat =
      Some (<[ "method" := VStr "GET" ]> o).
Proof.
  intros o.
  assert (Ho : heap (world_of o) !! 0%nat = Some o) by reflexivity.
  exact (conj Ho (proj1 (proj1 (caller_options_changed_in_method_only
                                  0 o (answer (found "/b")) [answer ok] (world_of o)
                                  Ho)))).
Defined.

(** C3.  With [followRedirects: 0] and a [302] answered by a [200], the
    source edition follows the redirect and fulfils the promise with the
    [200], as it does with no option at all; the compiled edition issues
    the request of the hop and rejects its response with
    [TooManyRedirects] (max redirects: 0). *)
Theorem follow_zero_in_both_editions :
  let o : obj := {[ "url" := VStr "http://host/a"; "followRedirects" := VNum 0 ]} in
  fst (request followRedirects (OptionsObject 0) (answer (found "/b")) [answer ok]
         (world_of o)) =
    Returned (Fulfilled (at_url ok "http://host/b"))
  ∧ fst (request followRedirects_js (OptionsObject 0) (answer (found "/b")) [answer ok]
           (world_of o)) =
    Returned (Rejected (RequiemError TooManyRedirects
      (quote +:+ "http://host/a" +:+ quote +:+
       " redirected too many times (max redirects: 0)")
      None (Some (at_url ok "http://host/b"))))
  ∧ map target (requests (snd (request followRedirects_js (OptionsObject 0)
                                 (answer (found "/b")) [answer ok] (world_of o)))) =
    ["http://host/a"; "http://host/b"].
Proof. intros o. split; [reflexivity |]. split; reflexivity. Qed.

(** C10.  A stream that ends fulfils the promise of [requestBody] with
    the chunks concatenated.  A stream that fails after a chunk leaves
    it pending for ever, and the promise of [request], on which the
    error listener of the response calls [reject], is fulfilled already
    and stays fulfilled: the error reaches no caller. *)
Theorem stream_error_reaches_no_caller :
  let o : obj := {[ "url" := VStr "http://host/a" ]} in
  let broken := {| statusCode := Some 200%Z; headers := ∅;
                   stream := [Data "he"; StreamError "ECONNRESET"] |} in
  fst (requestBody followRedirects (OptionsObject 0) (answer ok) [] (world_of o)) =
    (Fulfilled {| response_of := at_url ok "http://host/a"; body := "hello" |},
     Returned (Fulfilled (at_url ok "http://host/a")))
  ∧ fst (requestBody followRedirects (OptionsObject 0) (answer broken) [] (world_of o)) =
    (Pending, Returned (Fulfilled (at_url broken "http://host/a")))
  ∧ fst (requestBody followRedirects_js (OptionsObject 0) (answer broken) []
           (world_of o)) =
    (Pending, Returned (Fulfilled (at_url broken "http://host/a"))).
Proof. intros o broken. split; [reflexivity |]. split; reflexivity. Qed.

(** ** Further properties at sample inputs *)

#[local] Existing Instance sample_parser.

Lemma transport_error_is_passed_on_witness :
  let o : obj := {[ "url" := VStr "http://host/a"; "method" := VStr "GET" ]} in
  let w := snd (createRequest (OptionsObject 0) (world_of o)) in
  let x := {| early := [EmitError (NativeError "ECONNREFUSED"); EmitAbort];
              response := Some ok; late := [EmitTimeout] |} in
  heap w !! 0%nat = Some o
  ∧ early x = [EmitError (NativeError "ECONNREFUSED"); EmitAbort]
  ∧ fst (sendRequest followRedirects 0 (OptionsObject 0) x [] w) =
      Rejected (NativeError "ECONNREFUSED").
Proof.
  intros o w x.
  assert (Ho : heap w !! 0%nat = Some o) by reflexivity.
  assert (Hx : early x = [EmitError (NativeError "ECONNREFUSED"); EmitAbort])
    by reflexivity.
  exact (conj Ho (conj Hx
           (transport_error_is_passed_on followRedirects 0 0 o x [] w _ _ Ho Hx))).
Defined.

Lemma timeout_rejects_with_Timeout_witness :
  let o : obj := {[ "url" := VStr "http://host/slow"; "method" := VStr "GET";
                    "timeout" := VNum 100 ]} in
  let w := snd (createRequest (OptionsObject 0) (world_of o)) in
  let c := {| transport := http; target := "http://host/slow";
              httpOptions := o; req_requestedUrl := "http://host/slow";
              sent_headers := []; written := []; ended := false; aborted := false |} in
  let x := {| early := [EmitTimeout]; response := None; late := [] |} in
  heap w !! 0%nat = Some o
  ∧ requests w !! 0%nat = Some c
  ∧ aborted c = false
  ∧ early x = [EmitTimeout]
  ∧ fst (sendRequest followRedirects 0 (OptionsObject 0) x [] w) =
      Rejected (RequiemError Timeout
                  "Reached timeout limit (100ms), request aborted" (Some 0%nat) None).
Proof.
  intros o w c x.
  assert (Ho : heap w !! 0%nat = Some o) by reflexivity.
  assert (Hc : requests w !! 0%nat = Some c) by reflexivity.
  assert (Hlive : aborted c = false) by reflexivity.
  assert (Hx : early x = [EmitTimeout]) by reflexivity.
  exact (conj Ho (conj Hc (conj Hlive (conj Hx
           (timeout_rejects_with_Timeout followRedirects 0 0 o c x [] w []
              Ho Hc Hlive Hx))))).
Defined.

Lemma abort_by_caller_rejects_witness :
  let o : obj := {[ "url" := VStr "http://host/a"; "method" := VStr "GET" ]} in
  let w := snd (createRequest (OptionsObject 0) (world_of o)) in
  let c := {| transport := http; target := "http://host/a";
              httpOptions := o; req_requestedUrl := "http://host/a";
              sent_headers := []; written := []; ended := false; aborted := false |} in
  let x := {| early := [CallAbort]; response := Some ok; late := [] |} in
  heap w !! 0%nat = Some o
  ∧ requests w !! 0%nat = Some c
  ∧ aborted c = false
  ∧ early x = [CallAbort]
  ∧ fst (sendRequest followRedirects 0 (OptionsObject 0) x [] w) =
      Rejected (RequiemError RequestAbort "Request was aborted" (Some 0%nat) None).
Proof.
  intros o w c x.
  assert (Ho : heap w !! 0%nat = Some o) by reflexivity.
  assert (Hc : requests w !! 0%nat = Some c) by reflexivity.
  assert (Hlive : aborted c = false) by reflexivity.
  assert (Hx : early x = [CallAbort]) by reflexivity.
  exact (conj Ho (conj Hc (conj Hlive (conj Hx
           (abort_by_caller_rejects followRedirects 0 0 o c x [] w []
              Ho Hc Hlive Hx))))).
Defined.

Lemma raw_body_is_written_as_it_is_witness :
  let o : obj := {[ "url" := VStr "http://host/post"; "method" := VStr "POST";
                    "body" := VStr "raw" ]} in
  let w := snd (createRequest (OptionsObject 0) (world_of o)) in
  let c := {| transport := http; target := "http://host/post";
              httpOptions := transport_options o;
              req_requestedUrl := "http://host/post";
              sent_headers := []; written := []; ended := false; aborted := false |} in
  heap w !! 0%nat = Some o
  ∧ o !! "bodyJson" = None
  ∧ requests w !! 0%nat = Some c
  ∧ ∃ c', requests (snd (sendRequest followRedirects 0 (OptionsObject 0)
                           (answer ok) [] w)) !! 0%nat = Some c'
          ∧ sent_headers c' = []
          ∧ written c' = ["raw"] ∧ ended c' = true.
Proof.
  intros o w c.
  assert (Ho : heap w !! 0%nat = Some o) by reflexivity.
  assert (Hjson : o !! "bodyJson" = None) by reflexivity.
  assert (Hc : requests w !! 0%nat = Some c) by reflexivity.
  destruct (raw_body_is_written_as_it_is followRedirects 0 o 0 c (answer ok) [] w
              (or_introl eq_refl) Ho Hjson Hc) as (c' & Hc' & Hheaders & Hwritten).
  exact (conj Ho (conj Hjson (conj Hc
           (ex_intro _ c' (conj Hc' (conj Hheaders Hwritten)))))).
Defined.

Lemma unformattable_url_is_thrown_witness :
  let o : obj := {[ "path" := VStr "/200.json" ]} in
  let e := RequiemError InvalidUrl "URL could not be formatted properly" None None in
  heap (world_of o) !! 0%nat = Some o
  ∧ truthy (get o "host") = false
  ∧ fst (createRequest (OptionsObject 0) (world_of o)) = Thrown e
  ∧ requests (snd (createRequest (OptionsObject 0) (world_of o))) = []
  ∧ heap (snd (createRequest (OptionsObject 0) (world_of o))) !! 0%nat =
      Some {[ "path" := VStr "/200.json"; "method" := VStr "GET" ]}
  ∧ fst (request followRedirects (OptionsObject 0) (answer ok) [] (world_of o)) = Thrown e
  ∧ requests (snd (request followRedirects (OptionsObject 0) (answer ok) []
                     (world_of o))) = []
  ∧ fst (requestBody followRedirects (OptionsObject 0) (answer ok) [] (world_of o)) =
      (Rejected e, Thrown e).
Proof.
  intros o e.
  assert (Ho : heap (world_of o) !! 0%nat = Some o) by reflexivity.
  assert (Hhost : truthy (get o "host") = false) by reflexivity.
  exact (conj Ho (conj Hhost
           (unformattable_url_is_thrown followRedirects 0 o (answer ok) []
              (world_of o) Ho Hhost))).
Defined.

Lemma redirects_are_bounded_witness :
  let o : obj := {[ "url" := VStr "http://host/a"; "method" := VStr "GET";
                    "followRedirects" := VNum 1 ]} in
  let w := snd (createRequest (OptionsObject 0) (world_of o)) in
  let hops := [answer (found "/c"); answer (found "/d"); answer (found "/e")] in
  heap w !! 0%nat = Some o
  ∧ limit_of o 1
  ∧ (length (requests (snd (sendRequest followRedirects 0 (OptionsObject 0)
                              (answer (found "/b")) hops w)))
     ≤ length (requests w) + 2)%nat
  ∧ (length (requests (snd (sendRequest followRedirects_js 0 (OptionsObject 0)
                              (answer (found "/b")) hops w)))
     ≤ length (requests w) + 2)%nat.
Proof.
  intros o w hops.
  assert (Ho : heap w !! 0%nat = Some o) by reflexivity.
  assert (Hlimit : limit_of o 1) by (apply limit_number; reflexivity).
  pose proof (redirects_are_bounded 0 o 1 0 (answer (found "/b")) hops w Ho Hlimit)
    as [[_ Hts] [_ Hjs]].
  exact (conj Ho (conj Hlimit (conj Hts Hjs))).
Defined.

Lemma fulfilled_response_is_final_witness :
  let o : obj := {[ "url" := VStr "http://host/a"; "method" := VStr "GET";
                    "throwOnErrorResponse" := VNum 200 ]} in
  let w := snd (createRequest (OptionsObject 0) (world_of o)) in
  let r := at_url ok "http://host/b" in
  heap w !! 0%nat = Some o
  ∧ limit_of o 5
  ∧ fst (sendRequest followRedirects 0 (OptionsObject 0)
           (answer (found "/b")) [answer ok] w) = Fulfilled r
  ∧ is_final r ∧ meets_policy o r.
Proof.
  intros o w r.
  assert (Ho : heap w !! 0%nat = Some o) by reflexivity.
  assert (Hlimit : limit_of o 5) by (apply limit_default; reflexivity).
  assert (Hr : fst (sendRequest followRedirects 0 (OptionsObject 0)
                      (answer (found "/b")) [answer ok] w) = Fulfilled r)
    by reflexivity.
  exact (conj Ho (conj Hlimit (conj Hr
           (proj1 (fulfilled_response_is_final 0 o 5 0 (answer (found "/b"))
                     [answer ok] w r Ho Hlimit) Hr)))).
Defined.

Lemma no_end_in_two_chunks : EndOfStream ∉ [Data "he"; Data "llo"].
Proof.
  intros H. apply elem_of_cons in H as [H | H]; [discriminate |].
  apply elem_of_cons in H as [H | H]; [discriminate |].
  now apply elem_of_nil in H.
Qed.

Lemma body_is_the_chunks_before_end_witness :
  let o : obj := {[ "url" := VStr "http://host/a" ]} in
  let res := at_url ok "http://host/a" in
  fst (request followRedirects (OptionsObject 0) (answer ok) [] (world_of o)) =
    Returned (Fulfilled res)
  ∧ stream (incoming res) = ([Data "he"; Data "llo"] ++ EndOfStream :: [])%list
  ∧ (EndOfStream ∉ [Data "he"; Data "llo"])
  ∧ fst (fst (requestBody followRedirects (OptionsObject 0) (answer ok) []
                (world_of o))) =
      Fulfilled {| response_of := res; body := "hello" |}.
Proof.
  intros o res.
  assert (Hsent : fst (request followRedirects (OptionsObject 0) (answer ok) []
                         (world_of o)) = Returned (Fulfilled res)) by reflexivity.
  assert (Hstream : stream (incoming res) =
            ([Data "he"; Data "llo"] ++ EndOfStream :: [])%list) by reflexivity.
  exact (conj Hsent (conj Hstream (conj no_end_in_two_chunks
           (proj1 (body_is_the_chunks_before_end followRedirects (OptionsObject 0)
                     (answer ok) [] (world_of o) res [Data "he"; Data "llo"] []
                     Hsent Hstream no_end_in_two_chunks))))).
Defined.

Lemma no_end_in_two_digits : EndOfStream ∉ [Data "4"; Data "2"].
Proof.
  intros H. apply elem_of_cons in H as [H | H]; [discriminate |].
  apply elem_of_cons in H as [H | H]; [discriminate |].
  now apply elem_of_nil in H.
Qed.

Lemma requestJson_parses_the_body_witness :
  let o : obj := {[ "url" := VStr "http://host/a" ]} in
  let number := {| statusCode := Some 200%Z; headers := ∅;
                   stream := [Data "4"; Data "2"; EndOfStream; Data "7"] |} in
  let res := at_url number "http://host/a" in
  fst (request followRedirects (OptionsObject 0) (answer number) [] (world_of o)) =
    Returned (Fulfilled res)
  ∧ stream (incoming res) = ([Data "4"; Data "2"] ++ EndOfStream :: [Data "7"])%list
  ∧ (EndOfStream ∉ [Data "4"; Data "2"])
  ∧ fst (requestJson followRedirects (OptionsObject 0) (answer number) []
           (world_of o)) =
      Fulfilled {| json_response_of := res; json_body := VNum 42 |}.
Proof.
  intros o number res.
  assert (Hsent : fst (request followRedirects (OptionsObject 0) (answer number) []
                         (world_of o)) = Returned (Fulfilled res)) by reflexivity.
  assert (Hstream : stream (incoming res) =
            ([Data "4"; Data "2"] ++ EndOfStream :: [Data "7"])%list) by reflexivity.
  exact (conj Hsent (conj Hstream (conj no_end_in_two_digits
           (requestJson_parses_the_body followRedirects (OptionsObject 0)
              (answer number) [] (world_of o) res [Data "4"; Data "2"] [Data "7"]
              Hsent Hstream no_end_in_two_digits)))).
Defined.

Lemma reverseProxy_copies_the_response_witness :
  let incoming := {| statusCode := Some 201%Z;
                     headers := {[ "content-type" := "application/xml";
                                   "x-hello" := "World" ]};
                     stream := [Data "<a>"; Data "</a>"; EndOfStream] |} in
  let outgoing := {| out_headers := {[ "x-powered-by" := "Express";
                                       "content-type" := "text/html" ]};
                     out_statusCode := 200%Z; out_written := []; out_ended := false |} in
  stream incoming = ([Data "<a>"; Data "</a>"] ++ EndOfStream :: [])%list
  ∧ Forall (λ ev, ∃ chunk, ev = Data chunk) [Data "<a>"; Data "</a>"]
  ∧ reverseProxy incoming outgoing =
      {| out_headers := {[ "content-type" := "application/xml"; "x-hello" := "World";
                           "x-powered-by" := "Express" ]};
         out_statusCode := 201%Z; out_written := ["<a>"; "</a>"]; out_ended := true |}
  ∧ out_headers (reverseProxy incoming outgoing) !! "x-hello" = Some "World"
  ∧ out_headers (reverseProxy incoming outgoing) !! "x-powered-by" = Some "Express"
  ∧ out_statusCode (reverseProxy incoming outgoing) = 201%Z
  ∧ out_written (reverseProxy incoming outgoing) = ["<a>"; "</a>"]
  ∧ out_ended (reverseProxy incoming outgoing) = true.
Proof.
  intros incoming outgoing.
  assert (Hstream : stream incoming =
            ([Data "<a>"; Data "</a>"] ++ EndOfStream :: [])%list) by reflexivity.
  assert (Hdata : Forall (λ ev, ∃ chunk, ev = Data chunk) [Data "<a>"; Data "</a>"]).
  { repeat constructor; eexists; reflexivity. }
  assert (Hrun : reverseProxy incoming outgoing =
            {| out_headers := {[ "content-type" := "application/xml";
                                 "x-hello" := "World"; "x-powered-by" := "Express" ]};
               out_statusCode := 201%Z; out_written := ["<a>"; "</a>"];
               out_ended := true |}) by (vm_compute; reflexivity).
  pose proof (reverseProxy_copies_the_response incoming outgoing
                [Data "<a>"; Data "</a>"] [] Hstream Hdata)
    as (Hset & Hkept & Hstatus & Hwritten & Hended).
  exact (conj Hstream (conj Hdata (conj Hrun
           (conj (Hset "x-hello" "World" eq_refl)
              (conj (Hkept "x-powered-by" eq_refl)
                 (conj Hstatus (conj Hwritten Hended))))))).
Defined.

Lemma request_by_url_string_witness :
  let w := {| heap := []; requests := [] |} in
  let res := at_url ok "https://host/a" in
  let x := {| early := []; response := Some ok; late := [EmitTimeout] |} in
  new_URL "https://host/a" None = Some "https://host/a"
  ∧ early x = []
  ∧ response x = Some ok
  ∧ non_redirect res
  ∧ request_throws https "https://host/a"
      {[ "url" := VStr "https://host/a"; "method" := VStr "GET" ]} = None
  ∧ fst (request followRedirects (OptionsString "https://host/a") x [] w) =
      Returned (Fulfilled res)
  ∧ ∃ c, requests (snd (request followRedirects (OptionsString "https://host/a")
                          x [] w)) !! 0%nat = Some c
         ∧ transport c = https ∧ target c = "https://host/a"
         ∧ httpOptions c = {[ "url" := VStr "https://host/a"; "method" := VStr "GET" ]}
         ∧ written c = [] ∧ ended c = true.
Proof.
  intros w res x.
  assert (Hparse : new_URL "https://host/a" None = Some "https://host/a")
    by reflexivity.
  assert (Hplain : non_redirect res) by (right; right; reflexivity).
  assert (Haccepts :
    request_throws (if String.prefix "https:" "https://host/a" then https else http)
      "https://host/a"
      {[ "url" := VStr "https://host/a"; "method" := VStr "GET" ]} = None)
    by reflexivity.
  pose proof (request_by_url_string followRedirects "https://host/a" "https://host/a"
                x [] w ok (or_introl eq_refl) Hparse eq_refl eq_refl Hplain)
    as [Hmain _].
  rewrite Haccepts in Hmain.
  destruct Hmain
    as (Hrun & c & Hc & Htransport & Htarget & Hoptions & _ & _ & Hwritten & Hended).
  exact (conj Hparse (conj eq_refl (conj eq_refl (conj Hplain (conj Haccepts
           (conj Hrun
              (ex_intro _ c (conj Hc (conj Htransport (conj Htarget
                 (conj Hoptions (conj Hwritten Hended)))))))))))).
Defined.

Lemma transport_gets_no_library_option_witness :
  let o : obj := {[ "url" := VStr "http://host/a"; "body" := VStr "raw";
                    "followRedirects" := VNum 2;
                    "throwOnErrorResponse" := VBool true;
                    "timeout" := VNum 100 ]} in
  heap (world_of o) !! 0%nat = Some o
  ∧ fst (createRequest (OptionsObject 0) (world_of o)) = Returned 0%nat
  ∧ ∃ c, requests (snd (createRequest (OptionsObject 0) (world_of o))) = [c]
         ∧ httpOptions c !! "body" = None
         ∧ httpOptions c !! "followRedirects" = None
         ∧ httpOptions c !! "throwOnErrorResponse" = None
         ∧ get (httpOptions c) "method" = VStr "GET"
         ∧ httpOptions c !! "timeout" = Some (VNum 100).
Proof.
  intros o.
  assert (Ho : heap (world_of o) !! 0%nat = Some o) by reflexivity.
  assert (Hrun : fst (createRequest (OptionsObject 0) (world_of o)) = Returned 0%nat)
    by reflexivity.
  destruct (transport_gets_no_library_option 0 o (world_of o) 0 Ho Hrun)
    as (_ & c & Hc & _ & _ & _ & _ & _ & Hbody & _ & Hfollow & Hpolicy & Hmethod
        & _ & Hrest).
  refine (conj Ho (conj Hrun (ex_intro _ c (conj Hc (conj Hbody (conj Hfollow
           (conj Hpolicy (conj Hmethod (Hrest "timeout" _))))))))).
  intros H. repeat (apply elem_of_cons in H as [H | H]; [discriminate |]).
  now apply elem_of_nil in H.
Defined.

Lemma redirect_is_followed_to_its_answer_witness :
  let o : obj := {[ "url" := VStr "http://host/a" ]} in
  let res := at_url (found "/b") "http://host/a" in
  heap (world_of o) !! 0%nat = Some o
  ∧ limit_of o 5
  ∧ (Z.of_nat 0 < 5)%Z
  ∧ redirect_to res "/b"
  ∧ new_URL "/b" (last ["http://host/a"]) = Some "http://host/b"
  ∧ non_redirect (at_url ok "http://host/b")
  ∧ hop_throws o "http://host/b" "http://host/b" = None
  ∧ fst (followRedirects ["http://host/a"] res 0 0
           [{| early := []; response := Some ok; late := [EmitAbort] |}]
           (world_of o)) = Fulfilled (at_url ok "http://host/b")
  ∧ fst (followRedirects_js ["http://host/a"] res 0 0
           [{| early := []; response := Some ok; late := [EmitAbort] |}]
           (world_of o)) = Fulfilled (at_url ok "http://host/b").
Proof.
  intros o res.
  assert (Ho : heap (world_of o) !! 0%nat = Some o) by reflexivity.
  assert (Hlimit : limit_of o 5) by (apply limit_default; reflexivity).
  assert (Hdepth : (Z.of_nat 0 < 5)%Z) by reflexivity.
  assert (Hredirect : redirect_to res "/b").
  { split; [exists 302%Z; split; [reflexivity | lia] |].
    split; [reflexivity | discriminate]. }
  assert (Hlocation : new_URL "/b" (last ["http://host/a"]) = Some "http://host/b")
    by reflexivity.
  assert (Hplain : non_redirect (at_url ok "http://host/b"))
    by (right; right; reflexivity).
  assert (Haccepts : hop_throws o "http://host/b" "http://host/b" = None)
    by reflexivity.
  pose proof (redirect_is_followed_to_its_answer ["http://host/a"] res 0 0
                {| early := []; response := Some ok; late := [EmitAbort] |} []
                (world_of o) o 5 "/b" "http://host/b" "http://host/b" ok
                Ho Hlimit Hdepth Hredirect Hlocation eq_refl eq_refl eq_refl
                Hplain) as Hanswer.
  rewrite Haccepts in Hanswer.
  exact (conj Ho (conj Hlimit (conj Hdepth (conj Hredirect (conj Hlocation
           (conj Hplain (conj Haccepts Hanswer))))))).
Defined.

Lemma first_signal_at_a_hop_rejects_witness :
  let o : obj := {[ "url" := VStr "http://host/a"; "timeout" := VNum 100 ]} in
  let res := at_url (found "/slow") "http://host/a" in
  let x := {| early := [EmitTimeout]; response := Some ok; late := [] |} in
  let w := {| heap := [o];
              requests := [{| transport := http; target := "http://host/a";
                              httpOptions := o; req_requestedUrl := "http://host/a";
                              sent_headers := []; written := []; ended := true;
                              aborted := false |}] |} in
  heap w !! 0%nat = Some o
  ∧ limit_of o 5
  ∧ (Z.of_nat 0 ≤ 5)%Z
  ∧ redirect_to res "/slow"
  ∧ new_URL "/slow" (last ["http://host/a"]) = Some "http://host/slow"
  ∧ early x = [EmitTimeout]
  ∧ hop_throws o "http://host/slow" "http://host/slow" = None
  ∧ fst (followRedirects ["http://host/a"] res 0 0 [x] w) =
      Rejected (RequiemError Timeout
                  "Reached timeout limit (100ms), request aborted" (Some 1%nat) None)
  ∧ fst (followRedirects_js ["http://host/a"] res 0 0 [x] w) =
      Rejected (RequiemError Timeout
                  "Reached timeout limit (100ms), request aborted" (Some 1%nat) None).
Proof.
  intros o res x w.
  assert (Ho : heap w !! 0%nat = Some o) by reflexivity.
  assert (Hlimit : limit_of o 5) by (apply limit_default; reflexivity).
  assert (Hdepth : (Z.of_nat 0 ≤ 5)%Z) by (cbn; lia).
  assert (Hredirect : redirect_to res "/slow").
  { split; [exists 302%Z; split; [reflexivity | lia] |].
    split; [reflexivity | discriminate]. }
  assert (Hlocation : new_URL "/slow" (last ["http://host/a"]) = Some "http://host/slow")
    by reflexivity.
  assert (Hx : early x = [EmitTimeout]) by reflexivity.
  assert (Haccepts : hop_throws o "http://host/slow" "http://host/slow" = None)
    by reflexivity.
  pose proof (first_signal_at_a_hop_rejects ["http://host/a"] res 0 0 x [] w o 5
                "/slow" "http://host/slow" "http://host/slow" EmitTimeout []
                Ho Hlimit Hdepth Hredirect Hlocation eq_refl Hx) as Hsignal.
  rewrite Haccepts in Hsignal.
  exact (conj Ho (conj Hlimit (conj Hdepth (conj Hredirect (conj Hlocation (conj Hx
           (conj Haccepts Hsignal))))))).
Defined.

Lemma transport_exception_is_not_wrapped_witness :
  let o : obj := {[ "host" := VStr "host"; "path" := VStr "/a b" ]} in
  let e := NativeError "ERR_UNESCAPED_CHARACTERS" in
  heap (world_of o) !! 0%nat = Some o
  ∧ formatUrl o = Some "http://host/a b"
  ∧ request_throws http "http://host/a b"
      (transport_options (<[ "method" := VStr "GET" ]> o)) = Some e
  ∧ fst (createRequest (OptionsObject 0) (world_of o)) = Thrown e
  ∧ requests (snd (createRequest (OptionsObject 0) (world_of o))) = []
  ∧ fst (request followRedirects (OptionsObject 0) (answer ok) [] (world_of o)) =
      Thrown e
  ∧ fst (requestBody followRedirects (OptionsObject 0) (answer ok) [] (world_of o)) =
      (Rejected e, Thrown e).
Proof.
  intros o e.
  assert (Ho : heap (world_of o) !! 0%nat = Some o) by reflexivity.
  assert (Hurl : formatUrl o = Some "http://host/a b") by reflexivity.
  assert (Hthrows : request_throws http "http://host/a b"
                      (transport_options (<[ "method" := VStr "GET" ]> o)) = Some e)
    by reflexivity.
  destruct (transport_exception_is_not_wrapped followRedirects 0 o (answer ok) []
              (world_of o) "http://host/a b" e Ho Hurl Hthrows)
    as (Hcreate & Hnone & _ & Hrequest & _ & Hbody).
  exact (conj Ho (conj Hurl (conj Hthrows (conj Hcreate (conj Hnone
           (conj Hrequest Hbody)))))).
Defined.

End Samples.
